(** * pranaOS: kernel memory, the SB16 driver, and parts of the userland
      libraries

    A shallow embedding of [src/kernel/memory/VirtualRange.cpp],
    [VirtualRangeAllocator.h], [PrivateInodeVMObject.cpp] and
    [PageDirectory.h], followed by the descriptor sets of libc's [fd_set.h],
    the coverage guards of [FuzzilliJs.cpp], the driver
    [src/kernel/devices/SB16.cpp], the timers and signal handlers of
    libcore's [EventLoop.cpp], and [BasicBlock.h], [getopt.c] and
    [FileWatcher.h].  Machine words ([FlatPtr], [size_t]) are integers with
    the wrap-around written out; a failed [VERIFY] is the result [None], or
    the outcome [Crashed] where the code does port I/O. *)

From Stdlib Require Import ZArith List Bool Lia.
From stdpp Require Import base option strings gmap.
Import ListNotations.
Local Open Scope Z_scope.

(** * Part I: the program and the vocabulary of its specification *)

(** ** Machine words *)

(** The kernel is built for one of two targets; [PageDirectory.h] selects
    its fields with [ARCH(X86_64)], every other build is the 32-bit one. *)
Inductive Arch : Set := X86_64 | I386.

(** Width in bits of [FlatPtr] and [size_t] on the target. *)
Definition ptr_bits (arch : Arch) : Z :=
  match arch with X86_64 => 64 | I386 => 32 end.

(** Number of values of a [FlatPtr]. *)
Definition ptr_modulus (arch : Arch) : Z := 2 ^ ptr_bits arch.

(** Unsigned wrap-around of [FlatPtr] / [size_t] arithmetic. *)
Definition wrap (arch : Arch) (z : Z) : Z := z mod ptr_modulus arch.

(** [z] is a value of the type [FlatPtr] (or [size_t]). *)
Definition is_word (arch : Arch) (z : Z) : Prop := 0 <= z < ptr_modulus arch.

(** Modelled from the spec: [PAGE_SIZE] comes from a header that is not among
    the sources; pages are 4 KiB on both targets. *)
Definition PAGE_SIZE : Z := 4096.

(** Modelled from the spec: [page_round_up] is declared in
    [kernel/memory/MemoryManager.h], which is not among the sources.  It rounds
    an address up to the next page boundary, in [FlatPtr] arithmetic. *)
Definition page_round_up (arch : Arch) (x : Z) : Z :=
  wrap arch (PAGE_SIZE * ((x + (PAGE_SIZE - 1)) / PAGE_SIZE)).

(** Modelled from the spec: [page_round_up_would_wrap] (same header) tells
    whether rounding [x] up to a page boundary leaves the address space. *)
Definition page_round_up_would_wrap (arch : Arch) (x : Z) : bool :=
  ptr_modulus arch <=? PAGE_SIZE * ((x + (PAGE_SIZE - 1)) / PAGE_SIZE).

(** Modelled from the spec: [VirtualAddress::page_base] (header not among the
    sources) rounds an address down to its page boundary. *)
Definition page_base (x : Z) : Z := PAGE_SIZE * (x / PAGE_SIZE).

(** [x] is a multiple of the page size. *)
Definition page_aligned (x : Z) : Prop := x mod PAGE_SIZE = 0.

(** ** VirtualRange *)

(** Modelled from the spec: the class declaration ([VirtualRange.h]) is not
    among the sources.  The spec's data model gives a range as a base address
    and a size; the accessors keep the names [base()] and [size()] that
    VirtualRange.cpp calls. *)
Record VirtualRange : Set := mkRange { base : Z; size : Z }.

(** Modelled from the spec: [VirtualRange::end()] (same header), the base
    offset by the size, in [FlatPtr] arithmetic. *)
Definition end_ (arch : Arch) (r : VirtualRange) : Z :=
  wrap arch (base r + size r).

(** Modelled from the spec: [VirtualRange::operator==] (same header); two
    ranges are equal iff base and size are equal. *)
Definition range_eqb (r1 r2 : VirtualRange) : bool :=
  (base r1 =? base r2) && (size r1 =? size r2).

(** Modelled from the spec: [VirtualRange::contains(VirtualRange const&)]
    (same header), true iff the other range lies fully within this one.  A
    range whose end wraps around the address space lies within no range. *)
Definition contains (arch : Arch) (self other : VirtualRange) : bool :=
  if end_ arch other <? base other then false
  else (base self <=? base other) && (end_ arch other <=? end_ arch self).

(** [VirtualRange::carve], VirtualRange.cpp lines 16-28.  [None] is the failed
    [VERIFY]; otherwise the vector of parts, in the order they are appended. *)
Definition carve (arch : Arch) (self taken : VirtualRange)
  : option (list VirtualRange) :=
  if negb (size taken mod PAGE_SIZE =? 0) then None
  else if range_eqb taken self then Some []
  else
    let parts := [] in
    let parts :=
      if base self <? base taken
      then parts ++ [mkRange (base self) (wrap arch (base taken - base self))]
      else parts in
    let parts :=
      if end_ arch taken <? end_ arch self
      then parts ++ [mkRange (end_ arch taken)
                             (wrap arch (end_ arch self - end_ arch taken))]
      else parts in
    Some parts.

(** [VirtualRange::intersect], VirtualRange.cpp lines 29-38.  [None] is the
    failed [VERIFY(new_base < new_end)]. *)
Definition intersect (arch : Arch) (self other : VirtualRange)
  : option VirtualRange :=
  if range_eqb self other then Some self
  else
    let new_base := Z.max (base self) (base other) in
    let new_end := Z.min (end_ arch self) (end_ arch other) in
    if new_base <? new_end
    then Some (mkRange new_base (wrap arch (new_end - new_base)))
    else None.

(** Error codes of [KResultOr]; this code only produces [EINVAL]. *)
Inductive KResult : Set := EINVAL.

(** [KResultOr<T>]: a value or an error code. *)
Inductive KResultOr (A : Type) : Type :=
| KValue (v : A)
| KError (e : KResult).
Arguments KValue {A} v.
Arguments KError {A} e.

(** [VirtualRange::expand_to_page_boundaries], VirtualRange.cpp lines 40-55. *)
Definition expand_to_page_boundaries (arch : Arch) (address sz : Z)
  : KResultOr VirtualRange :=
  if page_round_up_would_wrap arch sz then KError EINVAL
  else if wrap arch (address + sz) <? address then KError EINVAL
  else if page_round_up_would_wrap arch (wrap arch (address + sz))
  then KError EINVAL
  else
    let b := page_base address in
    let e := page_round_up arch (wrap arch (address + sz)) in
    KValue (mkRange b (wrap arch (e - b))).

(** ** Ranges as sets of addresses *)

(** A range whose end is itself an address: base and size are words and
    [base + size] does not leave the address space, so [end_] is the
    mathematical end.  Every range [expand_to_page_boundaries] returns is
    one: its last guard refuses an end that cannot be represented. *)
Definition range_ok (arch : Arch) (r : VirtualRange) : Prop :=
  0 <= base r /\ 0 <= size r /\ base r + size r < ptr_modulus arch.

(** The address [x] lies in the half-open interval of [r]. *)
Definition in_range (r : VirtualRange) (x : Z) : Prop :=
  base r <= x < base r + size r.

(** [inner] lies fully inside [outer]. *)
Definition subrange (inner outer : VirtualRange) : Prop :=
  base outer <= base inner /\ base inner + size inner <= base outer + size outer.

(** The two ranges share an address. *)
Definition overlap (r1 r2 : VirtualRange) : Prop :=
  exists x, in_range r1 x /\ in_range r2 x.

(** The two ranges share no address. *)
Definition disjoint (r1 r2 : VirtualRange) : Prop :=
  forall x, ~ (in_range r1 x /\ in_range r2 x).

(** [taken] shares exactly one of the two edges of [self]. *)
Definition touches_one_edge (self taken : VirtualRange) : Prop :=
  (base taken = base self /\ base taken + size taken <> base self + size self) \/
  (base taken <> base self /\ base taken + size taken = base self + size self).

(** [taken] shares no edge with [self]. *)
Definition strictly_interior (self taken : VirtualRange) : Prop :=
  base self < base taken /\ base taken + size taken < base self + size self.

(** The parts [carve] leaves of [f] around [r], written without wrap-around. *)
Definition leftover (f r : VirtualRange) : list VirtualRange :=
  (if base f <? base r then [mkRange (base f) (base r - base f)] else []) ++
  (if base r + size r <? base f + size f
   then [mkRange (base r + size r) (base f + size f - (base r + size r))]
   else []).

(** ** VirtualRangeAllocator *)

(** [VirtualRangeAllocator], VirtualRangeAllocator.h lines 17-40.  The
    red-black tree [m_available_ranges], keyed by base address, is the list
    of its values in ascending key order; the spin lock is left out. *)
Record VirtualRangeAllocator : Set := mkAllocator {
  m_available_ranges : list VirtualRange;
  m_total_range : VirtualRange
}.

(** [VirtualRangeAllocator::contains], VirtualRangeAllocator.h line 32. *)
Definition allocator_contains (arch : Arch) (a : VirtualRangeAllocator)
  (range : VirtualRange) : bool :=
  contains arch (m_total_range a) range.

(** Modelled from the spec: VirtualRangeAllocator.cpp is not among the
    sources.  [initialize_with_range] seeds the allocator with one free range
    covering the whole extent. *)
Definition initialize_with_range (b sz : Z) : VirtualRangeAllocator :=
  mkAllocator [mkRange b sz] (mkRange b sz).


(** Modelled from the spec: the tree update of [carve_at_iterator], whose
    body is not among the sources.  The entry with the given key is removed
    and the parts are inserted; their keys lie between the neighbours' keys,
    so they take the entry's place. *)
Fixpoint replace_at (key : Z) (parts l : list VirtualRange)
  : list VirtualRange :=
  match l with
  | [] => []
  | f :: l' => if base f =? key then parts ++ l' else f :: replace_at key parts l'
  end.

(** Modelled from the spec: [carve_at_iterator] (declared in the header, its
    body is not among the sources) splits the free range under the iterator
    via [carve] and stores the leftovers in its place.  [None] is the failed
    [VERIFY] of [carve]. *)
Definition carve_at_iterator (arch : Arch) (a : VirtualRangeAllocator)
  (f range : VirtualRange) : option VirtualRangeAllocator :=
  match carve arch f range with
  | None => None
  | Some parts =>
      Some (mkAllocator (replace_at (base f) parts (m_available_ranges a))
                        (m_total_range a))
  end.

(** Modelled from the spec: [allocate_specific] (VirtualRangeAllocator.cpp is
    not among the sources) requires the exact range to lie in the total extent
    and in one free range; it carves it out of that free range and returns it,
    otherwise it returns nothing.  The outer [None] is a failed [VERIFY]. *)
Definition allocate_specific (arch : Arch) (a : VirtualRangeAllocator)
  (address sz : Z) : option (VirtualRangeAllocator * option VirtualRange) :=
  let range := mkRange address sz in
  if negb (allocator_contains arch a range) then Some (a, None)
  else
    match find (fun f => contains arch f range) (m_available_ranges a) with
    | None => Some (a, None)
    | Some f =>
        match carve_at_iterator arch a f range with
        | None => None
        | Some a' => Some (a', Some range)
        end
    end.

(** Modelled from the spec: the alignment step of [allocate_anywhere] and
    [allocate_randomized], whose bodies are not among the sources: [x] rounded
    up to a multiple of [alignment]. *)
Definition round_up_to (x alignment : Z) : Z :=
  alignment * ((x + (alignment - 1)) / alignment).

(** Modelled from the spec: the fit test of [allocate_anywhere] (body not
    among the sources): the aligned window of [sz] bytes lies in the free
    range [f]. *)
Definition fits (arch : Arch) (sz alignment : Z) (f : VirtualRange) : bool :=
  round_up_to (base f) alignment + sz <=? end_ arch f.

(** Modelled from the spec: [allocate_anywhere] (VirtualRangeAllocator.cpp is
    not among the sources) page-aligns the size up, takes the first free range
    in ascending base order whose aligned sub-range of that size fits, carves
    the sub-range out and returns it; it returns nothing if no range fits. *)
Definition allocate_anywhere (arch : Arch) (a : VirtualRangeAllocator)
  (sz alignment : Z) : option (VirtualRangeAllocator * option VirtualRange) :=
  let sz := page_round_up arch sz in
  match find (fits arch sz alignment) (m_available_ranges a) with
  | None => Some (a, None)
  | Some f =>
      let range := mkRange (round_up_to (base f) alignment) sz in
      match carve_at_iterator arch a f range with
      | None => None
      | Some a' => Some (a', Some range)
      end
  end.


(** Modelled from the spec: the tree update of [deallocate], whose body is
    not among the sources.  The range [r] enters the free ranges at its place
    in base order and is merged with the free range that ends where it starts
    and with the one that starts where it ends. *)
Fixpoint insert_merge (arch : Arch) (r : VirtualRange) (l : list VirtualRange)
  : list VirtualRange :=
  match l with
  | [] => [r]
  | f :: l' =>
      if end_ arch r <? base f then r :: f :: l'
      else if end_ arch r =? base f
      then mkRange (base r) (size r + size f) :: l'
      else if end_ arch f =? base r
      then insert_merge arch (mkRange (base f) (size f + size r)) l'
      else f :: insert_merge arch r l'
  end.

(** Modelled from the spec: [deallocate] (VirtualRangeAllocator.cpp is not
    among the sources) returns the range to the free set, merging it with the
    adjacent free ranges on either side. *)
Definition deallocate (arch : Arch) (a : VirtualRangeAllocator)
  (range : VirtualRange) : VirtualRangeAllocator :=
  mkAllocator (insert_merge arch range (m_available_ranges a)) (m_total_range a).

(** *** The allocator with the ranges it has handed out *)






(** *** The state invariant *)

(** Some range of the list holds the address [x]. *)
Definition covered (l : list VirtualRange) (x : Z) : Prop :=
  Exists (fun r => in_range r x) l.

(** The ranges of [l] are non-empty, lie between [lo] and [hi], come in
    ascending order and leave a gap of at least one address between any two
    neighbours. *)
Fixpoint spaced (lo : Z) (l : list VirtualRange) (hi : Z) : Prop :=
  match l with
  | [] => True
  | f :: l' =>
      lo <= base f /\ 0 < size f /\ base f + size f <= hi /\
      spaced (base f + size f + 1) l' hi
  end.





(** The part of the invariant that speaks of the allocator alone. *)
Definition allocator_ok (arch : Arch) (a : VirtualRangeAllocator) : Prop :=
  range_ok arch (m_total_range a) /\
  spaced (base (m_total_range a)) (m_available_ranges a)
         (base (m_total_range a) + size (m_total_range a)).

(** The exact range is currently free: one free range holds all of it. *)
Definition currently_free (a : VirtualRangeAllocator) (r : VirtualRange) : Prop :=
  exists f, In f (m_available_ranges a) /\ subrange r f.

(** ** PageDirectory *)

(** Modelled from the spec: [PhysicalPage] (PhysicalPage.h is not among the
    sources), a physical page token; [paddr()] reads its physical address. *)
Record PhysicalPage : Set := mkPage { paddr : Z }.

(** The data members of [PageDirectory], PageDirectory.h lines 53-65, without
    the lock.  A [RefPtr] is an [option], [None] being the null pointer;
    [m_pml4t] is only set on X86_64 builds. *)
Record PageDirectory : Type := mkPageDirectory {
  m_space : option nat;
  m_range_allocator : VirtualRangeAllocator;
  m_pml4t : option PhysicalPage;
  m_directory_table : option PhysicalPage;
  m_directory_pages : list (option PhysicalPage);
  m_page_tables : gmap Z (option PhysicalPage)
}.

(** Length of [m_directory_pages], PageDirectory.h lines 59-63. *)
Definition directory_page_count (arch : Arch) : nat :=
  match arch with X86_64 => 512%nat | I386 => 4%nat end.

(** [PageDirectory::cr3()], PageDirectory.h lines 31-38.  [None] is the
    dereference of a null [RefPtr]. *)
Definition cr3 (arch : Arch) (pd : PageDirectory) : option Z :=
  match arch with
  | X86_64 => paddr <$> m_pml4t pd
  | I386 => paddr <$> m_directory_table pd
  end.

(** ** VM objects *)

(** The variants of the [VMObject] hierarchy the memory core knows. *)
Inductive VMObjectKind : Set := AnonymousKind | SharedInodeKind | PrivateInodeKind.

(** A [RefPtr<VMObject>]: the address of the instance. *)
Definition VMObjectPtr : Set := nat.

(** Modelled from the spec: [VMObject] and [InodeVMObject] are declared in
    headers that are not among the sources.  A VM object owns a sequence of
    physical-page tokens, one per page of its extent; a token is a
    [RefPtr<PhysicalPage>], [None] for a page not faulted in yet, else the
    physical address of the page it refers to. *)
Record VMObject : Set := mkVMObject {
  kind : VMObjectKind;
  m_inode : nat;
  m_physical_pages : list (option Z)
}.

(** Modelled from the spec: the heap of VM objects and physical pages (their
    headers are not among the sources): the VM objects by address, the
    reference count of every physical page, and what the pages hold. *)
Record VMState : Type := mkVMState {
  vm_objects : gmap VMObjectPtr VMObject;
  ref_counts : gmap Z nat;
  page_contents : gmap Z (list Z)
}.

(** Modelled from the spec: the reference count of a page ([RefCounted],
    header not among the sources); a page nothing refers to has none. *)
Definition ref_count (counts : gmap Z nat) (page : Z) : nat :=
  default 0%nat (counts !! page).

(** Modelled from the spec: the copy of a [RefPtr] (header not among the
    sources) takes one more reference on the page it refers to. *)
Definition ref (counts : gmap Z nat) (token : option Z) : gmap Z nat :=
  match token with
  | None => counts
  | Some page => <[page := S (ref_count counts page)]> counts
  end.

(** Modelled from the spec: the copy of the page-token sequence in the
    [VMObject] copy constructor (not among the sources) copies every token in
    turn. *)
Definition ref_all (counts : gmap Z nat) (tokens : list (option Z)) : gmap Z nat :=
  fold_left ref tokens counts.

(** Modelled from the spec: the length of the page-token sequence set up by
    the [VMObject] constructor (not among the sources), one token per page of
    an extent of [sz] bytes. *)
Definition page_count (sz : Z) : nat :=
  Z.to_nat ((sz + (PAGE_SIZE - 1)) / PAGE_SIZE).

(** [PrivateInodeVMObject::try_create_with_inode],
    PrivateInodeVMObject.cpp lines 13-16 with the constructor of lines 23-26:
    [storage] is the result of [new (nothrow)], and the object is sized to
    the inode with no page faulted in. *)
Definition try_create_with_inode (st : VMState) (storage : option VMObjectPtr)
  (inode : nat) (inode_size : Z) : VMState * option VMObjectPtr :=
  match storage with
  | None => (st, None)
  | Some p =>
      (mkVMState
         (<[p := mkVMObject PrivateInodeKind inode
                   (repeat None (page_count inode_size))]> (vm_objects st))
         (ref_counts st) (page_contents st),
       Some p)
  end.

(** [PrivateInodeVMObject::try_clone], PrivateInodeVMObject.cpp lines 18-21,
    with the copy constructor of lines 28-31.  [storage] is the result of
    [new (nothrow)]: the address of the clone's own bookkeeping, or [None]
    when that allocation fails, and then [adopt_ref_if_nonnull] gives the
    null pointer.  Modelled from the spec: the base-class copy constructors
    are not among the sources; they copy the page-token sequence by value. *)
Definition try_clone (st : VMState) (self : VMObjectPtr)
  (storage : option VMObjectPtr) : VMState * option VMObjectPtr :=
  match vm_objects st !! self, storage with
  | Some this, Some p =>
      (mkVMState
         (<[p := mkVMObject PrivateInodeKind (m_inode this) (m_physical_pages this)]>
            (vm_objects st))
         (ref_all (ref_counts st) (m_physical_pages this))
         (page_contents st),
       Some p)
  | _, _ => (st, None)
  end.

(** Modelled from the spec: the fault handler's replacement of one page token
    of an object (copy-on-write); the headers that declare it are not among
    the sources.  Out of range nothing changes. *)
Definition set_page_token (st : VMState) (obj : VMObjectPtr) (index : nat)
  (token : option Z) : VMState :=
  match vm_objects st !! obj with
  | None => st
  | Some o =>
      mkVMState
        (<[obj := mkVMObject (kind o) (m_inode o)
                    (<[index := token]> (m_physical_pages o))]> (vm_objects st))
        (ref_counts st) (page_contents st)
  end.

(** The page tokens of the object at [p], if there is one. *)
Definition tokens_of (st : VMState) (p : VMObjectPtr) : option (list (option Z)) :=
  m_physical_pages <$> (vm_objects st !! p).

(** How often the page occurs among the tokens. *)
Definition occurrences (page : Z) (tokens : list (option Z)) : nat :=
  length (filter (fun t => t = Some page) tokens).

(** ** libc: the descriptor sets of fd_set.h *)

(** [FD_SETSIZE], fd_set.h line 9. *)
Definition FD_SETSIZE : Z := 1024.

(** [struct __fd_set], fd_set.h lines 15-17: [FD_SETSIZE / 8] bytes. *)
Record fd_set : Set := mk_fd_set { bits : list Z }.

(** Conversion to [unsigned char], as an assignment to a byte does. *)
Definition to_uchar (z : Z) : Z := z mod 256.

(** [1 << n] on [int]; [None] where C leaves the shift undefined (a negative
    count, or a count that reaches the sign bit). *)
Definition shl_one (n : Z) : option Z :=
  if (0 <=? n) && (n <? 31) then Some (Z.shiftl 1 n) else None.

(** The argument [fd] of the three macros.  A macro puts the text of its
    argument in place of [fd], and in [bits[(fd / 8)]] that text is not
    parenthesised.  An argument whose operators all bind at least as tightly
    as [/] (an identifier, a literal, a parenthesised or unary expression, a
    product or quotient) is divided as a whole: it is [Tight], given by its
    value.  An argument [lhs op rhs] whose operator binds less tightly than
    [/] (as [+], [-], [<<], a comparison, a conditional) is [Loose]: the
    division then applies to [rhs] alone, which may itself be loose.
    [op] is what the operator computes. *)
Inductive fd_arg : Type :=
| Tight (value : Z)
| Loose (op : Z -> Z -> Z) (lhs : Z) (rhs : fd_arg).

(** An [int] value, written as an identifier or a literal, is an argument. *)
Coercion Tight : Z >-> fd_arg.

(** The value of the argument, which is what [(fd)] in [(fd) % 8] gives. *)
Fixpoint arg_value (fd : fd_arg) : Z :=
  match fd with
  | Tight value => value
  | Loose op lhs rhs => op lhs (arg_value rhs)
  end.

(** The value of [fd / 8] with the text of the argument in place of [fd];
    the division truncates as in C. *)
Fixpoint arg_index (fd : fd_arg) : Z :=
  match fd with
  | Tight value => Z.quot value 8
  | Loose op lhs rhs => op lhs (arg_index rhs)
  end.

(** The byte [set->bits[(fd / 8)]] with the mask [(1 << (fd) % 8)] that the
    three macros share.  [None] is an access outside the array or an
    undefined shift. *)
Definition fd_slot (fd : fd_arg) (set : fd_set) : option (nat * Z * Z) :=
  let i := arg_index fd in
  match shl_one (Z.rem (arg_value fd) 8) with
  | None => None
  | Some mask =>
      if (0 <=? i) && (i <? Z.quot FD_SETSIZE 8)
      then match bits set !! Z.to_nat i with
           | Some b => Some (Z.to_nat i, b, mask)
           | None => None
           end
      else None
  end.

(** [FD_ZERO], fd_set.h line 10: [memset] of the whole struct to zero. *)
Definition FD_ZERO (set : fd_set) : fd_set :=
  mk_fd_set (repeat 0 (Z.to_nat (Z.quot FD_SETSIZE 8))).

(** [FD_CLR], fd_set.h line 11: [bits[(fd / 8)] &= ~(1 << (fd) % 8)]. *)
Definition FD_CLR (fd : fd_arg) (set : fd_set) : option fd_set :=
  match fd_slot fd set with
  | None => None
  | Some (i, b, mask) =>
      Some (mk_fd_set (<[i := to_uchar (Z.land b (Z.lnot mask))]> (bits set)))
  end.

(** [FD_SET], fd_set.h line 12: [bits[(fd / 8)] |= (1 << (fd) % 8)]. *)
Definition FD_SET (fd : fd_arg) (set : fd_set) : option fd_set :=
  match fd_slot fd set with
  | None => None
  | Some (i, b, mask) =>
      Some (mk_fd_set (<[i := to_uchar (Z.lor b mask)]> (bits set)))
  end.

(** [FD_ISSET], fd_set.h line 13: the value of
    [bits[(fd / 8)] & (1 << (fd) % 8)], an [int]. *)
Definition FD_ISSET (fd : fd_arg) (set : fd_set) : option Z :=
  match fd_slot fd set with
  | None => None
  | Some (_, b, mask) => Some (Z.land b mask)
  end.

(** The argument selects a byte of the array and a defined shift. *)
Definition fd_arg_ok (fd : fd_arg) : Prop :=
  0 <= arg_value fd /\ 0 <= arg_index fd < FD_SETSIZE / 8.

(** A descriptor set as the struct declares it: [FD_SETSIZE / 8] bytes. *)
Definition fd_set_ok (set : fd_set) : Prop :=
  length (bits set) = 128%nat /\ Forall (fun b => 0 <= b < 256) (bits set).

(** What [fd_slot] needs of a byte [b] and two bit numbers [n], [n'] below 8,
    as one decidable check. *)
Definition byte_bit_facts (b n n' : Z) : bool :=
  let m := Z.shiftl 1 n in
  let m' := Z.shiftl 1 n' in
  (to_uchar (Z.lor b m) =? Z.lor b m) &&
  (to_uchar (Z.land b (Z.lnot m)) =? Z.land b (Z.lnot m)) &&
  (0 <=? Z.lor b m) && (Z.lor b m <? 256) &&
  (0 <=? Z.land b (Z.lnot m)) && (Z.land b (Z.lnot m) <? 256) &&
  (Z.land (Z.lor b m) m =? m) &&
  (Z.land (Z.land b (Z.lnot m)) m =? 0) &&
  ((Z.land b m =? 0) || (Z.land b m =? m)) &&
  (m =? 2 ^ n) &&
  ((n =? n') ||
   ((Z.land (Z.lor b m) m' =? Z.land b m') &&
    (Z.land (Z.land b (Z.lnot m)) m' =? Z.land b m'))).

(** ** Lagom: the coverage guards of FuzzilliJs.cpp *)

(** [SHM_SIZE], FuzzilliJs.cpp line 32. *)
Definition SHM_SIZE : Z := 1048576.

(** [MAX_EDGES], FuzzilliJs.cpp line 33. *)
Definition MAX_EDGES : Z := (SHM_SIZE - 4) * 8.

(** The instrumentation's memory: the guard words from [__edges_start] to
    [__edges_stop], and the bytes of [__shmem->edges] by index.  The region
    behind [__shmem] has [SHM_SIZE] bytes, of which [num_edges] takes the
    first four, so [edges] has [SHM_SIZE - 4] bytes. *)
Record Coverage : Type := mkCoverage {
  guards : list Z;
  edges : Z -> Z
}.

(** The loop of [__sanitizer_cov_reset_edgeguards], FuzzilliJs.cpp lines
    49-54, from the counter value [N]: each guard gets [++N] while guards are
    left and [N < MAX_EDGES].  [N] is a [uint64_t], a guard a [uint32_t]. *)
Fixpoint reset_from (N : Z) (gs : list Z) : list Z :=
  match gs with
  | [] => []
  | g :: rest =>
      if N <? MAX_EDGES
      then let N' := (N + 1) mod 2 ^ 64 in N' mod 2 ^ 32 :: reset_from N' rest
      else gs
  end.

(** [__sanitizer_cov_reset_edgeguards], FuzzilliJs.cpp lines 49-54. *)
Definition reset_edgeguards (c : Coverage) : Coverage :=
  mkCoverage (reset_from 0 (guards c)) (edges c).

(** The byte memory with one byte replaced. *)
Definition store_byte (mem : Z -> Z) (i v : Z) : Z -> Z :=
  fun j => if Z.eq_dec j i then v else mem j.

(** [__sanitizer_cov_trace_pc_guard], FuzzilliJs.cpp lines 93-100, for the
    guard at position [k] of the guard array.  [None] is an access outside the
    guard array or outside the [SHM_SIZE - 4] bytes of [edges]. *)
Definition trace_pc_guard (k : nat) (c : Coverage) : option Coverage :=
  match guards c !! k with
  | None => None
  | Some index =>
      if index =? 0 then Some c
      else if index / 8 <? SHM_SIZE - 4
      then
        match shl_one (index mod 8) with
        | None => None
        | Some mask =>
            Some (mkCoverage
                    (<[k := 0]> (guards c))
                    (store_byte (edges c) (index / 8)
                       (to_uchar (Z.lor (edges c (index / 8)) mask))))
        end
      else None
  end.

(** ** The SB16 driver: port I/O *)

(** What the driver does to the machine, in the order it does it. *)
Inductive PortEvent : Set :=
| PortOut (port value : Z)
| PortIn (port value : Z)
| PortDelay (microseconds : Z)
| Cli
| EnableIrq
| DisableIrq
| WaitForIrq
| WakeIrqQueue
| ChangeIrqNumber (irq : Z).

(** The machine as the driver sees it: the bytes the ports will answer to
    the [IO::in8] calls to come, in call order, and the log of what has
    happened so far, oldest first. *)
Record Machine : Set := mkMachine {
  inputs : list Z;
  log : list PortEvent
}.

(** How a piece of driver code ends: it returns, a [VERIFY] fails, or it
    does not get what it waits for: it is still reading a port when the
    scripted answers run out (a busy loop that never sees the bit it waits
    for ends this way), or it sleeps on a wait queue that nobody wakes. *)
Inductive Run (A : Type) : Type :=
| Returned (a : A) (m : Machine)
| Crashed (m : Machine)
| Starved.
Arguments Returned {A} a m.
Arguments Crashed {A} m.
Arguments Starved {A}.

(** Driver code: a function of the machine. *)
Definition IO (A : Type) : Type := Machine -> Run A.

Definition io_ret {A} (a : A) : IO A := fun m => Returned a m.

Definition io_bind {A B} (c : IO A) (k : A -> IO B) : IO B :=
  fun m =>
    match c m with
    | Returned a m' => k a m'
    | Crashed m' => Crashed m'
    | Starved => Starved
    end.

Notation "x <-- c ;; k" := (io_bind c (fun x => k))
  (at level 100, c at next level, right associativity).
Notation "c ;;; k" := (io_bind c (fun _ => k))
  (at level 100, right associativity).

(** One more event in the log. *)
Definition emit (e : PortEvent) : IO unit :=
  fun m => Returned tt (mkMachine (inputs m) (log m ++ [e])).

(** [IO::out8]: the value is a [u8]. *)
Definition out8 (port value : Z) : IO unit := emit (PortOut port (to_uchar value)).

(** [IO::in8]: the next scripted answer, a [u8]. *)
Definition in8 (port : Z) : IO Z :=
  fun m =>
    match inputs m with
    | [] => Starved
    | v :: rest =>
        Returned (to_uchar v) (mkMachine rest (log m ++ [PortIn port (to_uchar v)]))
    end.

(** A failed [VERIFY] or [VERIFY_NOT_REACHED]. *)
Definition io_crash {A} : IO A := fun m => Crashed m.

(** [while (again(IO::in8(port))) ;]: the port is read until an answer ends
    the loop. *)
Fixpoint spin (port : Z) (again : Z -> bool) (answers : list Z)
  (events : list PortEvent) : Run unit :=
  match answers with
  | [] => Starved
  | v :: rest =>
      let events' := events ++ [PortIn port (to_uchar v)] in
      if again (to_uchar v) then spin port again rest events'
      else Returned tt (mkMachine rest events')
  end.

(** The ports of the DSP, SB16.cpp lines 29-32. *)
Definition DSP_READ : Z := 554.
Definition DSP_WRITE : Z := 556.
Definition DSP_STATUS : Z := 558.
Definition DSP_R_ACK : Z := 559.

(** [SB16_DEFAULT_IRQ], SB16.cpp line 22. *)
Definition SB16_DEFAULT_IRQ : Z := 5.

(** Bit 7 of a port answer, the [& 0x80] of the two wait loops. *)
Definition bit7 (v : Z) : bool := negb (Z.land v 128 =? 0).

(** [SB16::dsp_write], SB16.cpp lines 34-40. *)
Definition dsp_write (value : Z) : IO unit :=
  (fun m => spin DSP_WRITE bit7 (inputs m) (log m)) ;;;
  out8 DSP_WRITE value.

(** [SB16::dsp_read], SB16.cpp lines 42-48. *)
Definition dsp_read : IO Z :=
  (fun m => spin DSP_STATUS (fun v => negb (bit7 v)) (inputs m) (log m)) ;;;
  in8 DSP_READ.

(** [SB16::set_sample_rate], SB16.cpp lines 50-58; [hz] is a [uint16_t]. *)
Definition set_sample_rate (hz : Z) : IO unit :=
  dsp_write 65 ;;;
  dsp_write (to_uchar (Z.shiftr hz 8)) ;;;
  dsp_write (to_uchar hz) ;;;
  dsp_write 66 ;;;
  dsp_write (to_uchar (Z.shiftr hz 8)) ;;;
  dsp_write (to_uchar hz).

(** The [switch] of [SB16::set_irq_register], SB16.cpp lines 122-136: the
    register value of an IRQ number, [None] for [VERIFY_NOT_REACHED]. *)
Definition irq_bitmask (irq_number : Z) : option Z :=
  if irq_number =? 2 then Some 0
  else if irq_number =? 5 then Some 2
  else if irq_number =? 7 then Some 4
  else if irq_number =? 10 then Some 8
  else None.

(** [SB16::set_irq_register], SB16.cpp lines 119-140. *)
Definition set_irq_register (irq_number : Z) : IO unit :=
  match irq_bitmask irq_number with
  | None => io_crash
  | Some bitmask => out8 548 128 ;;; out8 549 bitmask
  end.

(** The [switch] of [SB16::get_irq_line], SB16.cpp lines 146-156. *)
Definition irq_of_bitmask (bitmask : Z) : Z :=
  if bitmask =? 0 then 2
  else if bitmask =? 2 then 5
  else if bitmask =? 4 then 7
  else if bitmask =? 8 then 10
  else bitmask.

(** [SB16::get_irq_line], SB16.cpp lines 142-157. *)
Definition get_irq_line : IO Z :=
  out8 548 128 ;;;
  bitmask <-- in8 549 ;;
  io_ret (irq_of_bitmask bitmask).

(** [SB16::set_irq_line], SB16.cpp lines 158-165.  [change_irq_number] belongs
    to [IRQHandler], whose code is not among the sources; it is logged. *)
Definition set_irq_line (irq_number : Z) : IO unit :=
  current <-- get_irq_line ;;
  if irq_number =? current then io_ret tt
  else set_irq_register irq_number ;;; emit (ChangeIrqNumber irq_number).

(** [SB16::dma_start], SB16.cpp lines 177-202.  [addr] is the physical
    address of the first page of the DMA region, [length] a [uint32_t]. *)
Definition dma_start (addr length : Z) : IO unit :=
  let channel := 5 in
  let mode := 72 in
  out8 212 (4 + channel mod 4) ;;;
  out8 216 0 ;;;
  out8 214 (Z.lor (channel mod 4) mode) ;;;
  let offset := (addr / 2) mod 65536 in
  out8 196 (to_uchar offset) ;;;
  out8 196 (to_uchar (Z.shiftr offset 8)) ;;;
  out8 198 (to_uchar ((length - 1) mod 2 ^ 32)) ;;;
  out8 198 (to_uchar (Z.shiftr ((length - 1) mod 2 ^ 32) 8)) ;;;
  out8 139 (Z.shiftr addr 16) ;;;
  let page_number := Z.shiftr addr 16 in
  if page_number <=? 255
  then out8 139 page_number ;;; out8 212 (channel mod 4)
  else io_crash.

(** [SB16::handle_irq], SB16.cpp lines 204-215. *)
Definition handle_irq (m_major_version : Z) : IO bool :=
  dsp_write 213 ;;;
  _ <-- in8 DSP_STATUS ;;
  (if 4 <=? m_major_version then (_ <-- in8 DSP_R_ACK ;; io_ret tt) else io_ret tt) ;;;
  emit WakeIrqQueue ;;;
  io_ret true.

(** A thread asleep on a wait queue that is never woken. *)
Definition never_woken {A} : IO A := fun _ => Starved.

(** [SB16::wait_for_irq], SB16.cpp lines 217-221.  [WaitQueue] is not among
    the sources: [wait_forever] puts the thread to sleep until the queue is
    woken.  The only [wake_all] on [m_irq_queue] is the one of [handle_irq],
    which the kernel calls when the card raises its interrupt, and with
    [cli()] in force since before [enable_irq()] that call cannot come
    before the thread sleeps.  So either the interrupt arrives, and the
    sleep spans one run of [handle_irq], or the thread sleeps for ever. *)
Definition wait_for_irq (m_major_version : Z) (irq_arrives : bool) : IO unit :=
  emit WaitForIrq ;;;
  (if irq_arrives then (_ <-- handle_irq m_major_version ;; io_ret tt)
   else never_woken) ;;;
  emit DisableIrq.

(** The members of [SB16] the code in SB16.cpp uses: the DSP's major version
    and the DMA region, given by the physical address of its first page
    ([None] while [m_dma_region] is null).  The class declaration (SB16.h) is
    not among the sources. *)
Record SB16 : Set := mkSB16 {
  m_major_version : Z;
  m_dma_region : option Z
}.

(** The error codes [SB16::write] names. *)
Inductive Errno : Set := ENOMEM | ENOSPC | EFAULT.

(** What the rest of the kernel and the card answer during one
    [SB16::write]: the supervisor page the memory manager hands out (its
    physical address, or [None]), whether the VM object and the kernel
    region could be made, whether the copy from the caller's buffer
    succeeds, and whether the card raises its interrupt while the thread
    waits for it. *)
Record WriteEnv : Set := mkWriteEnv {
  supervisor_page : option Z;
  vmobject_created : bool;
  region_allocated : bool;
  copy_succeeds : bool;
  irq_arrives : bool
}.

(** The block [if (!m_dma_region) { ... }] of [SB16::write], SB16.cpp lines
    225-235: the address of the DMA page afterwards, [None] for [ENOMEM]. *)
Definition ensure_dma_region (env : WriteEnv) (dev : SB16) : option Z :=
  match m_dma_region dev with
  | Some addr => Some addr
  | None =>
      match supervisor_page env with
      | None => None
      | Some page =>
          if negb (vmobject_created env) then None
          else if negb (region_allocated env) then None
          else Some page
      end
  end.

(** [BLOCK_SIZE] of [SB16::write], SB16.cpp line 240. *)
Definition BLOCK_SIZE : Z := 32 * 1024.

(** The [u16 sample_count] that [SB16::write] computes, SB16.cpp lines
    254-259, with [mode = Signed | Stereo]. *)
Definition sample_count_of (length : Z) : Z :=
  let mode := Z.lor 16 32 in
  let sample_count := (length / 2) mod 65536 in
  let sample_count :=
    if negb (Z.land mode 32 =? 0) then (sample_count / 2) mod 65536
    else sample_count in
  (sample_count - 1) mod 65536.

(** [SB16::write], SB16.cpp lines 223-272; [length] is a [size_t].  The
    result is the device afterwards and the [KResultOr<size_t>]. *)
Definition sb16_write (env : WriteEnv) (dev : SB16) (length : Z)
  : IO (SB16 * (Errno + Z)) :=
  match ensure_dma_region env dev with
  | None => io_ret (dev, inl ENOMEM)
  | Some addr =>
      let dev' := mkSB16 (m_major_version dev) (Some addr) in
      if negb (length <=? PAGE_SIZE) then io_crash
      else if BLOCK_SIZE <? length then io_ret (dev', inl ENOSPC)
      else
        let mode := Z.lor 16 32 in
        set_sample_rate 44100 ;;;
        if negb (copy_succeeds env) then io_ret (dev', inl EFAULT)
        else
          dma_start addr (length mod 2 ^ 32) ;;;
          let command := 176 in
          let sample_count := sample_count_of length in
          emit Cli ;;;
          emit EnableIrq ;;;
          dsp_write command ;;;
          dsp_write mode ;;;
          dsp_write (to_uchar sample_count) ;;;
          dsp_write (to_uchar (Z.shiftr sample_count 8)) ;;;
          wait_for_irq (m_major_version dev) (irq_arrives env) ;;;
          io_ret (dev', inr length)
  end.

(** The reset sequence that opens [SB16::detect] and [SB16::initialize]. *)
Definition dsp_reset : IO Z :=
  out8 550 1 ;;;
  emit (PortDelay 32) ;;;
  out8 550 0 ;;;
  dsp_read.

(** [SB16::initialize], SB16.cpp lines 96-117; the result is the device with
    the version it read. *)
Definition sb16_initialize (dev : SB16) : IO SB16 :=
  emit DisableIrq ;;;
  data <-- dsp_reset ;;
  if negb (data =? 170) then io_ret dev
  else
    dsp_write 225 ;;;
    major <-- dsp_read ;;
    vmin <-- dsp_read ;;
    set_irq_register SB16_DEFAULT_IRQ ;;;
    line <-- get_irq_line ;;
    io_ret (mkSB16 major (m_dma_region dev)).

(** The events of the log that are port writes, as (port, value). *)
Fixpoint outputs (events : list PortEvent) : list (Z * Z) :=
  match events with
  | [] => []
  | PortOut port value :: rest => (port, value) :: outputs rest
  | _ :: rest => outputs rest
  end.

(** How many of the answers show the DSP ready for a write (bit 7 clear). *)
Definition ready_count (answers : list Z) : nat :=
  length (List.filter (fun v => negb (bit7 (to_uchar v))) answers).

(** The answers left once one [dsp_write] has found the DSP ready: the call
    reads up to and including the first answer with bit 7 clear.  [None]
    when the answers run out first. *)
Fixpoint skip_busy (answers : list Z) : option (list Z) :=
  match answers with
  | [] => None
  | v :: rest => if bit7 (to_uchar v) then skip_busy rest else Some rest
  end.

(** The answers left after [n] calls of [dsp_write]. *)
Fixpoint answers_after_writes (n : nat) (answers : list Z) : option (list Z) :=
  match n with
  | O => Some answers
  | S n' =>
      match skip_busy answers with
      | None => None
      | Some rest => answers_after_writes n' rest
      end
  end.

(** What one [dsp_read] gets from the answers to come: it polls until an
    answer has bit 7 set, and the answer after that one is the data byte.
    The result is the byte and the answers left, [None] when the answers
    run out first. *)
Fixpoint answer_read (answers : list Z) : option (Z * list Z) :=
  match answers with
  | [] => None
  | v :: rest =>
      if bit7 (to_uchar v)
      then match rest with
           | [] => None
           | data :: rest' => Some (to_uchar data, rest')
           end
      else answer_read rest
  end.

(** The ports [handle_irq] reads after its command: the status port, and
    the 16-bit acknowledge port from DSP version 4 on. *)
Definition acknowledge_reads (m_major_version : Z) : nat :=
  if 4 <=? m_major_version then 2%nat else 1%nat.

(** ** libcore: the timers of EventLoop.cpp *)

(** [struct timeval].  Its fields are signed; the sums below are taken in
    [Z], a signed overflow having no defined result in C++. *)
Record timeval : Set := mk_timeval { tv_sec : Z; tv_usec : Z }.

(** What the timer code asks of a [Core::Object], whose class is not among
    the sources: which object it is and the answer of
    [is_visible_for_timer_purposes()] at the time of the call. *)
Record Object : Set := mkObject {
  object_id : Z;
  is_visible_for_timer_purposes : bool
}.

Inductive TimerShouldFireWhenNotVisible : Set := No | Yes.

(** [struct EventLoopTimer], EventLoop.cpp lines 42-52.  [owner] is what
    [owner.strong_ref()] gives: [None] when the object is gone. *)
Record EventLoopTimer : Set := mkEventLoopTimer {
  timer_id : Z;
  interval : Z;
  fire_time : timeval;
  should_reload : bool;
  fire_when_not_visible : TimerShouldFireWhenNotVisible;
  owner : option Object
}.

(** [EventLoopTimer::has_expired], EventLoop.cpp lines 696-699. *)
Definition has_expired (t : EventLoopTimer) (now : timeval) : bool :=
  (tv_sec now >? tv_sec (fire_time t)) ||
  ((tv_sec now =? tv_sec (fire_time t)) &&
   (tv_usec now >=? tv_usec (fire_time t))).

(** [EventLoopTimer::reload], EventLoop.cpp lines 701-706; [/] and [%] of C++
    truncate. *)
Definition reload (t : EventLoopTimer) (now : timeval) : EventLoopTimer :=
  mkEventLoopTimer (timer_id t) (interval t)
    (mk_timeval (tv_sec now + Z.quot (interval t) 1000)
                (tv_usec now + Z.rem (interval t) 1000 * 1000))
    (should_reload t) (fire_when_not_visible t) (owner t).

(** The test that makes both timer loops pass over a timer, EventLoop.cpp
    lines 664-665 and 714-715: it is not to fire while its owner, still
    there, is not visible. *)
Definition skipped_as_not_visible (t : EventLoopTimer) : bool :=
  match fire_when_not_visible t, owner t with
  | No, Some o => negb (is_visible_for_timer_purposes o)
  | _, _ => false
  end.

(** The comparison of [get_next_timer_expiration], EventLoop.cpp line 718. *)
Definition sooner (a b : timeval) : bool :=
  (tv_sec a <? tv_sec b) || ((tv_sec a =? tv_sec b) && (tv_usec a <? tv_usec b)).

(** [EventLoop::get_next_timer_expiration], EventLoop.cpp lines 708-722, over
    the timers of [s_timers] in the order the hash map hands them out. *)
Definition get_next_timer_expiration (s_timers : list EventLoopTimer)
  : option timeval :=
  fold_left
    (fun soonest t =>
       if skipped_as_not_visible t then soonest
       else
         match soonest with
         | None => Some (fire_time t)
         | Some s => if sooner (fire_time t) s then Some (fire_time t) else Some s
         end)
    s_timers None.

(** A queued [TimerEvent]: the receiver and the timer's id. *)
Record TimerEvent : Set := mkTimerEvent { receiver : Z; fired_timer_id : Z }.

(** The timer loop of [EventLoop::wait_for_event], EventLoop.cpp lines
    659-679, over the timers in iteration order: the timers and the event
    queue afterwards, [None] for [VERIFY_NOT_REACHED]. *)
Fixpoint fire_timers (now : timeval) (s_timers : list EventLoopTimer)
  (m_queued_events : list TimerEvent)
  : option (list EventLoopTimer * list TimerEvent) :=
  match s_timers with
  | [] => Some ([], m_queued_events)
  | timer :: rest =>
      if negb (has_expired timer now) || skipped_as_not_visible timer then
        match fire_timers now rest m_queued_events with
        | Some (rest', queue) => Some (timer :: rest', queue)
        | None => None
        end
      else
        let queue :=
          match owner timer with
          | Some o => m_queued_events ++ [mkTimerEvent (object_id o) (timer_id timer)]
          | None => m_queued_events
          end in
        if should_reload timer then
          match fire_timers now rest queue with
          | Some (rest', queue') => Some (reload timer now :: rest', queue')
          | None => None
          end
        else None
  end.

(** The instant a [timeval] stands for, in microseconds. *)
Definition micros (t : timeval) : Z := tv_sec t * 1000000 + tv_usec t.

(** A [timeval] as the clock gives it. *)
Definition normalized (t : timeval) : Prop := 0 <= tv_usec t < 1000000.

(** A timer that the loop of [wait_for_event] fires at [now]: expired and not
    passed over. *)
Definition due (now : timeval) (t : EventLoopTimer) : bool :=
  has_expired t now && negb (skipped_as_not_visible t).

(** The event a fired timer posts: none when its owner is gone. *)
Definition timer_events (t : EventLoopTimer) : list TimerEvent :=
  match owner t with
  | Some o => [mkTimerEvent (object_id o) (timer_id t)]
  | None => []
  end.

(** ** libcore: the signal handlers of EventLoop.cpp *)

(** A [Function<void(int)>]: [None] is the null function, [Some f] the
    callable named [f]. *)
Abbreviation Function := (option Z) (only parsing).

(** [class SignalHandlers], EventLoop.cpp lines 66-106, without the saved
    original handler of the signal. *)
Record SignalHandlers : Type := mkSignalHandlers {
  m_signo : Z;
  m_handlers : gmap Z Function;
  m_handlers_pending : gmap Z Function;
  m_calling_handlers : bool
}.

(** [SignalHandlers::is_empty], EventLoop.cpp lines 78-87. *)
Definition is_empty (sh : SignalHandlers) : bool :=
  if m_calling_handlers sh
     && existsb (fun handler => bool_decide (is_Some handler.2))
          (map_to_list (m_handlers_pending sh))
  then false
  else bool_decide (m_handlers sh = ∅).

(** [SignalHandlers::have], EventLoop.cpp lines 89-99. *)
Definition have (sh : SignalHandlers) (handler_id : Z) : bool :=
  let contained := bool_decide (is_Some (m_handlers sh !! handler_id)) in
  if m_calling_handlers sh then
    match m_handlers_pending sh !! handler_id with
    | Some None => false
    | _ => contained
    end
  else contained.

(** [SignalHandlers::add], EventLoop.cpp lines 452-460.  The counter
    [next_signal_id] of [SignalHandlersInfo] is passed in and handed back
    with the id; it is counted in [Z], the increment of an [int] at its
    maximum having no defined result. *)
Definition add (sh : SignalHandlers) (handler : Function) (next_signal_id : Z)
  : Z * SignalHandlers * Z :=
  let id := next_signal_id + 1 in
  let sh' :=
    if m_calling_handlers sh
    then mkSignalHandlers (m_signo sh) (m_handlers sh)
           (<[id := handler]> (m_handlers_pending sh)) (m_calling_handlers sh)
    else mkSignalHandlers (m_signo sh) (<[id := handler]> (m_handlers sh))
           (m_handlers_pending sh) (m_calling_handlers sh) in
  (id, sh', id).

(** [SignalHandlers::remove], EventLoop.cpp lines 462-482; [None] for the
    failed [VERIFY]. *)
Definition remove (sh : SignalHandlers) (handler_id : Z)
  : option (bool * SignalHandlers) :=
  if handler_id =? 0 then None
  else if m_calling_handlers sh then
    let mark :=
      mkSignalHandlers (m_signo sh) (m_handlers sh)
        (<[handler_id := None]> (m_handlers_pending sh)) (m_calling_handlers sh) in
    match m_handlers sh !! handler_id with
    | Some _ => Some (true, mark)
    | None =>
        match m_handlers_pending sh !! handler_id with
        | Some None => Some (false, sh)
        | Some (Some _) => Some (true, mark)
        | None => Some (false, sh)
        end
    end
  else
    Some (bool_decide (is_Some (m_handlers sh !! handler_id)),
          mkSignalHandlers (m_signo sh) (delete handler_id (m_handlers sh))
            (m_handlers_pending sh) (m_calling_handlers sh)).

(** The loop over [m_handlers_pending] that ends [SignalHandlers::dispatch],
    EventLoop.cpp lines 440-447, over the pending entries in the order the
    hash map hands them out; [None] for the failed [VERIFY]. *)
Fixpoint apply_pending (entries : list (Z * Function)) (handlers : gmap Z Function)
  : option (gmap Z Function) :=
  match entries with
  | [] => Some handlers
  | (key, value) :: rest =>
      match value with
      | Some _ =>
          match handlers !! key with
          | None => apply_pending rest (<[key := value]> handlers)
          | Some _ => None
          end
      | None => apply_pending rest (delete key handlers)
      end
  end.

(** What a handler called by [dispatch] does to the [SignalHandlers] it is
    called from. *)
Inductive HandlerCall : Set :=
| CallAdd (handler : Function)
| CallRemove (handler_id : Z).

(** The calls in order, results dropped; [None] when one fails a [VERIFY]. *)
Fixpoint run_calls (calls : list HandlerCall) (sh : SignalHandlers)
  (next_signal_id : Z) : option (SignalHandlers * Z) :=
  match calls with
  | [] => Some (sh, next_signal_id)
  | CallAdd handler :: rest =>
      let '(_, sh', next') := add sh handler next_signal_id in
      run_calls rest sh' next'
  | CallRemove handler_id :: rest =>
      match remove sh handler_id with
      | Some (_, sh') => run_calls rest sh' next_signal_id
      | None => None
      end
  end.

(** [SignalHandlers::dispatch], EventLoop.cpp lines 433-450.  The handlers
    themselves are outside this code: [calls] is what they do, between them,
    to this object while they run, and [traverse] is the order in which a
    hash map hands out its entries. *)
Definition dispatch (traverse : gmap Z Function -> list (Z * Function))
  (calls : list HandlerCall) (sh : SignalHandlers) (next_signal_id : Z)
  : option (SignalHandlers * Z) :=
  let old := m_calling_handlers sh in
  let calling :=
    mkSignalHandlers (m_signo sh) (m_handlers sh) (m_handlers_pending sh) true in
  match run_calls calls calling next_signal_id with
  | None => None
  | Some (sh', next') =>
      if bool_decide (m_handlers_pending sh' = ∅)
      then Some (mkSignalHandlers (m_signo sh') (m_handlers sh')
                   (m_handlers_pending sh') old, next')
      else
        match apply_pending (traverse (m_handlers_pending sh')) (m_handlers sh') with
        | None => None
        | Some handlers => Some (mkSignalHandlers (m_signo sh') handlers ∅ old, next')
        end
  end.

(** What looking up [id] in [m_handlers] gives once the pending entries have
    been applied: a pending handler, nothing for a pending removal, the
    handler there was otherwise. *)
Definition deferred (handlers pending : gmap Z Function) (id : Z) : option Function :=
  match pending !! id with
  | Some (Some f) => Some (Some f)
  | Some None => None
  | None => handlers !! id
  end.

(** Calls that add no null function and remove no id 0. *)
Definition well_formed_call (call : HandlerCall) : Prop :=
  match call with
  | CallAdd handler => is_Some handler
  | CallRemove handler_id => handler_id <> 0
  end.

(** ** libjs: the instruction buffer of BasicBlock.h *)

(** The members of [BasicBlock] that [can_grow] reads, BasicBlock.h lines
    73-74; both are [size_t]. *)
Record BasicBlock : Set := mkBasicBlock {
  m_buffer_capacity : Z;
  m_buffer_size : Z
}.

(** [BasicBlock::can_grow], BasicBlock.h line 61; the sum is a [size_t]. *)
Definition can_grow (arch : Arch) (block : BasicBlock) (additional_size : Z) : bool :=
  wrap arch (m_buffer_size block + additional_size) <=? m_buffer_capacity block.

(** ** libc: getopt.c *)

(** [getopt_long], getopt.c lines 16-19, with the number of nested calls it
    may still make: the body is one call of itself, so a result, if there
    were one, would be that call's.  Pointers are [None] when null. *)
Fixpoint getopt_long (calls_left : nat) (argc : Z) (argv : list string)
  (optstring : string) (longopts : option Z) (longindex : option Z) : option Z :=
  match calls_left with
  | O => None
  | S calls_left' => getopt_long calls_left' argc argv optstring None None
  end.

(** [getopt], getopt.c lines 11-14. *)
Definition getopt (calls_left : nat) (argc : Z) (argv : list string)
  (optstring : string) : option Z :=
  getopt_long calls_left argc argv optstring None None.

(** ** libcore: the event types of FileWatcher.h *)

(** [FileWatcherEvent::Type], FileWatcher.h lines 24-31.  The bitwise
    operators declared for the enum make every combination of the flags a
    value of the type, so a value is the integer under it. *)
Definition Invalid : Z := 0.
Definition MetadataModified : Z := Z.shiftl 1 0.
Definition ContentModified : Z := Z.shiftl 1 1.
Definition Deleted : Z := Z.shiftl 1 2.
Definition ChildCreated : Z := Z.shiftl 1 3.
Definition ChildDeleted : Z := Z.shiftl 1 4.

(** [Formatter<Core::FileWatcherEvent::Type>::format], FileWatcher.h lines
    97-121: the builder's text afterwards, [None] for [VERIFY_NOT_REACHED]. *)
Definition format_type (builder : string) (value : Z) : option string :=
  let type :=
    if value =? ChildCreated then Some "ChildCreated"%string
    else if value =? ChildDeleted then Some "ChildDeleted"%string
    else if value =? Deleted then Some "Deleted"%string
    else if value =? ContentModified then Some "ContentModified"%string
    else if value =? MetadataModified then Some "MetadataModified"%string
    else None in
  match type with
  | Some type => Some (String.append builder type)
  | None => None
  end.

(** * Part II: lemmas and theorems *)

(** Linear arithmetic with division and remainder by constants. *)
Ltac page_lia :=
  unfold page_aligned, PAGE_SIZE in *;
  Z.to_euclidean_division_equations; lia.

(** Closes [range_ok] on a range given by numerals. *)
Ltac concrete_range_ok :=
  unfold range_ok; simpl; repeat split; try lia; try reflexivity.

(** ** Arithmetic of words and pages *)


Lemma ptr_modulus_pages arch :
  exists k, 0 < k /\ ptr_modulus arch = PAGE_SIZE * k.
Proof.
  destruct arch.
  - exists 4503599627370496. split; [lia | reflexivity].
  - exists 1048576. split; [lia | reflexivity].
Qed.

Lemma wrap_small arch z : is_word arch z -> wrap arch z = z.
Proof. intros H. apply Z.mod_small. exact H. Qed.

Lemma end_ok arch r : range_ok arch r -> end_ arch r = base r + size r.
Proof.
  intros (Hb & Hs & He). apply wrap_small. unfold is_word. lia.
Qed.

Lemma range_eqb_eq r1 r2 : range_eqb r1 r2 = true <-> r1 = r2.
Proof.
  unfold range_eqb. rewrite andb_true_iff, !Z.eqb_eq.
  destruct r1, r2; simpl. split.
  - intros [-> ->]. reflexivity.
  - intros H. injection H. auto.
Qed.

Lemma range_eqb_neq r1 r2 : range_eqb r1 r2 = false <-> r1 <> r2.
Proof.
  rewrite <- range_eqb_eq. destruct (range_eqb r1 r2); split; congruence.
Qed.

Lemma round_up_bounds x :
  x <= PAGE_SIZE * ((x + (PAGE_SIZE - 1)) / PAGE_SIZE) < x + PAGE_SIZE.
Proof. page_lia. Qed.

Lemma page_base_bounds x : page_base x <= x < page_base x + PAGE_SIZE.
Proof. unfold page_base. page_lia. Qed.

Lemma page_aligned_mul k : page_aligned (PAGE_SIZE * k).
Proof.
  unfold page_aligned. rewrite Z.mul_comm. apply Z.mod_mul. discriminate.
Qed.

Lemma page_aligned_iff x : page_aligned x <-> exists k, x = PAGE_SIZE * k.
Proof.
  split.
  - intros H. exists (x / PAGE_SIZE). page_lia.
  - intros [k ->]. apply page_aligned_mul.
Qed.

Lemma would_wrap_iff arch x :
  page_round_up_would_wrap arch x = true <-> ptr_modulus arch - PAGE_SIZE < x.
Proof.
  unfold page_round_up_would_wrap. rewrite Z.leb_le.
  destruct (ptr_modulus_pages arch) as (k & Hk & ->). page_lia.
Qed.

Lemma would_wrap_false_iff arch x :
  page_round_up_would_wrap arch x = false <-> x <= ptr_modulus arch - PAGE_SIZE.
Proof.
  pose proof (would_wrap_iff arch x) as H.
  destruct (page_round_up_would_wrap arch x); split; intros; try lia;
    try congruence.
Qed.

Lemma wrap_add arch a b :
  is_word arch a -> is_word arch b ->
  (a + b < ptr_modulus arch /\ wrap arch (a + b) = a + b) \/
  (ptr_modulus arch <= a + b /\ wrap arch (a + b) = a + b - ptr_modulus arch).
Proof.
  unfold is_word, wrap. intros Ha Hb.
  destruct (Z_lt_ge_dec (a + b) (ptr_modulus arch)) as [Hlt | Hge].
  - left. split; [exact Hlt |]. apply Z.mod_small. lia.
  - right. split; [lia |]. symmetry.
    apply (Z.mod_unique_pos _ _ 1). all: lia.
Qed.

Lemma page_round_up_small arch x :
  0 <= x -> page_round_up_would_wrap arch x = false ->
  page_round_up arch x = PAGE_SIZE * ((x + (PAGE_SIZE - 1)) / PAGE_SIZE).
Proof.
  intros Hx Hw. apply would_wrap_false_iff in Hw.
  unfold page_round_up. apply wrap_small. unfold is_word.
  pose proof (round_up_bounds x) as Hr.
  destruct (ptr_modulus_pages arch) as (k & Hk & Hm). rewrite Hm in *.
  page_lia.
Qed.

(** ** Properties of [carve] *)

(** C6. [carve] fails its [VERIFY] exactly when the size of [taken] is not a
    multiple of the page size; with a page-aligned size it always returns a
    vector of parts. *)
Theorem carve_verify_iff_misaligned arch (self taken : VirtualRange) :
  (carve arch self taken = None <-> ~ page_aligned (size taken)) /\
  (page_aligned (size taken) -> exists parts, carve arch self taken = Some parts).
Proof.
  unfold carve, page_aligned.
  destruct (Z.eqb_spec (size taken mod PAGE_SIZE) 0) as [E | E]; simpl.
  - split.
    + split; [| intros H; contradiction].
      destruct (range_eqb taken self); discriminate.
    + intros _. destruct (range_eqb taken self); eauto.
  - split; [tauto | intros H; contradiction].
Qed.

(** ** Properties of [expand_to_page_boundaries] *)

(** C10. For a page-aligned address and size 0 the validated construction
    succeeds with the empty range at that address. *)
Theorem expand_to_page_boundaries_empty arch (address : Z) :
  is_word arch address -> page_aligned address ->
  expand_to_page_boundaries arch address 0 = KValue (mkRange address 0).
Proof.
  intros Hw Ha. unfold expand_to_page_boundaries.
  assert (page_round_up_would_wrap arch 0 = false) as ->.
  { apply would_wrap_false_iff.
    destruct (ptr_modulus_pages arch) as (k & Hk & ->). page_lia. }
  rewrite Z.add_0_r, (wrap_small arch address Hw).
  rewrite (proj2 (Z.ltb_ge address address)) by lia.
  assert (page_round_up_would_wrap arch address = false) as Hnw.
  { apply would_wrap_false_iff. unfold is_word in Hw.
    destruct (ptr_modulus_pages arch) as (k & Hk & Hm). rewrite Hm in *.
    page_lia. }
  rewrite Hnw. rewrite page_round_up_small by (unfold is_word in Hw; lia || exact Hnw).
  assert (page_base address = address) as -> by (unfold page_base; page_lia).
  assert (PAGE_SIZE * ((address + (PAGE_SIZE - 1)) / PAGE_SIZE) = address) as ->
    by page_lia.
  rewrite Z.sub_diag. reflexivity.
Qed.

Lemma expand_to_page_boundaries_empty_witness :
  expand_to_page_boundaries I386 8192 0 = KValue (mkRange 8192 0).
Proof.
  apply expand_to_page_boundaries_empty.
  - unfold is_word. vm_compute. split; [discriminate | reflexivity].
  - reflexivity.
Defined.

(** The three guards of [expand_to_page_boundaries] read as arithmetic: the
    first one (on the size alone) never decides, since a size that cannot be
    rounded up makes the sum wrap or the end impossible to round up. *)
Lemma expand_guards arch address sz :
  is_word arch address -> is_word arch sz ->
  expand_to_page_boundaries arch address sz =
    if ptr_modulus arch - PAGE_SIZE <? address + sz then KError EINVAL
    else KValue (mkRange (page_base address)
                   (PAGE_SIZE * ((address + sz + (PAGE_SIZE - 1)) / PAGE_SIZE)
                    - page_base address)).
Proof.
  intros Ha Hs. unfold expand_to_page_boundaries.
  pose proof (would_wrap_iff arch sz) as Hw1.
  pose proof (would_wrap_false_iff arch sz) as Hf1.
  destruct (wrap_add arch address sz Ha Hs) as [[Hlt Hwr] | [Hge Hwr]];
    rewrite Hwr.
  - pose proof (would_wrap_iff arch (address + sz)) as Hw2.
    pose proof (would_wrap_false_iff arch (address + sz)) as Hf2.
    unfold is_word in *.
    destruct (page_round_up_would_wrap arch sz) eqn:E1.
    + rewrite (proj2 (Z.ltb_lt _ _)); [reflexivity |].
      pose proof (proj1 Hw1 eq_refl). lia.
    + rewrite (proj2 (Z.ltb_ge (address + sz) address)) by lia.
      destruct (page_round_up_would_wrap arch (address + sz)) eqn:E2.
      * rewrite (proj2 (Z.ltb_lt _ _)); [reflexivity |].
        exact (proj1 Hw2 eq_refl).
      * pose proof (proj1 Hf2 eq_refl) as Hle.
        rewrite (proj2 (Z.ltb_ge _ _)) by lia.
        rewrite page_round_up_small by (lia || exact E2).
        f_equal. f_equal. apply wrap_small. unfold is_word.
        pose proof (page_base_bounds address).
        pose proof (round_up_bounds (address + sz)).
        assert (0 <= page_base address) by (unfold page_base; page_lia).
        destruct (ptr_modulus_pages arch) as (k & Hk & Hm). rewrite Hm in *.
        page_lia.
  - unfold is_word in *.
    assert (PAGE_SIZE <= ptr_modulus arch)
      by (destruct (ptr_modulus_pages arch) as (k & Hk & ->); page_lia).
    rewrite (proj2 (Z.ltb_lt (ptr_modulus arch - PAGE_SIZE) _)) by page_lia.
    destruct (page_round_up_would_wrap arch sz); [reflexivity |].
    rewrite (proj2 (Z.ltb_lt _ address)) by lia. reflexivity.
Qed.

(** C4. [expand_to_page_boundaries] answers [EINVAL] exactly when
    [address + size] wraps the address space or rounding the end up to a page
    boundary would wrap; in every other case it returns a range. *)
Theorem expand_to_page_boundaries_error_iff arch (address sz : Z) :
  is_word arch address -> is_word arch sz ->
  (expand_to_page_boundaries arch address sz = KError EINVAL <->
     ptr_modulus arch <= address + sz \/
     page_round_up_would_wrap arch (address + sz) = true) /\
  (~ (ptr_modulus arch <= address + sz \/
      page_round_up_would_wrap arch (address + sz) = true) ->
   exists r, expand_to_page_boundaries arch address sz = KValue r).
Proof.
  intros Ha Hs. rewrite (expand_guards arch address sz Ha Hs).
  rewrite would_wrap_iff.
  assert (0 < PAGE_SIZE) by reflexivity.
  destruct (Z.ltb_spec (ptr_modulus arch - PAGE_SIZE) (address + sz)) as [L | L].
  - split; [split; [intros _; right; exact L | reflexivity] |].
    intros N. exfalso. apply N. right. exact L.
  - split; [split; [discriminate | intros [G | G]; lia] |].
    intros _. eauto.
Qed.

Lemma expand_to_page_boundaries_error_iff_witness :
  (expand_to_page_boundaries I386 4294963200 4097 = KError EINVAL <->
     ptr_modulus I386 <= 4294963200 + 4097 \/
     page_round_up_would_wrap I386 (4294963200 + 4097) = true) /\
  (~ (ptr_modulus I386 <= 4294963200 + 4097 \/
      page_round_up_would_wrap I386 (4294963200 + 4097) = true) ->
   exists r, expand_to_page_boundaries I386 4294963200 4097 = KValue r).
Proof.
  apply expand_to_page_boundaries_error_iff.
  - unfold is_word. vm_compute. split; [discriminate | reflexivity].
  - unfold is_word. vm_compute. split; [discriminate | reflexivity].
Defined.

(** C3. When neither [address + size] nor its rounding up overflows,
    [expand_to_page_boundaries] returns a page-aligned range that starts at or
    before [address], ends at or after [address + size], and is no longer
    than any other page-aligned range with these two bounds; for a non-empty
    interval these are the page-aligned ranges that hold all its addresses. *)
Theorem expand_to_page_boundaries_minimal arch (address sz : Z) :
  is_word arch address -> is_word arch sz ->
  address + sz < ptr_modulus arch ->
  page_round_up_would_wrap arch (address + sz) = false ->
  exists r,
    expand_to_page_boundaries arch address sz = KValue r /\
    range_ok arch r /\
    page_aligned (base r) /\ page_aligned (size r) /\
    base r <= address /\ address + sz <= base r + size r /\
    (forall r' : VirtualRange,
       page_aligned (base r') -> page_aligned (size r') ->
       base r' <= address -> address + sz <= base r' + size r' ->
       size r <= size r') /\
    (0 < sz ->
     forall r' : VirtualRange,
       page_aligned (base r') -> page_aligned (size r') ->
       (forall x, address <= x < address + sz -> in_range r' x) ->
       size r <= size r').
Proof.
  intros Ha Hs Hsum Hw. rewrite (expand_guards arch address sz Ha Hs).
  apply would_wrap_false_iff in Hw.
  rewrite (proj2 (Z.ltb_ge _ _)) by lia.
  eexists. split; [reflexivity |]. unfold range_ok; simpl.
  pose proof (page_base_bounds address) as Hb.
  pose proof (round_up_bounds (address + sz)) as Hr.
  unfold is_word in *.
  assert (0 <= page_base address) as Hb0 by (unfold page_base; page_lia).
  assert (page_aligned (page_base address)) as Hpa by apply page_aligned_mul.
  set (e := PAGE_SIZE * ((address + sz + (PAGE_SIZE - 1)) / PAGE_SIZE)) in *.
  assert (page_aligned e) as Hea by apply page_aligned_mul.
  assert (e <= ptr_modulus arch - PAGE_SIZE) as Hle.
  { destruct (ptr_modulus_pages arch) as (k & Hk & Hm). rewrite Hm in *.
    subst e. page_lia. }
  assert (0 < PAGE_SIZE) as Hp by reflexivity.
  assert (forall r' : VirtualRange,
            page_aligned (base r') -> page_aligned (size r') ->
            base r' <= address -> address + sz <= base r' + size r' ->
            e - page_base address <= size r') as Hmin.
  { intros r' Hb' Hs' Hlo Hhi.
    apply page_aligned_iff in Hb' as [i Hi]. apply page_aligned_iff in Hs' as [j Hj].
    subst e. unfold page_base. rewrite Hi, Hj in *. page_lia. }
  split; [lia |]. split; [exact Hpa |]. split.
  { apply page_aligned_iff in Hpa as [i Hi]. apply page_aligned_iff in Hea as [j Hj].
    apply page_aligned_iff. exists (j - i). lia. }
  split; [lia |]. split; [lia |]. split; [exact Hmin |].
  intros Hpos r' Hb' Hs' Hall. apply Hmin; try assumption.
  - pose proof (Hall address ltac:(lia)) as H1. unfold in_range in H1. lia.
  - pose proof (Hall (address + sz - 1) ltac:(lia)) as H2. unfold in_range in H2. lia.
Qed.

Lemma expand_to_page_boundaries_minimal_witness :
  exists r,
    expand_to_page_boundaries I386 4097 8190 = KValue r /\
    base r = 4096 /\ size r = 8192 /\
    forall r' : VirtualRange,
      page_aligned (base r') -> page_aligned (size r') ->
      base r' <= 4097 -> 4097 + 8190 <= base r' + size r' ->
      8192 <= size r'.
Proof.
  destruct (expand_to_page_boundaries_minimal I386 4097 8190)
    as (r & Hr & _ & _ & _ & _ & _ & Hmin & _).
  - unfold is_word. vm_compute. split; [discriminate | reflexivity].
  - unfold is_word. vm_compute. split; [discriminate | reflexivity].
  - reflexivity.
  - reflexivity.
  - exists r. vm_compute in Hr. injection Hr as <-. simpl in *.
    repeat split; try reflexivity. exact Hmin.
Defined.

(** X1. The guard on the size alone never decides the outcome of
    [expand_to_page_boundaries]: the two guards on [address + size] give the
    same answer without it. *)
Theorem expand_to_page_boundaries_size_guard_redundant arch (address sz : Z) :
  is_word arch address -> is_word arch sz ->
  expand_to_page_boundaries arch address sz =
    if wrap arch (address + sz) <? address then KError EINVAL
    else if page_round_up_would_wrap arch (wrap arch (address + sz))
    then KError EINVAL
    else
      KValue (mkRange (page_base address)
                (wrap arch (page_round_up arch (wrap arch (address + sz))
                            - page_base address))).
Proof.
  intros Ha Hs. unfold expand_to_page_boundaries.
  destruct (page_round_up_would_wrap arch sz) eqn:E; [| reflexivity].
  apply would_wrap_iff in E.
  destruct (wrap_add arch address sz Ha Hs) as [[Hlt ->] | [Hge ->]];
    unfold is_word in *.
  - rewrite (proj2 (Z.ltb_ge (address + sz) address)) by lia.
    rewrite (proj2 (would_wrap_iff arch (address + sz))) by lia. reflexivity.
  - rewrite (proj2 (Z.ltb_lt _ address)) by lia. reflexivity.
Qed.

Lemma expand_to_page_boundaries_size_guard_redundant_witness :
  expand_to_page_boundaries I386 4096 4294967295 = KError EINVAL.
Proof.
  rewrite expand_to_page_boundaries_size_guard_redundant.
  - reflexivity.
  - unfold is_word. vm_compute. split; [discriminate | reflexivity].
  - unfold is_word. vm_compute. split; [discriminate | reflexivity].
Defined.

(** X2. Expanding the range that [expand_to_page_boundaries] returned gives
    the same range again. *)
Theorem expand_to_page_boundaries_idempotent arch (address sz : Z) (r : VirtualRange) :
  is_word arch address -> is_word arch sz ->
  expand_to_page_boundaries arch address sz = KValue r ->
  expand_to_page_boundaries arch (base r) (size r) = KValue r.
Proof.
  intros Ha Hs. rewrite (expand_guards arch address sz Ha Hs).
  destruct (Z.ltb_spec (ptr_modulus arch - PAGE_SIZE) (address + sz)) as [L | L];
    [discriminate |].
  intros H. injection H as <-. simpl.
  pose proof (page_base_bounds address) as Hb.
  pose proof (round_up_bounds (address + sz)) as Hr.
  unfold is_word in *.
  assert (0 <= page_base address) as Hb0 by (unfold page_base; page_lia).
  set (e := PAGE_SIZE * ((address + sz + (PAGE_SIZE - 1)) / PAGE_SIZE)) in *.
  assert (e <= ptr_modulus arch - PAGE_SIZE) as Hle.
  { destruct (ptr_modulus_pages arch) as (k & Hk & Hm). rewrite Hm in *.
    subst e. page_lia. }
  assert (0 < PAGE_SIZE) as Hp by reflexivity.
  rewrite expand_guards by (unfold is_word; lia).
  replace (page_base address + (e - page_base address)) with e by lia.
  rewrite (proj2 (Z.ltb_ge _ _)) by lia.
  assert (page_base (page_base address) = page_base address) as ->
    by (unfold page_base; page_lia).
  assert (PAGE_SIZE * ((e + (PAGE_SIZE - 1)) / PAGE_SIZE) = e) as ->
    by (subst e; page_lia).
  reflexivity.
Qed.

Lemma expand_to_page_boundaries_idempotent_witness :
  expand_to_page_boundaries I386 4096 8192 = KValue (mkRange 4096 8192).
Proof.
  apply (expand_to_page_boundaries_idempotent I386 4097 8190 (mkRange 4096 8192)).
  - unfold is_word. vm_compute. split; [discriminate | reflexivity].
  - unfold is_word. vm_compute. split; [discriminate | reflexivity].
  - reflexivity.
Defined.

(** ** [carve] on a contained range *)

Lemma range_neq_fields (r1 r2 : VirtualRange) :
  r1 <> r2 -> base r1 <> base r2 \/ size r1 <> size r2.
Proof.
  intros N. destruct (Z.eq_dec (base r1) (base r2)) as [Eb | Nb]; [| auto].
  destruct (Z.eq_dec (size r1) (size r2)) as [Es | Ns]; [| auto].
  exfalso. apply N. destruct r1, r2; simpl in *. congruence.
Qed.

(** C1, amended.  For ranges [A] and [B] whose ends are themselves addresses
    ([base + size] does not leave the address space), with [B] inside [A]
    and the size of [B] a multiple of the page size, [A.carve(B)] returns
    the leftover of [A]: the parts together with [B] cover exactly [A], they
    are disjoint from [B] and from each other, and there are 0 of them iff
    [B = A], 1 iff [B] touches exactly one edge of [A], 2 iff [B] is
    strictly interior. *)
Theorem carve_leftover arch (A B : VirtualRange) :
  range_ok arch A -> range_ok arch B -> subrange B A ->
  page_aligned (size B) ->
  exists parts,
    carve arch A B = Some parts /\
    Forall (fun p => range_ok arch p /\ 0 < size p) parts /\
    (forall x, in_range A x <-> in_range B x \/ Exists (fun p => in_range p x) parts) /\
    Forall (fun p => disjoint p B) parts /\
    ForallOrdPairs disjoint parts /\
    (length parts = 0%nat <-> B = A) /\
    (length parts = 1%nat <-> touches_one_edge A B) /\
    (length parts = 2%nat <-> strictly_interior A B).
Proof.
  intros HA HB [Hlo Hhi] Hal. unfold carve.
  unfold page_aligned in Hal. rewrite Hal. simpl.
  destruct (range_eqb B A) eqn:E.
  - apply range_eqb_eq in E. subst B. exists []. split; [reflexivity |].
    unfold touches_one_edge, strictly_interior. simpl.
    refine (conj _ (conj _ (conj _ (conj _ (conj _ (conj _ _)))))).
    + constructor.
    + intros x. split; [tauto | intros [H | H]; [exact H | inversion H]].
    + constructor.
    + constructor.
    + tauto.
    + split; [discriminate | lia].
    + split; [discriminate | lia].
  - apply range_eqb_neq in E. apply range_neq_fields in E.
    rewrite (end_ok arch A HA), (end_ok arch B HB).
    destruct HA as (A0 & A1 & A2), HB as (B0 & B1 & B2).
    unfold touches_one_edge, strictly_interior, disjoint, in_range.
    destruct (Z.ltb_spec (base A) (base B)) as [L | L];
      destruct (Z.ltb_spec (base B + size B) (base A + size A)) as [R | R];
      simpl; eexists; (split; [reflexivity |]);
      rewrite ?wrap_small by (unfold is_word; lia);
      refine (conj _ (conj _ (conj _ (conj _ (conj _ (conj _ _)))))).
      all: try (split; [try discriminate; lia | try (intros ->); try lia]).
      all: repeat (apply Forall_cons; [unfold range_ok; simpl; try lia |]);
        try apply Forall_nil.
      all: try (repeat constructor; simpl; lia).
      all: intros x; rewrite ?Exists_cons, Exists_nil; simpl; lia.
Qed.

Lemma carve_leftover_witness :
  exists parts,
    carve I386 (mkRange 4096 16384) (mkRange 8192 4096) = Some parts /\
    length parts = 2%nat.
Proof.
  destruct (carve_leftover I386 (mkRange 4096 16384) (mkRange 8192 4096))
    as (parts & Hc & _ & _ & _ & _ & _ & _ & H2).
  - concrete_range_ok.
  - concrete_range_ok.
  - unfold subrange. simpl. lia.
  - reflexivity.
  - exists parts. split; [exact Hc |]. apply H2.
    unfold strictly_interior. simpl. lia.
Defined.

(** C1 as it is written fails at the top of the address space.  The range
    [0xFFFFE000, 0x100000000) of the 32-bit target ends where the address
    space ends, so [end()] gives 0 for it; carving its first page out of it
    appends no part, although the page is not the whole range and the second
    page is left over. *)
Lemma carve_at_top_of_address_space_loses_part :
  is_word I386 (base (mkRange 4294959104 8192)) /\
  is_word I386 (size (mkRange 4294959104 8192)) /\
  subrange (mkRange 4294959104 4096) (mkRange 4294959104 8192) /\
  page_aligned (size (mkRange 4294959104 4096)) /\
  mkRange 4294959104 4096 <> mkRange 4294959104 8192 /\
  carve I386 (mkRange 4294959104 8192) (mkRange 4294959104 4096) = Some [] /\
  in_range (mkRange 4294959104 8192) 4294963200 /\
  ~ in_range (mkRange 4294959104 4096) 4294963200.
Proof.
  unfold is_word, subrange, page_aligned, in_range. simpl.
  refine (conj _ (conj _ (conj _ (conj _ (conj _ (conj _ (conj _ _))))))).
  - split; [lia | reflexivity].
  - split; [lia | reflexivity].
  - lia.
  - reflexivity.
  - discriminate.
  - reflexivity.
  - lia.
  - lia.
Qed.

(** ** Properties of [intersect] *)

Lemma overlap_iff (r1 r2 : VirtualRange) :
  overlap r1 r2 <->
  Z.max (base r1) (base r2) < Z.min (base r1 + size r1) (base r2 + size r2).
Proof.
  unfold overlap, in_range. split.
  - intros (x & H1 & H2). lia.
  - intros H. exists (Z.max (base r1) (base r2)). lia.
Qed.

(** C5, amended.  For ranges whose ends are themselves addresses
    ([base + size] does not leave the address space): when they overlap,
    [intersect] returns the range from the larger base to the smaller end,
    which lies inside both and is the range itself when the two are equal.
    Two equal ranges always give that range back, without the assertion
    being evaluated; two different ranges that do not overlap fail the
    [VERIFY]. *)
Theorem intersect_overlapping arch (A B : VirtualRange) :
  range_ok arch A -> range_ok arch B ->
  (overlap A B ->
   exists r,
     intersect arch A B = Some r /\
     base r = Z.max (base A) (base B) /\
     base r + size r = Z.min (base A + size A) (base B + size B) /\
     range_ok arch r /\ subrange r A /\ subrange r B /\
     (A = B -> r = A /\ r = B)) /\
  (A = B -> intersect arch A B = Some A) /\
  (A <> B -> ~ overlap A B -> intersect arch A B = None).
Proof.
  intros HA HB. unfold intersect.
  rewrite (end_ok arch A HA), (end_ok arch B HB).
  destruct HA as (A0 & A1 & A2), HB as (B0 & B1 & B2).
  rewrite overlap_iff.
  destruct (range_eqb A B) eqn:E.
  - apply range_eqb_eq in E. subst B.
    split; [| split; [reflexivity | congruence]].
    intros Ho. exists A. unfold subrange, range_ok. repeat split; lia.
  - apply range_eqb_neq in E.
    split; [| split; [congruence |]].
    + intros Ho. rewrite (proj2 (Z.ltb_lt _ _) Ho).
      eexists. split; [reflexivity |]. simpl.
      rewrite wrap_small by (unfold is_word; lia).
      unfold subrange, range_ok. simpl.
      repeat split; try lia. all: congruence.
    + intros _ No. rewrite (proj2 (Z.ltb_ge _ _)) by lia. reflexivity.
Qed.

Lemma intersect_overlapping_witness :
  (exists r,
     intersect I386 (mkRange 4096 8192) (mkRange 8192 8192) = Some r /\
     base r = 8192 /\ size r = 4096) /\
  intersect I386 (mkRange 4096 8192) (mkRange 16384 4096) = None.
Proof.
  destruct (intersect_overlapping I386 (mkRange 4096 8192) (mkRange 8192 8192))
    as (Ho & _ & _).
  1, 2: concrete_range_ok.
  destruct (intersect_overlapping I386 (mkRange 4096 8192) (mkRange 16384 4096))
    as (_ & _ & Hn).
  1, 2: concrete_range_ok.
  split.
  - destruct Ho as (r & Hr & Hb & He & _).
    + exists 8192. unfold in_range. simpl. lia.
    + exists r. simpl in Hb, He. repeat split; [exact Hr | lia | lia].
  - apply Hn; [discriminate |].
    intros (x & H1 & H2). unfold in_range in *. simpl in *. lia.
Defined.

(** C5 as it is written fails in two places.  The empty range
    [0x1000, 0x1000) overlaps nothing, not even itself, yet intersecting it
    with itself takes the early return and yields a value instead of failing
    the [VERIFY].  And the last page of the 32-bit address space,
    [0xFFFFF000, 0x100000000), lies inside the range
    [0xFFFFE000, 0x100000000), so the two overlap, yet [end()] gives 0 for
    both and intersecting them fails the [VERIFY]. *)
Lemma intersect_returns_on_empty_and_fails_at_top :
  (~ overlap (mkRange 4096 0) (mkRange 4096 0) /\
   intersect I386 (mkRange 4096 0) (mkRange 4096 0) = Some (mkRange 4096 0)) /\
  (is_word I386 4294963200 /\ is_word I386 4294959104 /\
   overlap (mkRange 4294963200 4096) (mkRange 4294959104 8192) /\
   intersect I386 (mkRange 4294963200 4096) (mkRange 4294959104 8192) = None).
Proof.
  split; [split | refine (conj _ (conj _ (conj _ _)))].
  - intros (x & H1 & _). unfold in_range in H1. simpl in H1. lia.
  - reflexivity.
  - unfold is_word. split; [lia | reflexivity].
  - unfold is_word. split; [lia | reflexivity].
  - exists 4294963200. unfold in_range. simpl. lia.
  - reflexivity.
Qed.

(** X3. [intersect] does not depend on the order of the two ranges. *)
Theorem intersect_comm arch (A B : VirtualRange) :
  intersect arch A B = intersect arch B A.
Proof.
  unfold intersect. destruct (range_eqb A B) eqn:E.
  - apply range_eqb_eq in E. subst B.
    rewrite (proj2 (range_eqb_eq A A) eq_refl). reflexivity.
  - assert (range_eqb B A = false) as ->.
    { apply range_eqb_neq. apply range_eqb_neq in E. congruence. }
    rewrite (Z.max_comm (base A)), (Z.min_comm (end_ arch A)). reflexivity.
Qed.

(** ** The allocator on a small extent *)

(** The spec's scenario: extent [0x1000, 0x5000), two one-page allocations,
    then both are returned in the order they were made. *)
Example allocator_scenario :
  let a0 := initialize_with_range 4096 16384 in
  exists a1 a2,
    allocate_anywhere I386 a0 4096 4096 = Some (a1, Some (mkRange 4096 4096)) /\
    allocate_anywhere I386 a1 4096 4096 = Some (a2, Some (mkRange 8192 4096)) /\
    m_available_ranges a2 = [mkRange 12288 8192] /\
    m_available_ranges (deallocate I386 a2 (mkRange 4096 4096)) =
      [mkRange 4096 4096; mkRange 12288 8192] /\
    m_available_ranges
      (deallocate I386 (deallocate I386 a2 (mkRange 4096 4096)) (mkRange 8192 4096)) =
      [mkRange 4096 16384].
Proof.
  eexists. eexists. split; [vm_compute; reflexivity |].
  split; [vm_compute; reflexivity |]. repeat split; vm_compute; reflexivity.
Qed.

(** ** Lists of spaced ranges *)


Lemma covered_nil x : covered [] x <-> False.
Proof. unfold covered. apply Exists_nil. Qed.

Lemma covered_cons r l x : covered (r :: l) x <-> in_range r x \/ covered l x.
Proof. unfold covered. apply Exists_cons. Qed.

Lemma covered_app l1 l2 x : covered (l1 ++ l2) x <-> covered l1 x \/ covered l2 x.
Proof. unfold covered. apply Exists_app. Qed.

Lemma covered_In l x : covered l x <-> exists r, In r l /\ in_range r x.
Proof. unfold covered. apply List.Exists_exists. Qed.

Lemma spaced_weaken lo lo' l hi :
  lo' <= lo -> spaced lo l hi -> spaced lo' l hi.
Proof.
  destruct l as [| f l]; simpl; [trivial |].
  intros Hle (H1 & H2 & H3 & H4). repeat split; try assumption. lia.
Qed.

Lemma spaced_In lo l hi f :
  spaced lo l hi -> In f l ->
  lo <= base f /\ 0 < size f /\ base f + size f <= hi.
Proof.
  revert lo. induction l as [| g l IH]; simpl; intros lo Hs Hin; [contradiction |].
  destruct Hs as (H1 & H2 & H3 & H4). destruct Hin as [-> | Hin].
  - auto.
  - destruct (IH _ H4 Hin) as (I1 & I2 & I3). repeat split; lia.
Qed.

Lemma spaced_covered lo l hi x : spaced lo l hi -> covered l x -> lo <= x < hi.
Proof.
  intros Hs Hc. apply covered_In in Hc as (f & Hin & Hx).
  destruct (spaced_In _ _ _ _ Hs Hin) as (H1 & H2 & H3).
  unfold in_range in Hx. lia.
Qed.




(** ** Containment and carving inside the allocator *)

Lemma contains_subrange arch (self r : VirtualRange) :
  range_ok arch self -> is_word arch (base r) -> is_word arch (size r) ->
  (contains arch self r = true <-> subrange r self).
Proof.
  intros Hs Hb Hz. unfold contains, subrange.
  rewrite (end_ok arch self Hs). destruct Hs as (S0 & S1 & S2).
  unfold end_. unfold is_word in *.
  destruct (wrap_add arch (base r) (size r) Hb Hz) as [[Hlt ->] | [Hge ->]].
  - rewrite (proj2 (Z.ltb_ge _ _)) by lia.
    rewrite andb_true_iff, !Z.leb_le. tauto.
  - rewrite (proj2 (Z.ltb_lt _ _)) by lia. split; [discriminate | lia].
Qed.

Lemma carve_shape arch (f r : VirtualRange) :
  range_ok arch f -> range_ok arch r -> subrange r f -> page_aligned (size r) ->
  carve arch f r = Some (leftover f r).
Proof.
  intros Hf Hr [Hlo Hhi] Hal. unfold carve, leftover.
  unfold page_aligned in Hal. rewrite Hal. simpl.
  rewrite (end_ok arch f Hf), (end_ok arch r Hr).
  destruct Hf as (F0 & F1 & F2), Hr as (R0 & R1 & R2).
  destruct (range_eqb r f) eqn:E.
  - apply range_eqb_eq in E. subst r.
    rewrite !(proj2 (Z.ltb_ge _ _)) by lia. reflexivity.
  - destruct (Z.ltb_spec (base f) (base r));
      destruct (Z.ltb_spec (base r + size r) (base f + size f)); simpl;
      rewrite ?wrap_small by (unfold is_word; lia); reflexivity.
Qed.

Lemma spaced_leftover lo f r l hi :
  lo <= base f -> base f + size f <= hi -> subrange r f -> 0 < size r ->
  spaced (base f + size f + 1) l hi ->
  spaced lo (leftover f r ++ l) hi.
Proof.
  intros Hlo Hhi [Sl Sh] Hr Hs. unfold leftover.
  destruct (Z.ltb_spec (base f) (base r));
    destruct (Z.ltb_spec (base r + size r) (base f + size f)); simpl;
    repeat split; try lia.
  - replace (base r + size r + (base f + size f - (base r + size r)) + 1)
      with (base f + size f + 1) by lia. exact Hs.
  - eapply spaced_weaken; [| exact Hs]. lia.
  - replace (base r + size r + (base f + size f - (base r + size r)) + 1)
      with (base f + size f + 1) by lia. exact Hs.
  - eapply spaced_weaken; [| exact Hs]. lia.
Qed.

Lemma covered_leftover f r x :
  subrange r f -> 0 <= size r ->
  (covered (leftover f r) x <-> in_range f x /\ ~ in_range r x).
Proof.
  intros [Sl Sh] Hr. unfold leftover, in_range.
  destruct (Z.ltb_spec (base f) (base r));
    destruct (Z.ltb_spec (base r + size r) (base f + size f));
    simpl; rewrite ?covered_cons, ?covered_nil; unfold in_range; simpl; lia.
Qed.

Lemma replace_at_spaced lo l hi f r :
  spaced lo l hi -> In f l -> subrange r f -> 0 < size r ->
  spaced lo (replace_at (base f) (leftover f r) l) hi /\
  forall x, covered (replace_at (base f) (leftover f r) l) x <->
            covered l x /\ ~ in_range r x.
Proof.
  revert lo. induction l as [| g l IH]; simpl; intros lo Hs Hin Hsub Hr;
    [contradiction |].
  destruct Hs as (H1 & H2 & H3 & H4).
  assert (forall x, covered l x -> ~ in_range g x) as Hsep.
  { intros x Hc Hx. pose proof (spaced_covered _ _ _ _ H4 Hc).
    unfold in_range in Hx. lia. }
  destruct (Z.eqb_spec (base g) (base f)) as [E | E].
  - assert (g = f) as ->.
    { destruct Hin as [-> | Hin]; [reflexivity |].
      destruct (spaced_In _ _ _ _ H4 Hin). lia. }
    split; [apply spaced_leftover; assumption |].
    intros x. rewrite covered_app, covered_cons, (covered_leftover f r x Hsub ltac:(lia)).
    split.
    + intros [[Hx Hn] | Hc]; [tauto |]. split; [tauto |].
      intros Hx. apply (Hsep x Hc). destruct Hsub. unfold in_range in *. lia.
    + tauto.
  - destruct Hin as [-> | Hin]; [congruence |].
    destruct (IH _ H4 Hin Hsub Hr) as [IS IC].
    split; [simpl; auto |].
    intros x. rewrite !covered_cons, IC. split; [| tauto].
    intros [Hx | [Hc Hn]]; [| tauto]. split; [tauto |].
    intros Hx'. destruct (spaced_In _ _ _ _ H4 Hin) as (I1 & I2 & I3).
    destruct Hsub. unfold in_range in *. lia.
Qed.

Lemma replace_at_covered lo l hi f r :
  spaced lo l hi -> In f l -> subrange r f -> 0 <= size r ->
  forall x, covered (replace_at (base f) (leftover f r) l) x <->
            covered l x /\ ~ in_range r x.
Proof.
  revert lo. induction l as [| g l IH]; simpl; intros lo Hs Hin Hsub Hr;
    [contradiction |].
  destruct Hs as (H1 & H2 & H3 & H4).
  assert (forall x, covered l x -> ~ in_range g x) as Hsep.
  { intros x Hc Hx. pose proof (spaced_covered _ _ _ _ H4 Hc).
    unfold in_range in Hx. lia. }
  destruct (Z.eqb_spec (base g) (base f)) as [E | E].
  - assert (g = f) as ->.
    { destruct Hin as [-> | Hin]; [reflexivity |].
      destruct (spaced_In _ _ _ _ H4 Hin). lia. }
    intros x. rewrite covered_app, covered_cons, (covered_leftover f r x Hsub Hr).
    split.
    + intros [[Hx Hn] | Hc]; [tauto |]. split; [tauto |].
      intros Hx. apply (Hsep x Hc). destruct Hsub. unfold in_range in *. lia.
    + tauto.
  - destruct Hin as [-> | Hin]; [congruence |].
    pose proof (IH _ H4 Hin Hsub Hr) as IC.
    intros x. rewrite !covered_cons, IC. split; [| tauto].
    intros [Hx | [Hc Hn]]; [| tauto]. split; [tauto |].
    intros Hx'. destruct (spaced_In _ _ _ _ H4 Hin) as (I1 & I2 & I3).
    destruct Hsub. unfold in_range in *. lia.
Qed.

(** ** Returning a range to the free list *)


(** ** Taking a range off the handed-out list *)


(** ** Each operation keeps the invariant *)














(** ** Exact placement *)

Lemma allocator_ok_free arch a f :
  allocator_ok arch a -> In f (m_available_ranges a) -> range_ok arch f.
Proof.
  intros [(T0 & T1 & T2) Hf] Hin.
  destruct (spaced_In _ _ _ _ Hf Hin) as (H1 & H2 & H3).
  unfold range_ok. lia.
Qed.

(** C7, amended.  [allocate_specific] returns nothing and leaves the
    allocator as it was when the exact range is not inside the total extent
    or not inside a free range.  When it is, and its size is a multiple of
    the page size, the call carves the range out of the free range that
    holds it and returns it; when its size is not a multiple of the page
    size, the call fails the [VERIFY] of [carve]. *)
Theorem allocate_specific_exact arch (a : VirtualRangeAllocator) (address sz : Z) :
  allocator_ok arch a -> is_word arch address -> is_word arch sz ->
  (~ (subrange (mkRange address sz) (m_total_range a) /\
      currently_free a (mkRange address sz)) ->
   allocate_specific arch a address sz = Some (a, None)) /\
  (subrange (mkRange address sz) (m_total_range a) ->
   currently_free a (mkRange address sz) ->
   page_aligned sz ->
   exists f parts a',
     In f (m_available_ranges a) /\ subrange (mkRange address sz) f /\
     carve arch f (mkRange address sz) = Some parts /\
     allocate_specific arch a address sz = Some (a', Some (mkRange address sz)) /\
     m_total_range a' = m_total_range a /\
     m_available_ranges a' = replace_at (base f) parts (m_available_ranges a) /\
     (0 < sz -> allocator_ok arch a') /\
     forall x, covered (m_available_ranges a') x <->
               covered (m_available_ranges a) x /\ ~ in_range (mkRange address sz) x) /\
  (subrange (mkRange address sz) (m_total_range a) ->
   currently_free a (mkRange address sz) ->
   ~ page_aligned sz ->
   allocate_specific arch a address sz = None).
Proof.
  intros Hok Ha Hs. pose proof Hok as [Ht Hf].
  unfold allocate_specific, allocator_contains.
  pose proof (contains_subrange arch (m_total_range a) (mkRange address sz) Ht Ha Hs)
    as Htot.
  assert (subrange (mkRange address sz) (m_total_range a) ->
          currently_free a (mkRange address sz) ->
          exists f,
            find (fun f => contains arch f (mkRange address sz)) (m_available_ranges a)
              = Some f /\
            In f (m_available_ranges a) /\ range_ok arch f /\
            subrange (mkRange address sz) f /\ range_ok arch (mkRange address sz))
    as Hfound.
  { intros Hsub (f0 & Hin0 & Hsub0).
    destruct (find _ _) as [f |] eqn:E.
    - apply find_some in E as [Hin Hc].
      pose proof (allocator_ok_free arch a f Hok Hin) as Fok.
      apply (contains_subrange arch f (mkRange address sz) Fok Ha Hs) in Hc.
      exists f. split; [reflexivity |]. split; [exact Hin |].
      split; [exact Fok |]. split; [exact Hc |].
      destruct Fok as (F0 & F1 & F2), Hc as [C1 C2]. unfold range_ok, is_word in *.
      simpl in *. lia.
    - exfalso. pose proof (find_none _ _ E f0 Hin0) as Hno. simpl in Hno.
      pose proof (allocator_ok_free arch a f0 Hok Hin0) as Fok.
      apply (contains_subrange arch f0 (mkRange address sz) Fok Ha Hs) in Hsub0.
      congruence. }
  refine (conj _ (conj _ _)).
  - intros Hn. destruct (contains arch (m_total_range a) _) eqn:Ec; simpl;
      [| reflexivity].
    destruct (find _ _) as [f |] eqn:E; [| reflexivity].
    apply find_some in E as [Hin Hc].
    apply (contains_subrange arch f (mkRange address sz)
             (allocator_ok_free arch a f Hok Hin) Ha Hs) in Hc.
    exfalso. apply Hn. split; [apply Htot; reflexivity |]. exists f. auto.
  - intros Hsub Hfree Hal.
    destruct (Hfound Hsub Hfree) as (f & E & Hin & Fok & Hc & Rok).
    rewrite (proj2 Htot Hsub), E. simpl.
    unfold carve_at_iterator.
    rewrite (carve_shape arch f _ Fok Rok Hc Hal).
    exists f, (leftover f (mkRange address sz)). eexists.
    split; [exact Hin |]. split; [exact Hc |].
    split; [apply carve_shape; assumption |]. split; [reflexivity |]. simpl.
    split; [reflexivity |]. split; [reflexivity |].
    split.
    + intros Hpos. split; [exact Ht |].
      apply (replace_at_spaced _ _ _ f (mkRange address sz) Hf Hin Hc Hpos).
    + apply (replace_at_covered _ _ _ f (mkRange address sz) Hf Hin Hc).
      destruct Hs as [Hs0 _]. exact Hs0.
  - intros Hsub Hfree Hal.
    destruct (Hfound Hsub Hfree) as (f & E & _).
    rewrite (proj2 Htot Hsub), E. simpl.
    unfold carve_at_iterator, carve. simpl.
    unfold page_aligned in Hal.
    destruct (Z.eqb_spec (sz mod PAGE_SIZE) 0) as [E0 | _]; [contradiction |].
    reflexivity.
Qed.

Lemma allocate_specific_exact_witness :
  (exists a',
     allocate_specific I386 (initialize_with_range 4096 16384) 8192 4096 =
       Some (a', Some (mkRange 8192 4096)) /\
     allocator_ok I386 a') /\
  allocate_specific I386
    (mkAllocator [mkRange 4096 4096; mkRange 12288 8192] (mkRange 4096 16384))
    8192 4096 =
    Some (mkAllocator [mkRange 4096 4096; mkRange 12288 8192] (mkRange 4096 16384),
          None).
Proof.
  split.
  - destruct (allocate_specific_exact I386 (initialize_with_range 4096 16384) 8192 4096)
      as (_ & H & _).
    + split; [concrete_range_ok | simpl; repeat split; lia].
    + unfold is_word. split; [lia | reflexivity].
    + unfold is_word. split; [lia | reflexivity].
    + destruct H as (f & parts & a' & _ & _ & _ & Hr & _ & _ & Hok & _).
      * unfold subrange. simpl. lia.
      * exists (mkRange 4096 16384). split; [left; reflexivity |].
        unfold subrange. simpl. lia.
      * reflexivity.
      * exists a'. split; [exact Hr | apply Hok; lia].
  - apply allocate_specific_exact.
    + split; [concrete_range_ok | simpl; repeat split; lia].
    + unfold is_word. split; [lia | reflexivity].
    + unfold is_word. split; [lia | reflexivity].
    + intros [_ (f & Hin & [S1 S2])]. simpl in *.
      destruct Hin as [<- | [<- | []]]; simpl in *; lia.
Defined.

(** C7 as it is written fails for a size that is not a multiple of the page
    size: the 100 bytes at 0x2000 are free and inside the extent
    [0x1000, 0x5000), yet the call does not return them; carving them out
    fails the [VERIFY] of [carve]. *)
Lemma allocate_specific_unaligned_size_fails :
  allocator_ok I386 (initialize_with_range 4096 16384) /\
  subrange (mkRange 8192 100) (m_total_range (initialize_with_range 4096 16384)) /\
  currently_free (initialize_with_range 4096 16384) (mkRange 8192 100) /\
  allocate_specific I386 (initialize_with_range 4096 16384) 8192 100 = None.
Proof.
  refine (conj _ (conj _ (conj _ _))).
  - split; [concrete_range_ok | simpl; repeat split; lia].
  - unfold subrange. simpl. lia.
  - exists (mkRange 4096 16384). split; [left; reflexivity |].
    unfold subrange. simpl. lia.
  - reflexivity.
Qed.

(** ** Cloning a VM object *)

(** A private object made for an inode of 8193 bytes has three page tokens,
    none of them faulted in; without storage nothing is made. *)
Example try_create_with_inode_pages :
  tokens_of (fst (try_create_with_inode (mkVMState ∅ ∅ ∅) (Some 1%nat) 7 8193)) 1%nat
    = Some [None; None; None] /\
  try_create_with_inode (mkVMState ∅ ∅ ∅) None 7 8193 = (mkVMState ∅ ∅ ∅, None).
Proof. split; reflexivity. Qed.

Lemma ref_count_ref counts token page :
  ref_count (ref counts token) page =
  (ref_count counts page + if decide (token = Some page) then 1 else 0)%nat.
Proof.
  destruct (decide (token = Some page)) as [-> | N].
  - unfold ref, ref_count at 1. rewrite lookup_insert_eq. simpl. lia.
  - destruct token as [q |]; [| simpl; lia].
    unfold ref, ref_count at 1.
    rewrite lookup_insert_ne by congruence. unfold ref_count. lia.
Qed.

Lemma ref_count_ref_all tokens : forall counts page,
  ref_count (ref_all counts tokens) page =
  (ref_count counts page + occurrences page tokens)%nat.
Proof.
  unfold ref_all, occurrences.
  induction tokens as [| t tokens IH]; intros counts page; simpl.
  - lia.
  - rewrite IH, ref_count_ref, filter_cons.
    destruct (decide (t = Some page)); simpl; lia.
Qed.

Lemma occurrences_pos page tokens :
  In (Some page) tokens -> (0 < occurrences page tokens)%nat.
Proof.
  unfold occurrences. induction tokens as [| t tokens IH]; simpl; [contradiction |].
  intros [-> | Hin]; rewrite filter_cons.
  - rewrite decide_True by reflexivity. simpl. lia.
  - destruct (decide (t = Some page)); simpl; [lia | auto].
Qed.

(** C8. [try_clone] with storage for the clone gives a new private object
    whose page tokens are the parent's at clone time; every page gains one
    reference per token that refers to it, no page content changes, and a
    later change of a token in one of the two objects leaves the other's
    tokens as they were.  Without storage it returns the null pointer and
    changes nothing. *)
Theorem try_clone_copies_tokens (st : VMState) (self : VMObjectPtr) (this : VMObject) :
  vm_objects st !! self = Some this ->
  try_clone st self None = (st, None) /\
  forall p : VMObjectPtr,
    vm_objects st !! p = None ->
    exists st' clone,
      try_clone st self (Some p) = (st', Some p) /\
      vm_objects st' !! p = Some clone /\
      kind clone = PrivateInodeKind /\
      m_physical_pages clone = m_physical_pages this /\
      length (m_physical_pages clone) = length (m_physical_pages this) /\
      vm_objects st' !! self = Some this /\
      (forall page,
         ref_count (ref_counts st') page =
         (ref_count (ref_counts st) page +
          occurrences page (m_physical_pages this))%nat) /\
      (forall page,
         In (Some page) (m_physical_pages this) ->
         (ref_count (ref_counts st) page < ref_count (ref_counts st') page)%nat) /\
      page_contents st' = page_contents st /\
      (forall index token,
         tokens_of (set_page_token st' p index token) self =
           Some (m_physical_pages this) /\
         tokens_of (set_page_token st' p index token) p =
           Some (<[index := token]> (m_physical_pages this))) /\
      (forall index token,
         tokens_of (set_page_token st' self index token) p =
           Some (m_physical_pages this) /\
         tokens_of (set_page_token st' self index token) self =
           Some (<[index := token]> (m_physical_pages this))).
Proof.
  intros Hself. unfold try_clone. rewrite Hself. split; [reflexivity |].
  intros p Hfresh.
  assert (p <> self) as Hne by (intros ->; congruence).
  eexists. eexists. split; [reflexivity |]. simpl.
  split; [apply lookup_insert_eq |]. simpl.
  split; [reflexivity |]. split; [reflexivity |]. split; [reflexivity |].
  split; [rewrite lookup_insert_ne by exact Hne; exact Hself |].
  split; [intros page; apply ref_count_ref_all |].
  split.
  { intros page Hin. rewrite ref_count_ref_all.
    pose proof (occurrences_pos page _ Hin). lia. }
  split; [reflexivity |].
  split; intros index token; unfold set_page_token, tokens_of; simpl.
  - rewrite lookup_insert_eq. simpl.
    rewrite lookup_insert_eq, lookup_insert_ne, lookup_insert_ne by exact Hne.
    rewrite Hself. split; reflexivity.
  - rewrite lookup_insert_ne, Hself by exact Hne. simpl.
    rewrite lookup_insert_eq, lookup_insert_ne, lookup_insert_eq by congruence.
    split; reflexivity.
Qed.

Lemma try_clone_copies_tokens_witness :
  exists st',
    try_clone
      (mkVMState
         {[ 1%nat := mkVMObject PrivateInodeKind 7 [Some 4096; None; Some 4096] ]}
         {[ 4096 := 2%nat ]} ∅)
      1%nat (Some 2%nat) = (st', Some 2%nat) /\
    tokens_of st' 2%nat = Some [Some 4096; None; Some 4096] /\
    ref_count (ref_counts st') 4096 = 4%nat.
Proof.
  destruct (try_clone_copies_tokens
              (mkVMState
                 {[ 1%nat := mkVMObject PrivateInodeKind 7 [Some 4096; None; Some 4096] ]}
                 {[ 4096 := 2%nat ]} ∅)
              1%nat (mkVMObject PrivateInodeKind 7 [Some 4096; None; Some 4096]))
    as [_ H].
  - apply lookup_singleton_eq.
  - destruct (H 2%nat) as (st' & clone & Hc & Hl & _ & Hp & _ & _ & Hrc & _).
    + apply lookup_singleton_ne. discriminate.
    + exists st'. split; [exact Hc |]. split.
      * unfold tokens_of. rewrite Hl. simpl. rewrite Hp. reflexivity.
      * rewrite Hrc. reflexivity.
Defined.

(** ** Descriptor sets *)

Lemma small_Z_in_seq (k : Z) (n : nat) :
  0 <= k < Z.of_nat n -> In k (map Z.of_nat (seq 0 n)).
Proof.
  intros H. apply in_map_iff. exists (Z.to_nat k). split; [lia |].
  apply in_seq. lia.
Qed.

Lemma byte_bit_facts_all (b n n' : Z) :
  0 <= b < 256 -> 0 <= n < 8 -> 0 <= n' < 8 -> byte_bit_facts b n n' = true.
Proof.
  intros Hb Hn Hn'.
  assert (forallb (fun b => forallb (fun n => forallb (fun n' =>
            byte_bit_facts b n n') (map Z.of_nat (seq 0 8)))
            (map Z.of_nat (seq 0 8))) (map Z.of_nat (seq 0 256)) = true) as Hall
    by (vm_compute; reflexivity).
  rewrite forallb_forall in Hall.
  pose proof (Hall b (small_Z_in_seq b 256 Hb)) as H1.
  rewrite forallb_forall in H1.
  pose proof (H1 n (small_Z_in_seq n 8 Hn)) as H2.
  rewrite forallb_forall in H2.
  exact (H2 n' (small_Z_in_seq n' 8 Hn')).
Qed.

Lemma fd_slot_in_array (fd : fd_arg) (set : fd_set) :
  fd_set_ok set -> fd_arg_ok fd ->
  exists b,
    bits set !! Z.to_nat (arg_index fd) = Some b /\ 0 <= b < 256 /\
    0 <= arg_value fd mod 8 < 8 /\
    fd_slot fd set =
      Some (Z.to_nat (arg_index fd), b, Z.shiftl 1 (arg_value fd mod 8)).
Proof.
  intros [Hlen Hbytes] [Hv Hi]. change (FD_SETSIZE / 8) with 128 in Hi.
  assert (0 <= arg_value fd mod 8 < 8) as Hn by (apply Z.mod_pos_bound; lia).
  destruct (lookup_lt_is_Some_2 (bits set) (Z.to_nat (arg_index fd))) as [b Hb];
    [lia |].
  exists b. split; [exact Hb |]. split.
  { rewrite List.Forall_forall in Hbytes. apply Hbytes.
    apply list_elem_of_In. eapply list_elem_of_lookup_2. exact Hb. }
  split; [exact Hn |].
  unfold fd_slot, shl_one.
  rewrite Z.rem_mod_nonneg by lia.
  rewrite (proj2 (andb_true_iff _ _)) by (split; [apply Z.leb_le | apply Z.ltb_lt]; lia).
  change (Z.quot FD_SETSIZE 8) with 128.
  rewrite (proj2 (andb_true_iff _ _)) by (split; [apply Z.leb_le | apply Z.ltb_lt]; lia).
  rewrite Hb. reflexivity.
Qed.

(** A descriptor below [FD_SETSIZE], written as an identifier or a literal,
    selects byte [fd / 8] of the array. *)
Lemma tight_arg_ok (fd : Z) : 0 <= fd < FD_SETSIZE -> fd_arg_ok fd.
Proof.
  unfold fd_arg_ok, FD_SETSIZE. cbn [arg_value arg_index]. intros H.
  rewrite Z.quot_div_nonneg by lia.
  Z.to_euclidean_division_equations; lia.
Qed.

(** Two such descriptors differ in the byte they use or in the bit. *)
Lemma fd_split_ne (fd fd' : Z) :
  0 <= fd -> 0 <= fd' -> fd' <> fd ->
  arg_index fd' <> arg_index fd \/ arg_value fd' mod 8 <> arg_value fd mod 8.
Proof.
  cbn [arg_value arg_index]. intros H H' N.
  rewrite !Z.quot_div_nonneg by lia.
  destruct (Z.eq_dec (fd' / 8) (fd / 8)) as [E | E]; [right | left; exact E].
  intros Em. apply N.
  rewrite (Z.div_mod fd 8), (Z.div_mod fd' 8) by lia. congruence.
Qed.

Lemma fd_set_ok_insert (set : fd_set) (i : nat) (v : Z) :
  fd_set_ok set -> 0 <= v < 256 -> fd_set_ok (mk_fd_set (<[i := v]> (bits set))).
Proof.
  intros [Hlen Hbytes] Hv. split; simpl.
  - rewrite length_insert. exact Hlen.
  - apply Forall_insert; assumption.
Qed.

(** What a rewrite of byte [i] does to the test of any argument. *)
Lemma FD_ISSET_after_update (fd' : fd_arg) (set : fd_set) (i b v : Z) :
  fd_set_ok set -> 0 <= i < FD_SETSIZE / 8 -> fd_arg_ok fd' ->
  bits set !! Z.to_nat i = Some b -> 0 <= v < 256 ->
  FD_ISSET fd' (mk_fd_set (<[Z.to_nat i := v]> (bits set))) =
    if Z.eq_dec i (arg_index fd')
    then Some (Z.land v (Z.shiftl 1 (arg_value fd' mod 8)))
    else FD_ISSET fd' set.
Proof.
  intros Hok Hi Hfd' Hb Hv.
  pose proof (fd_set_ok_insert set (Z.to_nat i) v Hok Hv) as Hok'.
  destruct (fd_slot_in_array fd' _ Hok' Hfd') as (b' & Hb' & _ & _ & Hslot').
  destruct (fd_slot_in_array fd' _ Hok Hfd') as (b0 & Hb0 & _ & _ & Hslot0).
  unfold FD_ISSET. rewrite Hslot', Hslot0. simpl in Hb'.
  destruct Hfd' as [_ Hi']. change (FD_SETSIZE / 8) with 128 in *.
  destruct (Z.eq_dec i (arg_index fd')) as [E | E].
  - rewrite <- E in Hb'. rewrite list_lookup_insert_eq in Hb'.
    + congruence.
    + destruct Hok as [Hlen _]. rewrite Hlen. lia.
  - rewrite list_lookup_insert_ne in Hb' by lia. congruence.
Qed.

Lemma FD_ZERO_ok (set : fd_set) : fd_set_ok (FD_ZERO set).
Proof.
  split; [reflexivity |]. apply List.Forall_forall. intros b Hb.
  apply repeat_spec in Hb. subst b. lia.
Qed.

(** After [FD_ZERO] every byte of the array is 0, so the test reads 0
    whichever byte and bit the argument selects. *)
Lemma FD_ISSET_FD_ZERO (fd : fd_arg) (set : fd_set) :
  fd_arg_ok fd -> FD_ISSET fd (FD_ZERO set) = Some 0.
Proof.
  intros Hfd.
  destruct (fd_slot_in_array fd (FD_ZERO set) (FD_ZERO_ok set) Hfd)
    as (b & Hb & _ & _ & Hslot).
  unfold FD_ISSET. rewrite Hslot.
  assert (b = 0) as ->.
  { unfold FD_ZERO in Hb. cbn [bits] in Hb.
    apply list_elem_of_lookup_2, list_elem_of_In in Hb.
    exact (repeat_spec _ _ _ Hb). }
  reflexivity.
Qed.

(** X4. [FD_SET] with an argument that selects a byte of the array sets bit
    [value % 8] of byte [arg_index]: the test of the same argument is
    non-zero afterwards (its value is the mask [2 ^ (value % 8)], not 1),
    and the test of every argument that selects another byte or another bit
    is as it was.  For a descriptor below [FD_SETSIZE] written as an
    identifier or a literal the byte is [fd / 8], and every other such
    descriptor keeps its test.  For an argument such as [a + 8] the byte is
    [a + 1], which is another descriptor's. *)
Theorem FD_SET_then_FD_ISSET (fd : fd_arg) (set : fd_set) :
  fd_set_ok set -> fd_arg_ok fd ->
  exists set',
    FD_SET fd set = Some set' /\ fd_set_ok set' /\
    FD_ISSET fd set' = Some (2 ^ (arg_value fd mod 8)) /\
    2 ^ (arg_value fd mod 8) <> 0 /\
    (forall fd' : fd_arg,
       fd_arg_ok fd' ->
       arg_index fd' <> arg_index fd \/
       arg_value fd' mod 8 <> arg_value fd mod 8 ->
       FD_ISSET fd' set' = FD_ISSET fd' set) /\
    (forall v v' : Z,
       fd = Tight v -> 0 <= v' < FD_SETSIZE -> v' <> v ->
       FD_ISSET v' set' = FD_ISSET v' set).
Proof.
  intros Hok Hfd.
  destruct (fd_slot_in_array fd set Hok Hfd) as (b & Hb & Hbyte & Hn & Hslot).
  pose proof (byte_bit_facts_all b _ _ Hbyte Hn Hn) as F.
  unfold byte_bit_facts in F. repeat rewrite andb_true_iff in F.
  destruct F as ((((((((((F1 & F2) & F3) & F4) & F5) & F6) & F7) & F8) & F9) & F10) & _).
  apply Z.eqb_eq in F1, F7, F10. apply Z.leb_le in F3. apply Z.ltb_lt in F4.
  unfold FD_SET. rewrite Hslot. eexists. split; [reflexivity |].
  rewrite F1.
  split; [apply fd_set_ok_insert; [exact Hok | lia] |].
  assert (forall fd' : fd_arg,
            fd_arg_ok fd' ->
            arg_index fd' <> arg_index fd \/
            arg_value fd' mod 8 <> arg_value fd mod 8 ->
            FD_ISSET fd'
              (mk_fd_set
                 (<[Z.to_nat (arg_index fd) :=
                      Z.lor b (Z.shiftl 1 (arg_value fd mod 8))]> (bits set)))
            = FD_ISSET fd' set) as Hframe.
  { intros fd' Hfd' Hne.
    rewrite (FD_ISSET_after_update fd' set (arg_index fd) b)
      by (assumption || apply Hfd || lia).
    destruct (Z.eq_dec (arg_index fd) (arg_index fd')) as [E | E]; [| reflexivity].
    destruct (fd_slot_in_array fd' set Hok Hfd') as (b' & Hb' & _ & Hn' & Hslot').
    unfold FD_ISSET. rewrite Hslot'. rewrite <- E in Hb'.
    assert (b' = b) as -> by congruence.
    pose proof (byte_bit_facts_all b _ _ Hbyte Hn Hn') as G.
    unfold byte_bit_facts in G. repeat rewrite andb_true_iff in G.
    destruct G as (_ & G). apply orb_true_iff in G as [G | G].
    - apply Z.eqb_eq in G. destruct Hne as [N | N]; congruence.
    - apply andb_true_iff in G as [G _]. apply Z.eqb_eq in G. rewrite G.
      reflexivity. }
  split.
  { rewrite (FD_ISSET_after_update fd set (arg_index fd) b)
      by (assumption || apply Hfd || lia).
    destruct (Z.eq_dec (arg_index fd) (arg_index fd)); [| congruence].
    rewrite F7, F10. reflexivity. }
  split; [apply Z.pow_nonzero; lia |].
  split; [exact Hframe |].
  intros v v' -> Hv' Hne. apply Hframe; [apply tight_arg_ok; exact Hv' |].
  apply fd_split_ne; [apply Hfd | lia | exact Hne].
Qed.

Lemma FD_SET_then_FD_ISSET_witness :
  (exists set',
     FD_SET 13 (FD_ZERO (mk_fd_set [])) = Some set' /\
     FD_ISSET 13 set' = Some 32 /\ FD_ISSET 12 set' = Some 0) /\
  (exists set',
     FD_SET (Loose Z.add 5 8) (FD_ZERO (mk_fd_set [])) = Some set' /\
     FD_ISSET (Loose Z.add 5 8) set' = Some 32 /\
     FD_ISSET 13 set' = Some 0 /\ FD_ISSET 53 set' = Some 32).
Proof.
  split.
  - destruct (FD_SET_then_FD_ISSET 13 (FD_ZERO (mk_fd_set [])))
      as (set' & Hs & _ & Hi & _ & _ & Hother).
    + apply FD_ZERO_ok.
    + apply tight_arg_ok. unfold FD_SETSIZE. lia.
    + exists set'. split; [exact Hs |]. split; [exact Hi |].
      rewrite (Hother 13 12 eq_refl) by (unfold FD_SETSIZE; lia). reflexivity.
  - destruct (FD_SET_then_FD_ISSET (Loose Z.add 5 8) (FD_ZERO (mk_fd_set [])))
      as (set' & Hs & _ & Hi & _ & Hother & _).
    + apply FD_ZERO_ok.
    + unfold fd_arg_ok. repeat split; vm_compute; congruence.
    + exists set'. split; [exact Hs |]. split; [exact Hi |].
      split.
      * rewrite (Hother 13) by
          (try (apply tight_arg_ok; unfold FD_SETSIZE; lia); left; discriminate).
        reflexivity.
      * vm_compute in Hs. injection Hs as <-. reflexivity.
Defined.

(** X5. [FD_CLR] with an argument that selects a byte of the array clears
    bit [value % 8] of byte [arg_index]: the test of the same argument is 0
    afterwards, whether or not the bit was set, and the test of every
    argument that selects another byte or another bit is as it was.  For a
    descriptor below [FD_SETSIZE] written as an identifier or a literal the
    byte is [fd / 8], and every other such descriptor keeps its test. *)
Theorem FD_CLR_then_FD_ISSET (fd : fd_arg) (set : fd_set) :
  fd_set_ok set -> fd_arg_ok fd ->
  exists set',
    FD_CLR fd set = Some set' /\ fd_set_ok set' /\
    FD_ISSET fd set' = Some 0 /\
    (forall fd' : fd_arg,
       fd_arg_ok fd' ->
       arg_index fd' <> arg_index fd \/
       arg_value fd' mod 8 <> arg_value fd mod 8 ->
       FD_ISSET fd' set' = FD_ISSET fd' set) /\
    (forall v v' : Z,
       fd = Tight v -> 0 <= v' < FD_SETSIZE -> v' <> v ->
       FD_ISSET v' set' = FD_ISSET v' set).
Proof.
  intros Hok Hfd.
  destruct (fd_slot_in_array fd set Hok Hfd) as (b & Hb & Hbyte & Hn & Hslot).
  pose proof (byte_bit_facts_all b _ _ Hbyte Hn Hn) as F.
  unfold byte_bit_facts in F. repeat rewrite andb_true_iff in F.
  destruct F as ((((((((((F1 & F2) & F3) & F4) & F5) & F6) & F7) & F8) & F9) & F10) & _).
  apply Z.eqb_eq in F2, F8. apply Z.leb_le in F5. apply Z.ltb_lt in F6.
  unfold FD_CLR. rewrite Hslot. eexists. split; [reflexivity |].
  rewrite F2.
  split; [apply fd_set_ok_insert; [exact Hok | lia] |].
  assert (forall fd' : fd_arg,
            fd_arg_ok fd' ->
            arg_index fd' <> arg_index fd \/
            arg_value fd' mod 8 <> arg_value fd mod 8 ->
            FD_ISSET fd'
              (mk_fd_set
                 (<[Z.to_nat (arg_index fd) :=
                      Z.land b (Z.lnot (Z.shiftl 1 (arg_value fd mod 8)))]>
                    (bits set)))
            = FD_ISSET fd' set) as Hframe.
  { intros fd' Hfd' Hne.
    rewrite (FD_ISSET_after_update fd' set (arg_index fd) b)
      by (assumption || apply Hfd || lia).
    destruct (Z.eq_dec (arg_index fd) (arg_index fd')) as [E | E]; [| reflexivity].
    destruct (fd_slot_in_array fd' set Hok Hfd') as (b' & Hb' & _ & Hn' & Hslot').
    unfold FD_ISSET. rewrite Hslot'. rewrite <- E in Hb'.
    assert (b' = b) as -> by congruence.
    pose proof (byte_bit_facts_all b _ _ Hbyte Hn Hn') as G.
    unfold byte_bit_facts in G. repeat rewrite andb_true_iff in G.
    destruct G as (_ & G). apply orb_true_iff in G as [G | G].
    - apply Z.eqb_eq in G. destruct Hne as [N | N]; congruence.
    - apply andb_true_iff in G as [_ G]. apply Z.eqb_eq in G. rewrite G.
      reflexivity. }
  split.
  { rewrite (FD_ISSET_after_update fd set (arg_index fd) b)
      by (assumption || apply Hfd || lia).
    destruct (Z.eq_dec (arg_index fd) (arg_index fd)); [| congruence].
    rewrite F8. reflexivity. }
  split; [exact Hframe |].
  intros v v' -> Hv' Hne. apply Hframe; [apply tight_arg_ok; exact Hv' |].
  apply fd_split_ne; [apply Hfd | lia | exact Hne].
Qed.

Lemma FD_CLR_then_FD_ISSET_witness :
  exists set',
    FD_ISSET 1023 (mk_fd_set (repeat 255 128)) = Some 128 /\
    FD_CLR 1023 (mk_fd_set (repeat 255 128)) = Some set' /\
    FD_ISSET 1023 set' = Some 0 /\ FD_ISSET 1022 set' = Some 64.
Proof.
  destruct (FD_CLR_then_FD_ISSET 1023 (mk_fd_set (repeat 255 128)))
    as (set' & Hc & _ & Hi & _ & Hother).
  - split; [reflexivity |]. apply List.Forall_forall. intros b Hb.
    apply repeat_spec in Hb. subst b. lia.
  - apply tight_arg_ok. unfold FD_SETSIZE. lia.
  - exists set'. split; [reflexivity |]. split; [exact Hc |].
    split; [exact Hi |].
    rewrite (Hother 1023 1022 eq_refl) by (unfold FD_SETSIZE; lia). reflexivity.
Defined.

(** X6. After [FD_ZERO] no descriptor below [FD_SETSIZE] tests as set,
    whatever the set held before. *)
Theorem FD_ZERO_clears_all (fd : Z) (set : fd_set) :
  0 <= fd < FD_SETSIZE -> FD_ISSET fd (FD_ZERO set) = Some 0.
Proof.
  intros Hfd. apply FD_ISSET_FD_ZERO, tight_arg_ok. exact Hfd.
Qed.

Lemma FD_ZERO_clears_all_witness :
  FD_ISSET 77 (FD_ZERO (mk_fd_set [255; 255])) = Some 0.
Proof. apply FD_ZERO_clears_all. unfold FD_SETSIZE. lia. Defined.

(** ** Coverage guards *)

Lemma reset_from_length gs : forall N, length (reset_from N gs) = length gs.
Proof.
  induction gs as [| g gs IH]; intros N; simpl; [reflexivity |].
  destruct (N <? MAX_EDGES); simpl; [rewrite IH |]; reflexivity.
Qed.

Lemma reset_from_lookup gs : forall N (k : nat),
  0 <= N -> (k < length gs)%nat ->
  reset_from N gs !! k =
    if N + Z.of_nat k <? MAX_EDGES then Some (N + Z.of_nat k + 1) else gs !! k.
Proof.
  induction gs as [| g gs IH]; intros N k HN Hk; simpl in *; [lia |].
  destruct (Z.ltb_spec N MAX_EDGES) as [L | L].
  - assert ((N + 1) mod 2 ^ 64 = N + 1) as E64.
    { apply Z.mod_small. unfold MAX_EDGES, SHM_SIZE in L. lia. }
    rewrite E64. destruct k as [| k]; simpl.
    + rewrite Z.add_0_r, (proj2 (Z.ltb_lt _ _) L). f_equal.
      apply Z.mod_small. unfold MAX_EDGES, SHM_SIZE in L. lia.
    + rewrite IH by lia.
      replace (N + 1 + Z.of_nat k) with (N + Z.pos (Pos.of_succ_nat k)) by lia.
      reflexivity.
  - rewrite (proj2 (Z.ltb_ge _ _)) by lia. reflexivity.
Qed.

Lemma reset_edgeguards_lookup (c : Coverage) (k : nat) :
  (k < length (guards c))%nat -> Z.of_nat k < MAX_EDGES ->
  guards (reset_edgeguards c) !! k = Some (Z.of_nat k + 1).
Proof.
  intros Hk Hlt. unfold reset_edgeguards. simpl.
  rewrite (reset_from_lookup (guards c) 0 k) by (lia || exact Hk).
  rewrite !Z.add_0_l, (proj2 (Z.ltb_lt _ _) Hlt). reflexivity.
Qed.

(** X7. [__sanitizer_cov_reset_edgeguards] numbers the guards 1, 2, 3, ... in
    array order: the guard at position [k] gets [k + 1] when [k < MAX_EDGES],
    and every guard from position [MAX_EDGES] on keeps the value it had. *)
Theorem reset_edgeguards_numbers (c : Coverage) (k : nat) :
  (k < length (guards c))%nat ->
  length (guards (reset_edgeguards c)) = length (guards c) /\
  edges (reset_edgeguards c) = edges c /\
  (Z.of_nat k < MAX_EDGES ->
   guards (reset_edgeguards c) !! k = Some (Z.of_nat k + 1)) /\
  (MAX_EDGES <= Z.of_nat k ->
   guards (reset_edgeguards c) !! k = guards c !! k).
Proof.
  intros Hk. unfold reset_edgeguards. simpl.
  split; [apply reset_from_length |]. split; [reflexivity |].
  rewrite (reset_from_lookup (guards c) 0 k) by (lia || exact Hk).
  rewrite !Z.add_0_l.
  split; intros H.
  - rewrite (proj2 (Z.ltb_lt _ _) H). reflexivity.
  - rewrite (proj2 (Z.ltb_ge _ _) H). reflexivity.
Qed.

Lemma reset_edgeguards_numbers_witness :
  guards (reset_edgeguards (mkCoverage [0; 0; 7] (fun _ => 0))) !! 2%nat = Some 3.
Proof.
  apply (reset_edgeguards_numbers (mkCoverage [0; 0; 7] (fun _ => 0)) 2).
  - simpl. lia.
  - reflexivity.
Defined.

(** X8. [__sanitizer_cov_trace_pc_guard] on a guard that holds an index inside
    the bitmap sets bit [index % 8] of byte [index / 8] and zeroes the guard;
    no other byte, no other bit of that byte and no other guard changes, and
    a second call on the same guard changes nothing: an edge is recorded at
    most once between two resets. *)
Theorem trace_pc_guard_records_once (c : Coverage) (k : nat) (index : Z) :
  guards c !! k = Some index -> 0 < index -> index / 8 < SHM_SIZE - 4 ->
  0 <= edges c (index / 8) < 256 ->
  exists c',
    trace_pc_guard k c = Some c' /\
    guards c' !! k = Some 0 /\
    Z.land (edges c' (index / 8)) (2 ^ (index mod 8)) = 2 ^ (index mod 8) /\
    (forall j, j <> index / 8 -> edges c' j = edges c j) /\
    (forall n, 0 <= n < 8 -> n <> index mod 8 ->
               Z.land (edges c' (index / 8)) (2 ^ n) =
               Z.land (edges c (index / 8)) (2 ^ n)) /\
    (forall k', k' <> k -> guards c' !! k' = guards c !! k') /\
    trace_pc_guard k c' = Some c'.
Proof.
  intros Hg Hpos Hin Hbyte.
  assert (0 <= index mod 8 < 8) as Hn by (apply Z.mod_pos_bound; lia).
  unfold trace_pc_guard. rewrite Hg.
  rewrite (proj2 (Z.eqb_neq index 0)) by lia.
  rewrite (proj2 (Z.ltb_lt _ _) Hin).
  unfold shl_one.
  rewrite (proj2 (andb_true_iff _ _)) by (split; [apply Z.leb_le | apply Z.ltb_lt]; lia).
  eexists. split; [reflexivity |]. simpl.
  assert (k < length (guards c))%nat as Hk by (eapply lookup_lt_Some; exact Hg).
  pose proof (byte_bit_facts_all _ (index mod 8) (index mod 8) Hbyte Hn Hn) as F.
  unfold byte_bit_facts in F. repeat rewrite andb_true_iff in F.
  destruct F as ((((((((((F1 & _) & _) & _) & _) & _) & F7) & _) & _) & F10) & _).
  apply Z.eqb_eq in F1, F7, F10.
  split; [apply list_lookup_insert_eq; exact Hk |].
  split.
  { unfold store_byte. destruct (Z.eq_dec (index / 8) (index / 8)); [| congruence].
    rewrite F1, <- F10. exact F7. }
  split.
  { intros j Hj. unfold store_byte. destruct (Z.eq_dec j (index / 8)); congruence. }
  split.
  { intros n Hn' Hne. unfold store_byte.
    destruct (Z.eq_dec (index / 8) (index / 8)); [| congruence].
    pose proof (byte_bit_facts_all _ (index mod 8) n Hbyte Hn Hn') as G.
    unfold byte_bit_facts in G. repeat rewrite andb_true_iff in G.
    destruct G as ((_ & G10) & G).
    pose proof (byte_bit_facts_all _ n n Hbyte Hn' Hn') as G'.
    unfold byte_bit_facts in G'. repeat rewrite andb_true_iff in G'.
    destruct G' as ((_ & G10') & _). apply Z.eqb_eq in G10'.
    apply orb_true_iff in G as [G | G]; [apply Z.eqb_eq in G; congruence |].
    apply andb_true_iff in G as [G _]. apply Z.eqb_eq in G.
    rewrite F1, <- G10'. exact G. }
  split.
  { intros k' Hk'. apply list_lookup_insert_ne. congruence. }
  rewrite list_lookup_insert_eq by exact Hk. reflexivity.
Qed.

Lemma trace_pc_guard_records_once_witness :
  exists c',
    trace_pc_guard 1 (mkCoverage [1; 10; 3] (fun _ => 0)) = Some c' /\
    guards c' = [1; 0; 3] /\ edges c' 1 = 4 /\ trace_pc_guard 1 c' = Some c'.
Proof.
  destruct (trace_pc_guard_records_once (mkCoverage [1; 10; 3] (fun _ => 0)) 1 10)
    as (c' & Ht & _ & _ & _ & _ & _ & Hagain).
  - reflexivity.
  - lia.
  - reflexivity.
  - simpl. lia.
  - exists c'. split; [exact Ht |].
    vm_compute in Ht. injection Ht as <-. simpl.
    split; [reflexivity |]. split; [reflexivity |]. exact Hagain.
Defined.

(** X9. After a reset every guard numbered below [MAX_EDGES] indexes a byte
    of the bitmap, but the guard numbered [MAX_EDGES] itself, which the reset
    loop hands out when the module has that many guards, indexes byte
    [SHM_SIZE - 4]: the first byte past the end of the shared region. *)
Theorem trace_pc_guard_after_reset_bounds (c : Coverage) (k : nat) :
  (k < length (guards c))%nat -> Z.of_nat k < MAX_EDGES ->
  guards (reset_edgeguards c) !! k = Some (Z.of_nat k + 1) /\
  (Z.of_nat k + 1 < MAX_EDGES -> (Z.of_nat k + 1) / 8 < SHM_SIZE - 4) /\
  (Z.of_nat k + 1 = MAX_EDGES -> (Z.of_nat k + 1) / 8 = SHM_SIZE - 4) /\
  (trace_pc_guard k (reset_edgeguards c) = None <-> Z.of_nat k + 1 = MAX_EDGES).
Proof.
  intros Hk Hlt.
  pose proof (reset_edgeguards_lookup c k Hk Hlt) as Hnum.
  split; [exact Hnum |].
  unfold MAX_EDGES, SHM_SIZE in *.
  split; [intros H; Z.to_euclidean_division_equations; lia |].
  split; [intros H; Z.to_euclidean_division_equations; lia |].
  unfold trace_pc_guard. rewrite Hnum.
  rewrite (proj2 (Z.eqb_neq _ 0)) by lia.
  assert (0 <= (Z.of_nat k + 1) mod 8 < 8) as Hn by (apply Z.mod_pos_bound; lia).
  unfold shl_one, SHM_SIZE.
  rewrite (proj2 (andb_true_iff _ _)) by (split; [apply Z.leb_le | apply Z.ltb_lt]; lia).
  destruct (Z.ltb_spec ((Z.of_nat k + 1) / 8) (1048576 - 4)) as [L | L].
  - split; [discriminate |]. intros E. exfalso.
    Z.to_euclidean_division_equations; lia.
  - split; [| reflexivity]. intros _.
    Z.to_euclidean_division_equations; lia.
Qed.

Lemma trace_pc_guard_after_reset_bounds_witness :
  guards (reset_edgeguards (mkCoverage [0; 0] (fun _ => 0))) !! 1%nat = Some 2 /\
  trace_pc_guard 1 (reset_edgeguards (mkCoverage [0; 0] (fun _ => 0))) <> None.
Proof.
  destruct (trace_pc_guard_after_reset_bounds (mkCoverage [0; 0] (fun _ => 0)) 1)
    as (Hg & _ & _ & Hiff).
  - simpl. lia.
  - reflexivity.
  - split; [exact Hg |]. intros E. apply Hiff in E. discriminate E.
Defined.

(** ** The SB16 driver *)

Lemma outputs_app (a b : list PortEvent) : outputs (a ++ b) = outputs a ++ outputs b.
Proof.
  induction a as [| e a IH]; simpl; [reflexivity |].
  destruct e; simpl; rewrite ?IH; reflexivity.
Qed.

Lemma ready_count_cons (v : Z) (answers : list Z) :
  ready_count (v :: answers) =
  if bit7 (to_uchar v) then ready_count answers else S (ready_count answers).
Proof.
  unfold ready_count. simpl. destruct (bit7 (to_uchar v)); reflexivity.
Qed.

(** A wait loop writes to no port and fails no [VERIFY]. *)
Lemma spin_outputs (port : Z) (again : Z -> bool) (answers : list Z) :
  forall events,
  match spin port again answers events with
  | Returned _ m' => outputs (log m') = outputs events
  | Crashed _ => False
  | Starved => True
  end.
Proof.
  induction answers as [| v answers IH]; intros events; simpl; [exact I |].
  assert (outputs (events ++ [PortIn port (to_uchar v)]) = outputs events) as Eo
    by (rewrite outputs_app; simpl; apply app_nil_r).
  destruct (again (to_uchar v)).
  - specialize (IH (events ++ [PortIn port (to_uchar v)])).
    rewrite Eo in IH. exact IH.
  - simpl. exact Eo.
Qed.

(** The wait loop of [dsp_write] ends at the first answer with bit 7 clear,
    writes nothing, and starves exactly when no answer has the bit clear. *)
Lemma spin_write_spec (answers : list Z) : forall events,
  match spin DSP_WRITE bit7 answers events with
  | Returned _ m' =>
      outputs (log m') = outputs events /\
      S (ready_count (inputs m')) = ready_count answers
  | Crashed _ => False
  | Starved => ready_count answers = 0%nat
  end.
Proof.
  induction answers as [| v answers IH]; intros events; simpl; [reflexivity |].
  rewrite ready_count_cons.
  assert (outputs (events ++ [PortIn DSP_WRITE (to_uchar v)]) = outputs events) as Eo
    by (rewrite outputs_app; simpl; apply app_nil_r).
  destruct (bit7 (to_uchar v)).
  - specialize (IH (events ++ [PortIn DSP_WRITE (to_uchar v)])).
    rewrite Eo in IH. exact IH.
  - simpl. auto.
Qed.

Lemma dsp_write_spec (value : Z) (m : Machine) :
  match dsp_write value m with
  | Returned _ m' =>
      outputs (log m') = outputs (log m) ++ [(DSP_WRITE, to_uchar value)] /\
      S (ready_count (inputs m')) = ready_count (inputs m)
  | Crashed _ => False
  | Starved => ready_count (inputs m) = 0%nat
  end.
Proof.
  unfold dsp_write, io_bind.
  pose proof (spin_write_spec (inputs m) (log m)) as H.
  destruct (spin DSP_WRITE bit7 (inputs m) (log m)) as [[] m1 | m1 |];
    [| exact H | exact H].
  destruct H as [Ho Hr]. unfold out8, emit. simpl.
  rewrite outputs_app, Ho. simpl. auto.
Qed.

Lemma dsp_read_spec (m : Machine) :
  match dsp_read m with
  | Returned v m' => outputs (log m') = outputs (log m) /\ 0 <= v < 256
  | Crashed _ => False
  | Starved => True
  end.
Proof.
  unfold dsp_read, io_bind.
  pose proof (spin_outputs DSP_STATUS (fun v => negb (bit7 v)) (inputs m) (log m)) as H.
  destruct (spin DSP_STATUS _ (inputs m) (log m)) as [[] m1 | m1 |];
    [| exact H | exact I].
  unfold in8. destruct (inputs m1) as [| v rest]; [exact I |].
  simpl. rewrite outputs_app, H. simpl. split; [apply app_nil_r |].
  unfold to_uchar. apply Z.mod_pos_bound. lia.
Qed.

(** Runs one [dsp_write] of a chain and keeps what [dsp_write_spec] says. *)
Ltac dsp_write_step v m Ho Hr :=
  let H := fresh "H" in
  let m' := fresh "m" in
  pose proof (dsp_write_spec v m) as H;
  destruct (dsp_write v m) as [[] m' | m' |];
  [destruct H as [Ho Hr]; cbn [inputs log] in Ho, Hr
  | destruct H
  | cbn [inputs log] in *; lia].

Lemma to_uchar_idem (z : Z) : to_uchar (to_uchar z) = to_uchar z.
Proof. unfold to_uchar. apply Z.mod_mod. lia. Qed.

Lemma set_sample_rate_run (hz : Z) (m : Machine) :
  match set_sample_rate hz m with
  | Returned _ m' =>
      outputs (log m') =
        outputs (log m) ++
        [(DSP_WRITE, 65);
         (DSP_WRITE, to_uchar (Z.shiftr hz 8)); (DSP_WRITE, to_uchar hz);
         (DSP_WRITE, 66);
         (DSP_WRITE, to_uchar (Z.shiftr hz 8)); (DSP_WRITE, to_uchar hz)] /\
      (ready_count (inputs m') + 6 = ready_count (inputs m))%nat
  | Crashed _ => False
  | Starved => (ready_count (inputs m) < 6)%nat
  end.
Proof.
  unfold set_sample_rate, io_bind.
  dsp_write_step 65 m O1 R1.
  dsp_write_step (to_uchar (Z.shiftr hz 8)) m0 O2 R2.
  dsp_write_step (to_uchar hz) m1 O3 R3.
  dsp_write_step 66 m2 O4 R4.
  dsp_write_step (to_uchar (Z.shiftr hz 8)) m3 O5 R5.
  dsp_write_step (to_uchar hz) m4 O6 R6.
  split; [| lia].
  rewrite O6, O5, O4, O3, O2, O1, !to_uchar_idem, <- !app_assoc. reflexivity.
Qed.

(** X10. [set_sample_rate] sends the rate twice, once after command 0x41 and
    once after 0x42, high byte first, and the two bytes put together are the
    rate again.  It fails no [VERIFY], and it returns exactly when the DSP
    shows itself ready for a write six times: each ready answer is used up
    by one write. *)
Theorem set_sample_rate_sends_rate_twice (hz : Z) (m : Machine) :
  0 <= hz < 65536 ->
  256 * (hz / 256) + hz mod 256 = hz /\
  match set_sample_rate hz m with
  | Returned _ m' =>
      outputs (log m') =
        outputs (log m) ++
        [(DSP_WRITE, 65); (DSP_WRITE, hz / 256); (DSP_WRITE, hz mod 256);
         (DSP_WRITE, 66); (DSP_WRITE, hz / 256); (DSP_WRITE, hz mod 256)] /\
      (ready_count (inputs m') + 6 = ready_count (inputs m))%nat
  | Crashed _ => False
  | Starved => (ready_count (inputs m) < 6)%nat
  end.
Proof.
  intros Hhz. split; [Z.to_euclidean_division_equations; lia |].
  assert (to_uchar (Z.shiftr hz 8) = hz / 256) as Ehi.
  { unfold to_uchar. rewrite Z.shiftr_div_pow2 by lia.
    change (2 ^ 8) with 256. apply Z.mod_small.
    Z.to_euclidean_division_equations; lia. }
  pose proof (set_sample_rate_run hz m) as H.
  destruct (set_sample_rate hz m) as [[] m' | m' |]; [| exact H | exact H].
  rewrite Ehi in H. exact H.
Qed.

Lemma set_sample_rate_sends_rate_twice_witness :
  match set_sample_rate 44100 (mkMachine [128; 0; 0; 255; 0; 0; 0; 0; 9] []) with
  | Returned _ m' =>
      outputs (log m') =
        [(DSP_WRITE, 65); (DSP_WRITE, 172); (DSP_WRITE, 68);
         (DSP_WRITE, 66); (DSP_WRITE, 172); (DSP_WRITE, 68)] /\
      inputs m' = [9]
  | _ => False
  end.
Proof.
  pose proof (set_sample_rate_sends_rate_twice 44100
                (mkMachine [128; 0; 0; 255; 0; 0; 0; 0; 9] []) ltac:(lia)) as [_ H].
  destruct (set_sample_rate 44100 (mkMachine [128; 0; 0; 255; 0; 0; 0; 0; 9] []))
    as [[] m' | m' |] eqn:E.
  - destruct H as [Ho _]. split; [exact Ho |].
    vm_compute in E. injection E as <-. reflexivity.
  - exact H.
  - vm_compute in E. discriminate E.
Defined.

(** X11. The four IRQ lines the card knows make a round trip: for 2, 5, 7
    and 10 [set_irq_register] selects mixer register 0x80 and writes a mask,
    and [get_irq_line], when the register answers that mask, gives the line
    back. *)
Theorem set_irq_register_get_irq_line_round_trip (irq : Z) (m : Machine) :
  In irq [2; 5; 7; 10] ->
  exists mask,
    set_irq_register irq m =
      Returned tt (mkMachine (inputs m)
                     (log m ++ [PortOut 548 128; PortOut 549 mask])) /\
    forall rest events,
      get_irq_line (mkMachine (mask :: rest) events) =
        Returned irq (mkMachine rest
                        (events ++ [PortOut 548 128; PortIn 549 mask])).
Proof.
  intros Hin. simpl in Hin.
  destruct Hin as [<- | [<- | [<- | [<- | []]]]];
    [exists 0 | exists 2 | exists 4 | exists 8];
    (split; [| intros rest events]);
    unfold set_irq_register, get_irq_line, io_bind, out8, in8, emit, io_ret;
    simpl; rewrite <- app_assoc; reflexivity.
Qed.

Lemma set_irq_register_get_irq_line_round_trip_witness :
  exists mask,
    set_irq_register 7 (mkMachine [] []) =
      Returned tt (mkMachine [] [PortOut 548 128; PortOut 549 mask]) /\
    get_irq_line (mkMachine [mask] []) =
      Returned 7 (mkMachine [] [PortOut 548 128; PortIn 549 mask]).
Proof.
  destruct (set_irq_register_get_irq_line_round_trip 7 (mkMachine [] []))
    as (mask & Hset & Hget).
  - simpl. auto.
  - exists mask. split; [exact Hset | exact (Hget [] [])].
Defined.

(** X12. Any other line number fails the [VERIFY_NOT_REACHED] of
    [set_irq_register] before a port is written.  [set_irq_line] reads the
    register first, and as [get_irq_line] hands an unknown register value
    back as it is, [set_irq_line] returns for such a number exactly when
    the register reads that very number and the number is none of the masks
    0, 4 and 8; otherwise it fails after the read. *)
Theorem set_irq_line_unknown_line (irq v : Z) (rest : list Z) (events : list PortEvent) :
  ~ In irq [2; 5; 7; 10] ->
  set_irq_register irq (mkMachine (v :: rest) events) =
    Crashed (mkMachine (v :: rest) events) /\
  let after_read :=
    mkMachine rest (events ++ [PortOut 548 128; PortIn 549 (to_uchar v)]) in
  set_irq_line irq (mkMachine (v :: rest) events) =
    if (irq =? to_uchar v) && negb (existsb (Z.eqb irq) [0; 4; 8])
    then Returned tt after_read
    else Crashed after_read.
Proof.
  intros Hnot. simpl in Hnot.
  assert (irq_bitmask irq = None) as Emask.
  { unfold irq_bitmask.
    destruct (Z.eqb_spec irq 2); [lia |].
    destruct (Z.eqb_spec irq 5); [lia |].
    destruct (Z.eqb_spec irq 7); [lia |].
    destruct (Z.eqb_spec irq 10); [lia |]. reflexivity. }
  split.
  - unfold set_irq_register. rewrite Emask. reflexivity.
  - unfold set_irq_line, get_irq_line, set_irq_register, io_bind, out8, in8,
      emit, io_ret, io_crash.
    rewrite Emask. cbn [inputs log existsb]. rewrite <- app_assoc. cbn [app].
    change (to_uchar 128) with 128.
    unfold irq_of_bitmask.
    destruct (Z.eqb_spec (to_uchar v) 0); [| destruct (Z.eqb_spec (to_uchar v) 2);
      [| destruct (Z.eqb_spec (to_uchar v) 4); [| destruct (Z.eqb_spec (to_uchar v) 8)]]];
    repeat match goal with
           | |- context [Z.eqb ?a ?b] => destruct (Z.eqb_spec a b)
           end;
      cbn [andb orb negb]; try reflexivity; lia.
Qed.

Lemma set_irq_line_unknown_line_witness :
  set_irq_line 3 (mkMachine [3] []) =
    Returned tt (mkMachine [] [PortOut 548 128; PortIn 549 3]) /\
  set_irq_line 3 (mkMachine [2] []) =
    Crashed (mkMachine [] [PortOut 548 128; PortIn 549 2]) /\
  set_irq_line 4 (mkMachine [4] []) =
    Crashed (mkMachine [] [PortOut 548 128; PortIn 549 4]).
Proof.
  refine (conj _ (conj _ _)).
  - apply (set_irq_line_unknown_line 3 3 [] []). simpl. lia.
  - apply (set_irq_line_unknown_line 3 2 [] []). simpl. lia.
  - apply (set_irq_line_unknown_line 4 4 [] []). simpl. lia.
Defined.

Lemma shiftr_8_byte (z : Z) : to_uchar (Z.shiftr z 8) = (z / 256) mod 256.
Proof. unfold to_uchar. rewrite Z.shiftr_div_pow2 by lia. reflexivity. Qed.

Lemma shiftr_16_small (addr : Z) :
  0 <= addr -> (Z.shiftr addr 16 <=? 255) = (addr <? 2 ^ 24).
Proof.
  intros H. rewrite Z.shiftr_div_pow2 by lia. change (2 ^ 16) with 65536.
  change (2 ^ 24) with 16777216.
  destruct (Z.leb_spec (addr / 65536) 255), (Z.ltb_spec addr 16777216);
    try reflexivity; Z.to_euclidean_division_equations; lia.
Qed.

(** The first eight port writes of [dma_start], up to the [VERIFY]. *)
Lemma dma_start_run (addr length : Z) (m : Machine) :
  0 <= addr -> 0 <= length < 2 ^ 32 ->
  let before_verify :=
    log m ++
    [PortOut 212 5; PortOut 216 0; PortOut 214 73;
     PortOut 196 ((addr / 2) mod 256);
     PortOut 196 ((addr / 2 / 256) mod 256);
     PortOut 198 ((length - 1) mod 256);
     PortOut 198 (((length - 1) / 256) mod 256);
     PortOut 139 ((addr / 65536) mod 256)] in
  dma_start addr length m =
    if addr <? 2 ^ 24
    then Returned tt
           (mkMachine (inputs m)
              (before_verify ++ [PortOut 139 (addr / 65536); PortOut 212 1]))
    else Crashed (mkMachine (inputs m) before_verify).
Proof.
  intros Haddr Hlen before_verify. subst before_verify.
  unfold dma_start. rewrite (shiftr_16_small addr Haddr).
  assert (to_uchar (to_uchar ((addr / 2) mod 65536)) = (addr / 2) mod 256) as E1.
  { rewrite to_uchar_idem. unfold to_uchar.
    Z.to_euclidean_division_equations; lia. }
  assert (to_uchar (to_uchar (Z.shiftr ((addr / 2) mod 65536) 8))
          = (addr / 2 / 256) mod 256) as E2.
  { rewrite to_uchar_idem, shiftr_8_byte.
    Z.to_euclidean_division_equations; lia. }
  assert (to_uchar (to_uchar ((length - 1) mod 2 ^ 32)) = (length - 1) mod 256) as E3.
  { rewrite to_uchar_idem. unfold to_uchar. change (2 ^ 32) with 4294967296.
    Z.to_euclidean_division_equations; lia. }
  assert (to_uchar (to_uchar (Z.shiftr ((length - 1) mod 2 ^ 32) 8))
          = ((length - 1) / 256) mod 256) as E4.
  { rewrite to_uchar_idem, shiftr_8_byte. change (2 ^ 32) with 4294967296.
    Z.to_euclidean_division_equations; lia. }
  assert (to_uchar (Z.shiftr addr 16) = (addr / 65536) mod 256) as E5.
  { unfold to_uchar. rewrite Z.shiftr_div_pow2 by lia. reflexivity. }
  unfold io_bind, out8, emit, io_crash. cbn [inputs log].
  rewrite E1, E2, E3, E4, E5.
  change (to_uchar (4 + 5 mod 4)) with 5.
  change (to_uchar 0) with 0.
  change (to_uchar (Z.lor (5 mod 4) 72)) with 73.
  destruct (Z.ltb_spec addr (2 ^ 24)) as [Hlt | Hge].
  - cbn [inputs log].
    assert ((addr / 65536) mod 256 = addr / 65536) as E6.
    { apply Z.mod_small. change (2 ^ 24) with 16777216 in Hlt.
      Z.to_euclidean_division_equations; lia. }
    rewrite !E6. change (to_uchar (5 mod 4)) with 1.
    rewrite <- !app_assoc. reflexivity.
  - rewrite <- !app_assoc. reflexivity.
Qed.

(** X13. For a DMA page below 16 MiB [dma_start] returns after ten port
    writes, reading no port.  The offset and page registers hold the word
    address of the buffer (the page register's bit 0 aside, the address is
    got back from them, up to its own bit 0), and the count register holds
    [length - 1], which for a length of 0 wraps to 65535. *)
Theorem dma_start_programs_buffer (addr length : Z) (m : Machine) :
  0 <= addr < 2 ^ 24 -> 0 <= length <= 65536 ->
  exists offset_lo offset_hi count_lo count_hi page,
    dma_start addr length m =
      Returned tt
        (mkMachine (inputs m)
           (log m ++
            [PortOut 212 5; PortOut 216 0; PortOut 214 73;
             PortOut 196 offset_lo; PortOut 196 offset_hi;
             PortOut 198 count_lo; PortOut 198 count_hi;
             PortOut 139 page; PortOut 139 page; PortOut 212 1])) /\
    Forall (fun b => 0 <= b < 256) [offset_lo; offset_hi; count_lo; count_hi; page] /\
    131072 * (page / 2) + 2 * (offset_lo + 256 * offset_hi) = addr - addr mod 2 /\
    count_lo + 256 * count_hi = (length - 1) mod 65536.
Proof.
  intros Haddr Hlen.
  exists ((addr / 2) mod 256), ((addr / 2 / 256) mod 256),
    ((length - 1) mod 256), (((length - 1) / 256) mod 256), (addr / 65536).
  change (2 ^ 24) with 16777216 in Haddr.
  split; [| split; [| split]].
  - rewrite dma_start_run by (change (2 ^ 32) with 4294967296; lia).
    destruct (Z.ltb_spec addr (2 ^ 24)) as [_ | Hge];
      [| change (2 ^ 24) with 16777216 in Hge; lia].
    assert ((addr / 65536) mod 256 = addr / 65536) as E
      by (apply Z.mod_small; Z.to_euclidean_division_equations; lia).
    rewrite E, <- !app_assoc. reflexivity.
  - repeat constructor; Z.to_euclidean_division_equations; lia.
  - Z.to_euclidean_division_equations; lia.
  - Z.to_euclidean_division_equations; lia.
Qed.

Lemma dma_start_programs_buffer_witness :
  dma_start 1191936 4096 (mkMachine [] []) =
    Returned tt
      (mkMachine []
         [PortOut 212 5; PortOut 216 0; PortOut 214 73;
          PortOut 196 0; PortOut 196 24; PortOut 198 255; PortOut 198 15;
          PortOut 139 18; PortOut 139 18; PortOut 212 1]) /\
  131072 * (18 / 2) + 2 * (0 + 256 * 24) = 1191936.
Proof.
  destruct (dma_start_programs_buffer 1191936 4096 (mkMachine [] []))
    as (ol & oh & cl & ch & p & Hrun & _ & _ & _); [lia | lia |].
  split; [vm_compute; reflexivity | reflexivity].
Defined.

(** X14. For a DMA page at or above 16 MiB the [VERIFY] of [dma_start]
    fails, but only after eight ports have been written, the last of them
    the page register with the page number cut to its low byte. *)
Theorem dma_start_high_page_fails_late (addr length : Z) (m : Machine) :
  2 ^ 24 <= addr -> 0 <= length < 2 ^ 32 ->
  exists written,
    dma_start addr length m = Crashed (mkMachine (inputs m) (log m ++ written)) /\
    outputs written =
      [(212, 5); (216, 0); (214, 73);
       (196, (addr / 2) mod 256); (196, (addr / 2 / 256) mod 256);
       (198, (length - 1) mod 256); (198, ((length - 1) / 256) mod 256);
       (139, (addr / 65536) mod 256)].
Proof.
  intros Haddr Hlen.
  assert (0 <= addr) as H0 by (change (2 ^ 24) with 16777216 in Haddr; lia).
  rewrite (dma_start_run addr length m H0 Hlen).
  destruct (Z.ltb_spec addr (2 ^ 24)) as [Hlt | _]; [lia |].
  eexists. split; reflexivity.
Qed.

Lemma dma_start_high_page_fails_late_witness :
  exists written,
    dma_start 16777216 4096 (mkMachine [] []) = Crashed (mkMachine [] written) /\
    outputs written =
      [(212, 5); (216, 0); (214, 73); (196, 0); (196, 0);
       (198, 255); (198, 15); (139, 0)].
Proof.
  destruct (dma_start_high_page_fails_late 16777216 4096 (mkMachine [] []))
    as (written & Hrun & Hout); [vm_compute; discriminate | vm_compute; split;
      [discriminate | reflexivity] |].
  exists written. split; [exact Hrun | exact Hout].
Defined.

Lemma io_bind_returns {A B} (c : IO A) (k : A -> IO B) (m : Machine) (b : B)
  (m' : Machine) :
  io_bind c k m = Returned b m' ->
  exists a m1, c m = Returned a m1 /\ k a m1 = Returned b m'.
Proof.
  unfold io_bind. destruct (c m) as [a m1 | m1 |]; try discriminate.
  intros H. exists a, m1. auto.
Qed.

Lemma sample_count_of_small (length : Z) :
  0 <= length <= PAGE_SIZE ->
  sample_count_of length = (length / 4 - 1) mod 65536.
Proof.
  unfold PAGE_SIZE, sample_count_of. intros H.
  change (negb (Z.land (Z.lor 16 32) 32 =? 0)) with true. cbv iota.
  Z.to_euclidean_division_equations; lia.
Qed.

Lemma spin_write_answers (answers : list Z) : forall events,
  match spin DSP_WRITE bit7 answers events with
  | Returned _ m' =>
      skip_busy answers = Some (inputs m') /\ outputs (log m') = outputs events
  | Crashed _ => False
  | Starved => skip_busy answers = None
  end.
Proof.
  induction answers as [| v answers IH]; intros events; simpl; [reflexivity |].
  assert (outputs (events ++ [PortIn DSP_WRITE (to_uchar v)]) = outputs events) as Eo
    by (rewrite outputs_app; simpl; apply app_nil_r).
  destruct (bit7 (to_uchar v)).
  - specialize (IH (events ++ [PortIn DSP_WRITE (to_uchar v)])).
    rewrite Eo in IH. exact IH.
  - simpl. auto.
Qed.

(** [dsp_write] in terms of the answers it uses up. *)
Lemma dsp_write_answers (value : Z) (m : Machine) :
  match dsp_write value m with
  | Returned _ m' =>
      skip_busy (inputs m) = Some (inputs m') /\
      outputs (log m') = outputs (log m) ++ [(DSP_WRITE, to_uchar value)]
  | Crashed _ => False
  | Starved => skip_busy (inputs m) = None
  end.
Proof.
  unfold dsp_write, io_bind.
  pose proof (spin_write_answers (inputs m) (log m)) as H.
  destruct (spin DSP_WRITE bit7 (inputs m) (log m)) as [[] m1 | m1 |];
    [| exact H | exact H].
  destruct H as [Hi Ho]. unfold out8, emit. simpl.
  rewrite outputs_app, Ho. simpl. auto.
Qed.

Lemma answers_after_writes_add (n k : nat) : forall answers,
  answers_after_writes (n + k) answers =
    match answers_after_writes n answers with
    | Some rest => answers_after_writes k rest
    | None => None
    end.
Proof.
  induction n as [| n IH]; intros answers; simpl; [reflexivity |].
  destruct (skip_busy answers) as [rest |]; [apply IH | reflexivity].
Qed.

Lemma answers_after_one_more (n : nat) (answers rest rest' : list Z) :
  answers_after_writes n answers = Some rest ->
  skip_busy rest = Some rest' ->
  answers_after_writes (S n) answers = Some rest'.
Proof.
  intros Hn Hs. replace (S n) with (n + 1)%nat by lia.
  rewrite answers_after_writes_add, Hn. simpl. rewrite Hs. reflexivity.
Qed.

Lemma answers_run_out (n k : nat) (answers rest : list Z) :
  answers_after_writes n answers = Some rest ->
  skip_busy rest = None ->
  answers_after_writes (n + S k) answers = None.
Proof.
  intros Hn Hs. rewrite answers_after_writes_add, Hn. simpl. rewrite Hs.
  reflexivity.
Qed.

(** Runs the next [dsp_write] of the goal as write number [S n], given what
    the first [n] writes left of the answers [answers]. *)
Ltac dsp_write_count An An' Ho Hs :=
  match goal with
  | |- context [dsp_write ?v ?m] =>
      let H := fresh "H" in
      let m' := fresh "m" in
      pose proof (dsp_write_answers v m) as H;
      destruct (dsp_write v m) as [[] m' | m' |];
      [destruct H as [H Ho]; cbn [inputs log] in H, Ho;
       pose proof (answers_after_one_more _ _ _ _ An H) as An'; clear H
      | destruct H
      | cbn [inputs log] in H; rename H into Hs]
  end.

Lemma set_sample_rate_answers (hz : Z) (m : Machine) :
  match set_sample_rate hz m with
  | Returned _ m' =>
      answers_after_writes 6 (inputs m) = Some (inputs m') /\
      outputs (log m') =
        outputs (log m) ++
        [(DSP_WRITE, 65);
         (DSP_WRITE, to_uchar (Z.shiftr hz 8)); (DSP_WRITE, to_uchar hz);
         (DSP_WRITE, 66);
         (DSP_WRITE, to_uchar (Z.shiftr hz 8)); (DSP_WRITE, to_uchar hz)]
  | Crashed _ => False
  | Starved => answers_after_writes 6 (inputs m) = None
  end.
Proof.
  unfold set_sample_rate, io_bind.
  assert (answers_after_writes 0 (inputs m) = Some (inputs m)) as A0 by reflexivity.
  dsp_write_count A0 A1 O1 Hs;
    [| exact (answers_run_out 0 5 _ _ A0 Hs)].
  dsp_write_count A1 A2 O2 Hs;
    [| exact (answers_run_out 1 4 _ _ A1 Hs)].
  dsp_write_count A2 A3 O3 Hs;
    [| exact (answers_run_out 2 3 _ _ A2 Hs)].
  dsp_write_count A3 A4 O4 Hs;
    [| exact (answers_run_out 3 2 _ _ A3 Hs)].
  dsp_write_count A4 A5 O5 Hs;
    [| exact (answers_run_out 4 1 _ _ A4 Hs)].
  dsp_write_count A5 A6 O6 Hs;
    [| exact (answers_run_out 5 0 _ _ A5 Hs)].
  split; [exact A6 |].
  rewrite O6, O5, O4, O3, O2, O1, !to_uchar_idem, <- !app_assoc. reflexivity.
Qed.

(** [handle_irq] in terms of the answers it uses up: its command waits for
    the DSP like any write, and each of its reads takes one answer. *)
Lemma handle_irq_answers (version : Z) (m : Machine) :
  match handle_irq version m with
  | Returned _ m' =>
      exists rest,
        skip_busy (inputs m) = Some rest /\
        (acknowledge_reads version <= length rest)%nat /\
        inputs m' = drop (acknowledge_reads version) rest /\
        outputs (log m') = outputs (log m) ++ [(DSP_WRITE, 213)]
  | Crashed _ => False
  | Starved =>
      forall rest, skip_busy (inputs m) = Some rest ->
                   (length rest < acknowledge_reads version)%nat
  end.
Proof.
  unfold handle_irq, acknowledge_reads, io_bind.
  pose proof (dsp_write_answers 213 m) as H.
  destruct (dsp_write 213 m) as [[] m1 | m1 |];
    [| exact H | intros rest Hrest; congruence].
  destruct H as [Hs Ho]. unfold in8 at 1.
  destruct (inputs m1) as [| v1 rest1] eqn:E1.
  { intros rest Hrest. assert (rest = []) as -> by congruence.
    destruct (4 <=? version); simpl; lia. }
  destruct (4 <=? version).
  - unfold in8, emit, io_ret. cbn [inputs log].
    destruct rest1 as [| v2 rest2].
    + intros rest Hrest. assert (rest = [v1]) as -> by congruence. simpl. lia.
    + cbn [inputs log]. exists (v1 :: v2 :: rest2).
      split; [exact Hs |]. split; [simpl; lia |]. split; [reflexivity |].
      rewrite !outputs_app, Ho. simpl. rewrite !app_nil_r. reflexivity.
  - unfold emit, io_ret. cbn [inputs log]. exists (v1 :: rest1).
    split; [exact Hs |]. split; [simpl; lia |]. split; [reflexivity |].
    rewrite !outputs_app, Ho. simpl. rewrite !app_nil_r. reflexivity.
Qed.

(** X15. A write of at most a page that finds (or gets) its DMA page below
    16 MiB and can copy the caller's buffer programs, in this order: the
    sample rate 44100 twice, the DMA controller for the page with count
    [length - 1], and the DSP with command 0xB0, mode 0x30 and the sample
    count [length / 4 - 1] (both counts wrap to 65535 for the lengths that
    make them negative).  Then it sleeps until the interrupt handler has
    acknowledged the interrupt with command 0xD5 and woken it.  It fails no
    [VERIFY].  It returns the length, with the page kept in the device,
    exactly when the interrupt arrives and the answers hold out: the DSP
    shows itself ready eleven times (ten writes of the transfer, one of the
    handler) and the handler's reads are answered.  Without the interrupt
    it sleeps for ever. *)
Theorem sb16_write_programs_transfer (env : WriteEnv) (dev : SB16)
  (addr length : Z) (m : Machine) :
  ensure_dma_region env dev = Some addr ->
  copy_succeeds env = true ->
  0 <= addr < 2 ^ 24 ->
  0 <= length <= PAGE_SIZE ->
  match sb16_write env dev length m with
  | Returned (dev', result) m' =>
      result = inr length /\
      dev' = mkSB16 (m_major_version dev) (Some addr) /\
      outputs (log m') =
        outputs (log m) ++
        [(DSP_WRITE, 65); (DSP_WRITE, 172); (DSP_WRITE, 68);
         (DSP_WRITE, 66); (DSP_WRITE, 172); (DSP_WRITE, 68);
         (212, 5); (216, 0); (214, 73);
         (196, (addr / 2) mod 256); (196, (addr / 2 / 256) mod 256);
         (198, (length - 1) mod 256); (198, ((length - 1) / 256) mod 256);
         (139, addr / 65536); (139, addr / 65536); (212, 1);
         (DSP_WRITE, 176); (DSP_WRITE, 48);
         (DSP_WRITE, (length / 4 - 1) mod 256);
         (DSP_WRITE, ((length / 4 - 1) / 256) mod 256);
         (DSP_WRITE, 213)] /\
      irq_arrives env = true /\
      exists rest,
        answers_after_writes 11 (inputs m) = Some rest /\
        (acknowledge_reads (m_major_version dev) <= List.length rest)%nat /\
        inputs m' = drop (acknowledge_reads (m_major_version dev)) rest
  | Crashed _ => False
  | Starved =>
      irq_arrives env = false \/
      forall rest,
        answers_after_writes 11 (inputs m) = Some rest ->
        (List.length rest < acknowledge_reads (m_major_version dev))%nat
  end.
Proof.
  intros Hregion Hcopy Haddr Hlen.
  pose proof Hlen as Hlen'. unfold PAGE_SIZE in Hlen'.
  change (2 ^ 24) with 16777216 in Haddr.
  unfold sb16_write. rewrite Hregion, Hcopy.
  destruct (Z.leb_spec length PAGE_SIZE) as [_ | Hgt]; [| lia].
  destruct (Z.ltb_spec BLOCK_SIZE length) as [Hgt | _];
    [unfold BLOCK_SIZE in Hgt; lia |].
  cbn [negb]. unfold io_bind at 1.
  pose proof (set_sample_rate_answers 44100 m) as Hrate.
  destruct (set_sample_rate 44100 m) as [[] m1 | m1 |];
    [| exact Hrate
     | right; intros rest Hrest;
       pose proof (answers_after_writes_add 6 5 (inputs m)) as E;
       rewrite Hrate in E; cbn [Nat.add] in E; congruence].
  destruct Hrate as [A6 O1].
  unfold io_bind at 1.
  rewrite Z.mod_small by (change (2 ^ 32) with 4294967296; lia).
  rewrite dma_start_run by (change (2 ^ 32) with 4294967296; lia).
  destruct (Z.ltb_spec addr (2 ^ 24)) as [_ | Hge];
    [| change (2 ^ 24) with 16777216 in Hge; lia].
  assert ((addr / 65536) mod 256 = addr / 65536) as Epage
    by (apply Z.mod_small; Z.to_euclidean_division_equations; lia).
  rewrite Epage.
  unfold wait_for_irq, io_bind, emit, io_ret. cbn [inputs log].
  dsp_write_count A6 A7 O2 Hs;
    [| right; intros rest Hrest;
       pose proof (answers_run_out 6 4 _ _ A6 Hs) as E;
       cbn [Nat.add] in E; congruence].
  dsp_write_count A7 A8 O3 Hs;
    [| right; intros rest Hrest;
       pose proof (answers_run_out 7 3 _ _ A7 Hs) as E;
       cbn [Nat.add] in E; congruence].
  dsp_write_count A8 A9 O4 Hs;
    [| right; intros rest Hrest;
       pose proof (answers_run_out 8 2 _ _ A8 Hs) as E;
       cbn [Nat.add] in E; congruence].
  dsp_write_count A9 A10 O5 Hs;
    [| right; intros rest Hrest;
       pose proof (answers_run_out 9 1 _ _ A9 Hs) as E;
       cbn [Nat.add] in E; congruence].
  cbn [inputs log].
  destruct (irq_arrives env); [| left; reflexivity].
  match goal with
  | |- context [handle_irq ?v ?mm] =>
      pose proof (handle_irq_answers v mm) as Hirq;
      destruct (handle_irq v mm) as [woken m6 | m6 |]
  end; cbn [inputs log] in Hirq.
  - destruct Hirq as (rest & Hs & Hlen6 & Hin6 & O6). cbn [inputs log].
    refine (conj eq_refl (conj eq_refl (conj _ (conj eq_refl _)))).
    + rewrite !outputs_app, O6, !outputs_app, O5, O4, O3, O2, !outputs_app, O1.
      rewrite !to_uchar_idem, !shiftr_8_byte, !sample_count_of_small by exact Hlen.
      assert (to_uchar ((length / 4 - 1) mod 65536) = (length / 4 - 1) mod 256) as E1
        by (unfold to_uchar; Z.to_euclidean_division_equations; lia).
      assert (((length / 4 - 1) mod 65536 / 256) mod 256
              = ((length / 4 - 1) / 256) mod 256) as E2
        by (Z.to_euclidean_division_equations; lia).
      rewrite E1, E2. cbn [outputs app]. rewrite <- !app_assoc. reflexivity.
    + exists rest. split; [exact (answers_after_one_more _ _ _ _ A10 Hs) |].
      split; [exact Hlen6 | exact Hin6].
  - exact Hirq.
  - right. intros rest Hrest.
    match type of A10 with
    | _ = Some ?left => destruct (skip_busy left) as [rest' |] eqn:Es
    end.
    + rewrite (answers_after_one_more _ _ _ _ A10 Es) in Hrest.
      injection Hrest as <-. apply Hirq. reflexivity.
    + pose proof (answers_run_out 10 0 _ _ A10 Es) as E.
      cbn [Nat.add] in E. congruence.
Qed.

Lemma sb16_write_programs_transfer_witness :
  match sb16_write (mkWriteEnv (Some 1191936) true true true true) (mkSB16 4 None) 4096
          (mkMachine (repeat 0 13) []) with
  | Returned (dev', result) m' =>
      result = inr 4096 /\
      dev' = mkSB16 4 (Some 1191936) /\
      outputs (log m') =
        [(DSP_WRITE, 65); (DSP_WRITE, 172); (DSP_WRITE, 68);
         (DSP_WRITE, 66); (DSP_WRITE, 172); (DSP_WRITE, 68);
         (212, 5); (216, 0); (214, 73); (196, 0); (196, 24);
         (198, 255); (198, 15); (139, 18); (139, 18); (212, 1);
         (DSP_WRITE, 176); (DSP_WRITE, 48); (DSP_WRITE, 255); (DSP_WRITE, 3);
         (DSP_WRITE, 213)] /\
      inputs m' = []
  | _ => False
  end /\
  sb16_write (mkWriteEnv (Some 1191936) true true true false) (mkSB16 4 None) 4096
    (mkMachine (repeat 0 13) []) = Starved.
Proof.
  split.
  - pose proof (sb16_write_programs_transfer
                  (mkWriteEnv (Some 1191936) true true true true) (mkSB16 4 None)
                  1191936 4096 (mkMachine (repeat 0 13) [])
                  eq_refl eq_refl ltac:(lia) ltac:(unfold PAGE_SIZE; lia)) as H.
    destruct (sb16_write _ _ _ _) as [[dev' result] m' | m' |] eqn:E.
    + destruct H as (H1 & H2 & H3 & _ & rest & Hr & _ & Hi).
      refine (conj H1 (conj H2 (conj H3 _))).
      vm_compute in Hr. injection Hr as <-. exact Hi.
    + exact H.
    + vm_compute in E. discriminate E.
  - reflexivity.
Defined.

(** X16. [SB16::write] never answers [ENOSPC]: the [VERIFY] in front of the
    block-size test already stops every length above a page, and a page is
    smaller than the block.  A length above a page either fails that
    [VERIFY] with no port touched, or ends in [ENOMEM] because no DMA page
    could be had. *)
Theorem sb16_write_ENOSPC_unreachable (env : WriteEnv) (dev : SB16)
  (length : Z) (m : Machine) :
  (forall dev' m', sb16_write env dev length m <> Returned (dev', inl ENOSPC) m') /\
  (PAGE_SIZE < length ->
   sb16_write env dev length m = Crashed m \/
   sb16_write env dev length m = Returned (dev, inl ENOMEM) m).
Proof.
  split.
  - intros dev' m' H. unfold sb16_write in H.
    destruct (ensure_dma_region env dev) as [addr |]; [| discriminate H].
    destruct (Z.leb_spec length PAGE_SIZE) as [Hle | Hgt];
      cbn [negb] in H; [| discriminate H].
    destruct (Z.ltb_spec BLOCK_SIZE length) as [Hb | _];
      [unfold BLOCK_SIZE, PAGE_SIZE in *; lia |].
    apply io_bind_returns in H as (? & m1 & _ & H).
    destruct (negb (copy_succeeds env)); [discriminate H |].
    repeat (apply io_bind_returns in H as (? & ? & _ & H)).
    discriminate H.
  - intros Hgt. unfold sb16_write.
    destruct (ensure_dma_region env dev) as [addr |]; [left | right; reflexivity].
    destruct (Z.leb_spec length PAGE_SIZE) as [Hle | _]; [lia | reflexivity].
Qed.

(** X17. When the caller's buffer cannot be copied, [SB16::write] answers
    [EFAULT] only after the sample rate has gone out to the DSP: six port
    writes are made, the DMA controller is not touched, and the DMA page
    stays with the device. *)
Theorem sb16_write_EFAULT_after_sample_rate (env : WriteEnv) (dev : SB16)
  (addr length : Z) (m : Machine) :
  ensure_dma_region env dev = Some addr ->
  copy_succeeds env = false ->
  length <= PAGE_SIZE ->
  match sb16_write env dev length m with
  | Returned (dev', result) m' =>
      result = inl EFAULT /\
      dev' = mkSB16 (m_major_version dev) (Some addr) /\
      outputs (log m') =
        outputs (log m) ++
        [(DSP_WRITE, 65); (DSP_WRITE, 172); (DSP_WRITE, 68);
         (DSP_WRITE, 66); (DSP_WRITE, 172); (DSP_WRITE, 68)]
  | Crashed _ => False
  | Starved => (ready_count (inputs m) < 6)%nat
  end.
Proof.
  intros Hregion Hcopy Hlen. unfold sb16_write. rewrite Hregion, Hcopy.
  destruct (Z.leb_spec length PAGE_SIZE) as [_ | Hgt]; [| lia].
  destruct (Z.ltb_spec BLOCK_SIZE length) as [Hgt | _];
    [unfold BLOCK_SIZE, PAGE_SIZE in *; lia |].
  cbn [negb]. unfold io_bind.
  pose proof (set_sample_rate_run 44100 m) as Hrate.
  destruct (set_sample_rate 44100 m) as [[] m1 | m1 |]; [| exact Hrate | exact Hrate].
  destruct Hrate as [O1 _]. unfold io_ret.
  refine (conj eq_refl (conj eq_refl _)). exact O1.
Qed.

Lemma sb16_write_EFAULT_after_sample_rate_witness :
  match sb16_write (mkWriteEnv None true true false false) (mkSB16 4 (Some 1191936)) 16
          (mkMachine (repeat 0 6) []) with
  | Returned (dev', result) m' =>
      result = inl EFAULT /\
      dev' = mkSB16 4 (Some 1191936) /\
      outputs (log m') =
        [(DSP_WRITE, 65); (DSP_WRITE, 172); (DSP_WRITE, 68);
         (DSP_WRITE, 66); (DSP_WRITE, 172); (DSP_WRITE, 68)]
  | _ => False
  end.
Proof.
  pose proof (sb16_write_EFAULT_after_sample_rate
                (mkWriteEnv None true true false false) (mkSB16 4 (Some 1191936))
                1191936 16 (mkMachine (repeat 0 6) [])
                eq_refl eq_refl ltac:(unfold PAGE_SIZE; lia)) as H.
  destruct (sb16_write _ _ _ _) as [[dev' result] m' | m' |].
  - exact H.
  - exact H.
  - vm_compute in H. lia.
Defined.

Lemma spin_status_answers (answers : list Z) : forall events,
  match spin DSP_STATUS (fun v => negb (bit7 v)) answers events with
  | Returned _ m' =>
      answer_read answers =
        match inputs m' with
        | [] => None
        | data :: rest => Some (to_uchar data, rest)
        end /\
      outputs (log m') = outputs events
  | Crashed _ => False
  | Starved => answer_read answers = None
  end.
Proof.
  induction answers as [| v answers IH]; intros events; simpl; [reflexivity |].
  assert (outputs (events ++ [PortIn DSP_STATUS (to_uchar v)]) = outputs events) as Eo
    by (rewrite outputs_app; simpl; apply app_nil_r).
  destruct (bit7 (to_uchar v)); simpl.
  - auto.
  - specialize (IH (events ++ [PortIn DSP_STATUS (to_uchar v)])).
    rewrite Eo in IH. exact IH.
Qed.

(** [dsp_read] in terms of the answers it uses up. *)
Lemma dsp_read_answers (m : Machine) :
  match dsp_read m with
  | Returned data m' =>
      answer_read (inputs m) = Some (data, inputs m') /\
      outputs (log m') = outputs (log m)
  | Crashed _ => False
  | Starved => answer_read (inputs m) = None
  end.
Proof.
  unfold dsp_read, io_bind.
  pose proof (spin_status_answers (inputs m) (log m)) as H.
  destruct (spin DSP_STATUS _ (inputs m) (log m)) as [[] m1 | m1 |];
    [| exact H | exact H].
  destruct H as [Ha Ho]. unfold in8.
  destruct (inputs m1) as [| data rest]; [exact Ha |].
  cbn [inputs log]. split; [exact Ha |].
  rewrite outputs_app, Ho. simpl. apply app_nil_r.
Qed.

(** Runs the next [dsp_read] of the goal. *)
Ltac dsp_read_next Ha Ho :=
  match goal with
  | |- context [dsp_read ?m] =>
      let v := fresh "v" in
      let m' := fresh "m" in
      pose proof (dsp_read_answers m) as Ha;
      destruct (dsp_read m) as [v m' | m' |];
      [destruct Ha as [Ha Ho]; cbn [inputs log] in Ha, Ho
      | destruct Ha
      | cbn [inputs log] in Ha]
  end.

(** X18. [SB16::initialize] fails no [VERIFY] and leaves the DMA region
    alone, and what it does is decided by what the DSP answers.  When the
    byte the DSP answers to the reset is not 0xAA, it returns with the
    device unchanged and only the two reset writes made.  When the byte is
    0xAA, it sends the version command 0xE1, takes the next byte the DSP
    answers as the major version and one more as the minor version, sets
    the IRQ register to the mask of line 5 and selects it once more to read
    it back; it returns exactly when the answers hold out that far. *)
Theorem sb16_initialize_outcomes (dev : SB16) (m : Machine) :
  match answer_read (inputs m) with
  | None => sb16_initialize dev m = Starved
  | Some (data, rest) =>
      if data =? 170 then
        match sb16_initialize dev m with
        | Returned dev' m' =>
            m_dma_region dev' = m_dma_region dev /\
            (exists after_command rest' vmin rest'' line,
               skip_busy rest = Some after_command /\
               answer_read after_command = Some (m_major_version dev', rest') /\
               answer_read rest' = Some (vmin, rest'') /\
               rest'' = line :: inputs m') /\
            outputs (log m') =
              outputs (log m) ++
              [(550, 1); (550, 0); (DSP_WRITE, 225);
               (548, 128); (549, 2); (548, 128)]
        | Crashed _ => False
        | Starved =>
            forall after_command major rest' vmin rest'',
              skip_busy rest = Some after_command ->
              answer_read after_command = Some (major, rest') ->
              answer_read rest' = Some (vmin, rest'') ->
              rest'' = []
        end
      else
        exists m',
          sb16_initialize dev m = Returned dev m' /\
          inputs m' = rest /\
          outputs (log m') = outputs (log m) ++ [(550, 1); (550, 0)]
  end.
Proof.
  unfold sb16_initialize, dsp_reset, io_bind, out8, emit. cbn [inputs log].
  dsp_read_next A1 O1; [| rewrite A1; reflexivity].
  rewrite A1.
  assert (outputs (log m0) = outputs (log m) ++ [(550, 1); (550, 0)]) as O1'.
  { rewrite O1, !outputs_app, <- !app_assoc. reflexivity. }
  destruct (v =? 170); cbn [negb]; unfold io_ret.
  2: { exists m0. auto. }
  pose proof (dsp_write_answers 225 m0) as Hw.
  destruct (dsp_write 225 m0) as [[] m1 | m1 |];
    [| exact Hw | intros ? ? ? ? ? Hs; congruence].
  destruct Hw as [S2 O2].
  dsp_read_next A3 O3;
    [| intros ac major r' vm r'' Hs Ha; assert (ac = inputs m1) by congruence;
       subst ac; congruence].
  dsp_read_next A4 O4;
    [| intros ac major r' vm r'' Hs Ha Hb;
       assert (ac = inputs m1) by congruence; subst ac;
       assert (r' = inputs m2) by congruence; subst r'; congruence].
  unfold set_irq_register, get_irq_line, io_bind, out8, emit, in8, io_ret.
  change (irq_bitmask SB16_DEFAULT_IRQ) with (Some 2).
  cbn [inputs log]. destruct (inputs m3) as [| line rest4] eqn:E4.
  - intros ac major r' vm r'' Hs Ha Hb.
    assert (ac = inputs m1) by congruence; subst ac.
    assert (r' = inputs m2) by congruence; subst r'. congruence.
  - cbn [m_dma_region m_major_version inputs log].
    split; [reflexivity |]. split.
    + exists (inputs m1), (inputs m2), v1, (inputs m3), line.
      rewrite E4. auto.
    + rewrite !outputs_app, O4, O3, O2, O1'. cbn [outputs].
      rewrite <- !app_assoc. reflexivity.
Qed.

(** ** Timers *)

Ltac timer_lia :=
  unfold has_expired, reload, micros, normalized, sooner in *;
  cbn [fire_time tv_sec tv_usec interval] in *;
  Z.to_euclidean_division_equations; lia.

Lemma has_expired_true (t : EventLoopTimer) (now : timeval) :
  has_expired t now = true <->
  tv_sec (fire_time t) < tv_sec now \/
  (tv_sec now = tv_sec (fire_time t) /\ tv_usec (fire_time t) <= tv_usec now).
Proof.
  unfold has_expired.
  rewrite orb_true_iff, andb_true_iff, Z.gtb_lt, Z.eqb_eq, Z.geb_le. tauto.
Qed.

(** X19. A timer reloaded at [now] stands for the instant [now + interval]
    and is never late: it tests as expired at every clock reading from that
    instant on, and at none more than a second before it.  When adding the
    interval's odd milliseconds does not carry the microseconds past a
    second, the test is exact. *)
Theorem reload_then_has_expired (t : EventLoopTimer) (now now' : timeval) :
  normalized now -> normalized now' -> 0 <= interval t ->
  micros (fire_time (reload t now)) = micros now + 1000 * interval t /\
  (micros now + 1000 * interval t <= micros now' ->
   has_expired (reload t now) now' = true) /\
  (has_expired (reload t now) now' = true ->
   micros now + 1000 * interval t - 1000000 < micros now') /\
  (tv_usec now + (interval t mod 1000) * 1000 < 1000000 ->
   (has_expired (reload t now) now' = true <->
    micros now + 1000 * interval t <= micros now')).
Proof.
  intros Hn Hn' Hi.
  refine (conj _ (conj _ (conj _ _))).
  - timer_lia.
  - intros H. apply has_expired_true. timer_lia.
  - intros H. apply has_expired_true in H. timer_lia.
  - intros Hc. rewrite has_expired_true. timer_lia.
Qed.

Lemma reload_then_has_expired_witness :
  has_expired
    (reload (mkEventLoopTimer 1 2500 (mk_timeval 0 0) true Yes None)
       (mk_timeval 10 400000))
    (mk_timeval 12 900000) = true /\
  has_expired
    (reload (mkEventLoopTimer 1 2500 (mk_timeval 0 0) true Yes None)
       (mk_timeval 10 400000))
    (mk_timeval 12 899999) = false.
Proof.
  destruct (reload_then_has_expired
              (mkEventLoopTimer 1 2500 (mk_timeval 0 0) true Yes None)
              (mk_timeval 10 400000) (mk_timeval 12 900000))
    as (_ & Hdue & _ & _).
  - unfold normalized. simpl. lia.
  - unfold normalized. simpl. lia.
  - simpl. lia.
  - split; [apply Hdue; unfold micros; simpl; lia | reflexivity].
Defined.

(** X20. [reload] does not carry microseconds into seconds, and
    [has_expired] compares field by field.  So a timer reloaded at a clock
    reading whose microseconds, with the interval's odd milliseconds added,
    pass one second tests as expired at the next full second, which is
    before its interval has run out. *)
Theorem reload_fires_early (t : EventLoopTimer) (now : timeval) :
  normalized now -> 0 <= interval t ->
  1000000 < tv_usec now + (interval t mod 1000) * 1000 ->
  let now' := mk_timeval (tv_sec now + interval t / 1000 + 1) 0 in
  normalized now' /\
  has_expired (reload t now) now' = true /\
  micros now' < micros now + 1000 * interval t.
Proof.
  intros Hn Hi Hc now'. subst now'.
  refine (conj _ (conj _ _)).
  - timer_lia.
  - apply has_expired_true. timer_lia.
  - timer_lia.
Qed.

Lemma reload_fires_early_witness :
  has_expired
    (reload (mkEventLoopTimer 1 999 (mk_timeval 0 0) true Yes None)
       (mk_timeval 10 999999))
    (mk_timeval 11 0) = true /\
  micros (mk_timeval 11 0) - micros (mk_timeval 10 999999) = 1.
Proof.
  destruct (reload_fires_early
              (mkEventLoopTimer 1 999 (mk_timeval 0 0) true Yes None)
              (mk_timeval 10 999999))
    as (_ & Hexp & _).
  - unfold normalized. simpl. lia.
  - simpl. lia.
  - reflexivity.
  - split; [exact Hexp | reflexivity].
Defined.

Lemma sooner_true (a b : timeval) :
  sooner a b = true <->
  tv_sec a < tv_sec b \/ (tv_sec a = tv_sec b /\ tv_usec a < tv_usec b).
Proof.
  unfold sooner. rewrite orb_true_iff, andb_true_iff, !Z.ltb_lt, Z.eqb_eq. tauto.
Qed.

Lemma sooner_false (a b : timeval) :
  sooner a b = false <->
  tv_sec b < tv_sec a \/ (tv_sec a = tv_sec b /\ tv_usec b <= tv_usec a).
Proof.
  rewrite <- not_true_iff_false, sooner_true. lia.
Qed.

(** X21. [get_next_timer_expiration] gives nothing exactly when every timer
    is passed over as not visible (or there is none); otherwise it gives the
    fire time of a timer that is not passed over, and no such timer has a
    sooner one. *)
Theorem get_next_timer_expiration_soonest (s_timers : list EventLoopTimer) :
  match get_next_timer_expiration s_timers with
  | None => forall t, In t s_timers -> skipped_as_not_visible t = true
  | Some soonest =>
      (exists t, In t s_timers /\ skipped_as_not_visible t = false /\
                 fire_time t = soonest) /\
      forall t, In t s_timers -> skipped_as_not_visible t = false ->
                sooner (fire_time t) soonest = false
  end.
Proof.
  unfold get_next_timer_expiration.
  induction s_timers as [| t l IH] using rev_ind; [simpl; tauto |].
  rewrite fold_left_app. cbn [fold_left].
  destruct (skipped_as_not_visible t) eqn:Hs.
  - destruct (fold_left _ l None) as [s |].
    + destruct IH as [(t0 & Hin & Hv & Hf) Hmin]. split.
      * exists t0. rewrite in_app_iff. auto.
      * intros t' Hin' Hv'. apply in_app_iff in Hin' as [Hin' | [<- | []]];
          [auto | congruence].
    + intros t' Hin'. apply in_app_iff in Hin' as [Hin' | [<- | []]]; auto.
  - destruct (fold_left _ l None) as [s |].
    + destruct IH as [(t0 & Hin & Hv & Hf) Hmin].
      destruct (sooner (fire_time t) s) eqn:Hso.
      * split; [exists t; rewrite in_app_iff; simpl; auto |].
        intros t' Hin' Hv'. apply in_app_iff in Hin' as [Hin' | [<- | []]].
        -- specialize (Hmin t' Hin' Hv'). apply sooner_false in Hmin.
           apply sooner_true in Hso. apply sooner_false. lia.
        -- apply sooner_false. lia.
      * split; [exists t0; rewrite in_app_iff; auto |].
        intros t' Hin' Hv'. apply in_app_iff in Hin' as [Hin' | [<- | []]];
          [auto | exact Hso].
    + split; [exists t; rewrite in_app_iff; simpl; auto |].
      intros t' Hin' Hv'. apply in_app_iff in Hin' as [Hin' | [<- | []]].
      * rewrite (IH t' Hin') in Hv'. discriminate.
      * apply sooner_false. lia.
Qed.

Lemma due_true (now : timeval) (t : EventLoopTimer) :
  due now t = true <-> has_expired t now = true /\ skipped_as_not_visible t = false.
Proof. unfold due. rewrite andb_true_iff, negb_true_iff. tauto. Qed.

Lemma fire_timers_test (now : timeval) (t : EventLoopTimer) :
  negb (has_expired t now) || skipped_as_not_visible t = negb (due now t).
Proof.
  unfold due. destruct (has_expired t now), (skipped_as_not_visible t); reflexivity.
Qed.

(** X22. The timer loop of [wait_for_event] fails its [VERIFY_NOT_REACHED]
    exactly when some timer that is expired and not passed over is not a
    reloading one: a single-shot timer cannot fire. *)
Theorem fire_timers_single_shot_fails (now : timeval)
  (s_timers : list EventLoopTimer) (m_queued_events : list TimerEvent) :
  fire_timers now s_timers m_queued_events = None <->
  exists t, In t s_timers /\ has_expired t now = true /\
            skipped_as_not_visible t = false /\ should_reload t = false.
Proof.
  revert m_queued_events.
  induction s_timers as [| t rest IH]; intros queue; cbn [fire_timers].
  - split; [discriminate | intros (t & [] & _)].
  - rewrite fire_timers_test. destruct (due now t) eqn:Hd; cbn [negb].
    + apply due_true in Hd as [He Hv].
      destruct (should_reload t) eqn:Hr.
      * match goal with
        | |- context [fire_timers now rest ?q] =>
            specialize (IH q); destruct (fire_timers now rest q) as [[rest' queue'] |]
        end.
        -- split; [discriminate |]. intros (t' & [<- | Hin] & H1 & H2 & H3);
             [congruence |].
           assert (Some (rest', queue') = None) as E by (apply (proj2 IH); eauto).
           discriminate E.
        -- split; [| reflexivity]. intros _.
           destruct (proj1 IH eq_refl) as (t' & Hin & H'). exists t'. simpl. auto.
      * split; [| reflexivity]. intros _. exists t. simpl. auto.
    + specialize (IH queue).
      destruct (fire_timers now rest queue) as [[rest' queue'] |].
      * split; [discriminate |]. intros (t' & [<- | Hin] & H1 & H2 & H3).
        -- assert (due now t = true) as Hd' by (apply due_true; auto). congruence.
        -- assert (Some (rest', queue') = None) as E by (apply (proj2 IH); eauto).
           discriminate E.
      * split; [| reflexivity]. intros _.
        destruct (proj1 IH eq_refl) as (t' & Hin & H'). exists t'. simpl. auto.
Qed.

Lemma due_reload (now : timeval) (t : EventLoopTimer) :
  due now (reload t now) = true <->
  skipped_as_not_visible t = false /\ Z.quot (interval t) 1000 <= 0 /\
  (Z.quot (interval t) 1000 = 0 -> Z.rem (interval t) 1000 <= 0).
Proof.
  rewrite due_true, has_expired_true.
  unfold skipped_as_not_visible, reload.
  cbn [fire_time tv_sec tv_usec fire_when_not_visible owner]. split.
  - intros [H Hs]. split; [exact Hs |]. lia.
  - intros (Hs & H1 & H2). split; [| exact Hs]. lia.
Qed.

(** X23. When every timer due at [now] is a reloading one, the timer loop
    reloads exactly the due timers, in place, and appends one event for each
    of them whose owner is still there, in iteration order.  Afterwards no
    timer with a positive interval is due at [now] any more, but a due timer
    with interval 0 still is. *)
Theorem fire_timers_reloads_due (now : timeval)
  (s_timers : list EventLoopTimer) (m_queued_events : list TimerEvent) :
  (forall t, In t s_timers -> due now t = true -> should_reload t = true) ->
  let fired := map (fun t => if due now t then reload t now else t) s_timers in
  fire_timers now s_timers m_queued_events =
    Some (fired,
          m_queued_events ++
          flat_map (fun t => if due now t then timer_events t else []) s_timers) /\
  (forall t, In t fired -> 0 < interval t -> due now t = false) /\
  (forall t, In t s_timers -> due now t = true -> interval t = 0 ->
             due now (reload t now) = true).
Proof.
  intros Hreload fired. subst fired. refine (conj _ (conj _ _)).
  - revert m_queued_events.
    induction s_timers as [| t rest IH]; intros queue; cbn [fire_timers map flat_map].
    + rewrite app_nil_r. reflexivity.
    + rewrite fire_timers_test.
      assert (forall t0, In t0 rest -> due now t0 = true -> should_reload t0 = true)
        as Hrest by (intros t0 Hin; apply Hreload; right; exact Hin).
      destruct (due now t) eqn:Hd; cbn [negb].
      * rewrite (Hreload t (or_introl eq_refl) Hd).
        assert (match owner t with
                | Some o => queue ++ [mkTimerEvent (object_id o) (timer_id t)]
                | None => queue
                end = queue ++ timer_events t) as Eq.
        { unfold timer_events. destruct (owner t); [reflexivity |].
          rewrite app_nil_r. reflexivity. }
        rewrite Eq, (IH Hrest), <- app_assoc. reflexivity.
      * rewrite (IH Hrest). reflexivity.
  - intros t Hin Hpos. apply in_map_iff in Hin as (t0 & <- & Hin).
    destruct (due now t0) eqn:Hd; [| exact Hd].
    apply not_true_iff_false. rewrite due_reload.
    cbn [interval reload] in Hpos.
    intros (_ & H1 & H2). Z.to_euclidean_division_equations; lia.
  - intros t Hin Hd Hi. apply due_reload. apply due_true in Hd as [_ Hs].
    rewrite Hi. split; [exact Hs |]. split; [reflexivity | intros _; reflexivity].
Qed.

Lemma fire_timers_reloads_due_witness :
  fire_timers (mk_timeval 20 0)
    [mkEventLoopTimer 1 1500 (mk_timeval 19 0) true Yes (Some (mkObject 7 false));
     mkEventLoopTimer 2 100 (mk_timeval 20 1) false Yes None;
     mkEventLoopTimer 3 0 (mk_timeval 5 0) false No (Some (mkObject 8 false))]
    [] =
  Some ([mkEventLoopTimer 1 1500 (mk_timeval 21 500000) true Yes (Some (mkObject 7 false));
         mkEventLoopTimer 2 100 (mk_timeval 20 1) false Yes None;
         mkEventLoopTimer 3 0 (mk_timeval 5 0) false No (Some (mkObject 8 false))],
        [mkTimerEvent 7 1]).
Proof.
  apply (fire_timers_reloads_due (mk_timeval 20 0)
           [mkEventLoopTimer 1 1500 (mk_timeval 19 0) true Yes (Some (mkObject 7 false));
            mkEventLoopTimer 2 100 (mk_timeval 20 1) false Yes None;
            mkEventLoopTimer 3 0 (mk_timeval 5 0) false No (Some (mkObject 8 false))]
           []).
  intros t [<- | [<- | [<- | []]]] Hd; [reflexivity | discriminate Hd | discriminate Hd].
Defined.

(** ** Signal handlers *)

(** X24. Outside [dispatch], a handler added under the next id is there at
    once, and removing it gives back the very object from before the [add];
    a second removal, as any removal of an id that is not there, answers
    [false] and changes nothing. *)
Theorem add_then_remove (sh : SignalHandlers) (handler : Function)
  (next_signal_id : Z) :
  m_calling_handlers sh = false ->
  m_handlers sh !! (next_signal_id + 1) = None ->
  next_signal_id + 1 <> 0 ->
  let '(id, sh', next') := add sh handler next_signal_id in
  id = next_signal_id + 1 /\ next' = id /\
  have sh id = false /\ have sh' id = true /\
  remove sh' id = Some (true, sh) /\
  remove sh id = Some (false, sh).
Proof.
  destruct sh as [signo handlers pending calling]. cbn [m_calling_handlers m_handlers].
  intros -> Hfresh Hne. unfold add, have, remove.
  cbn [m_calling_handlers m_handlers m_handlers_pending m_signo].
  rewrite Hfresh, lookup_insert_eq.
  rewrite (delete_insert_id _ _ _ Hfresh), (delete_id _ _ Hfresh).
  destruct (Z.eqb_spec (next_signal_id + 1) 0) as [E | _]; [contradiction |].
  rewrite bool_decide_eq_false_2 by (intros [? ?]; discriminate).
  rewrite bool_decide_eq_true_2 by eauto.
  auto 10.
Qed.

Lemma add_then_remove_witness :
  let '(id, sh', next') := add (mkSignalHandlers 2 ∅ ∅ false) (Some 100) 0 in
  id = 1 /\ have sh' 1 = true /\
  remove sh' 1 = Some (true, mkSignalHandlers 2 ∅ ∅ false).
Proof.
  pose proof (add_then_remove (mkSignalHandlers 2 ∅ ∅ false) (Some 100) 0
                eq_refl (lookup_empty _) ltac:(lia)) as H.
  unfold add in *. cbn [m_calling_handlers] in *.
  destruct H as (H1 & _ & _ & H4 & H5 & _). auto.
Defined.

(** X25. While [dispatch] is calling handlers, whatever they add or remove
    leaves [m_handlers], the map being iterated, as it is: every change goes
    to [m_handlers_pending]. *)
Theorem calls_during_dispatch_keep_handlers (calls : list HandlerCall)
  (sh sh' : SignalHandlers) (next_signal_id next' : Z) :
  m_calling_handlers sh = true ->
  run_calls calls sh next_signal_id = Some (sh', next') ->
  m_handlers sh' = m_handlers sh /\ m_calling_handlers sh' = true /\
  m_signo sh' = m_signo sh /\ next_signal_id <= next'.
Proof.
  revert sh next_signal_id.
  induction calls as [| [handler | handler_id] calls IH]; intros sh next Hc Hrun;
    cbn [run_calls] in Hrun.
  - injection Hrun as <- <-. auto with zarith.
  - unfold add in Hrun. rewrite Hc in Hrun.
    apply IH in Hrun; [| reflexivity]. cbn in Hrun. intuition lia.
  - unfold remove in Hrun.
    destruct (handler_id =? 0); [discriminate |]. rewrite Hc in Hrun.
    destruct (m_handlers sh !! handler_id) as [f |].
    + apply IH in Hrun; [| first [reflexivity | exact Hc]]. cbn in Hrun. intuition lia.
    + destruct (m_handlers_pending sh !! handler_id) as [[f |] |];
        (apply IH in Hrun; [| first [reflexivity | exact Hc]]); cbn in Hrun; intuition lia.
Qed.

Lemma calls_during_dispatch_keep_handlers_witness :
  exists sh' next',
    run_calls [CallAdd (Some 9); CallRemove 1; CallRemove 2]
      (mkSignalHandlers 2 {[1 := Some 7]} ∅ true) 1 = Some (sh', next') /\
    m_handlers sh' = {[1 := Some 7]}.
Proof.
  destruct (run_calls [CallAdd (Some 9); CallRemove 1; CallRemove 2]
              (mkSignalHandlers 2 {[1 := Some 7]} ∅ true) 1)
    as [[sh' next'] |] eqn:E; [| vm_compute in E; discriminate E].
  exists sh', next'. split; [reflexivity |].
  exact (proj1 (calls_during_dispatch_keep_handlers
                  [CallAdd (Some 9); CallRemove 1; CallRemove 2]
                  (mkSignalHandlers 2 {[1 := Some 7]} ∅ true) sh' 1 next'
                  eq_refl E)).
Defined.

Lemma apply_pending_spec (entries : list (Z * Function)) :
  NoDup entries.*1 ->
  forall handlers,
    (forall k f, (k, Some f) ∈ entries -> handlers !! k = None) ->
    exists handlers',
      apply_pending entries handlers = Some handlers' /\
      (forall k v, (k, v) ∈ entries ->
                   handlers' !! k = match v with Some f => Some (Some f) | None => None end) /\
      (forall k, k ∉ entries.*1 -> handlers' !! k = handlers !! k).
Proof.
  induction entries as [| [k0 v0] entries IH]; intros Hnd handlers Hfresh.
  - exists handlers. split; [reflexivity |]. split; [| reflexivity].
    intros k v Hin. inversion Hin.
  - change (((k0, v0) :: entries).*1) with (k0 :: entries.*1) in Hnd.
    apply NoDup_cons in Hnd as [Hk0 Hnd].
    cbn [apply_pending].
    assert (forall k v, (k, v) ∈ entries -> k <> k0) as Hother.
    { intros k v Hin ->. apply Hk0.
      apply (list_elem_of_fmap_2 fst) in Hin. exact Hin. }
    destruct v0 as [f0 |].
    + rewrite (Hfresh k0 f0) by (apply elem_of_cons; auto).
      destruct (IH Hnd (<[k0 := Some f0]> handlers)) as (handlers' & Hrun & Hin & Hout).
      { intros k f Hkf. rewrite lookup_insert_ne by (symmetry; eauto).
        apply (Hfresh k f). apply elem_of_cons. auto. }
      exists handlers'. split; [exact Hrun |]. split.
      * intros k v Hkv. apply elem_of_cons in Hkv as [E | Hkv]; [| eauto].
        injection E as E1 E2. subst k v.
        etrans; [apply (Hout k0 Hk0) | apply lookup_insert_eq].
      * intros k Hk. change (k ∉ k0 :: entries.*1) in Hk.
        apply not_elem_of_cons in Hk as [Hne Hk]. etrans; [apply (Hout k Hk) | apply lookup_insert_ne; congruence].
    + destruct (IH Hnd (delete k0 handlers)) as (handlers' & Hrun & Hin & Hout).
      { intros k f Hkf. rewrite lookup_delete_ne by (symmetry; eauto).
        apply (Hfresh k f). apply elem_of_cons. auto. }
      exists handlers'. split; [exact Hrun |]. split.
      * intros k v Hkv. apply elem_of_cons in Hkv as [E | Hkv]; [| eauto].
        injection E as E1 E2. subst k v.
        etrans; [apply (Hout k0 Hk0) | apply lookup_delete_eq].
      * intros k Hk. change (k ∉ k0 :: entries.*1) in Hk.
        apply not_elem_of_cons in Hk as [Hne Hk]. etrans; [apply (Hout k Hk) | apply lookup_delete_ne; congruence].
Qed.

(** The calls of handlers seen from the two sides: made while [dispatch] is
    calling, against [m_handlers_pending], and made outside a [dispatch],
    against [m_handlers].  What the first leaves pending, once applied, is
    what the second has done. *)
Lemma run_calls_deferred (calls : list HandlerCall) (signo : Z)
  (pending_outside : gmap Z Function) :
  Forall well_formed_call calls ->
  forall (handlers pending outside : gmap Z Function) (next_signal_id : Z),
    (forall k, outside !! k = deferred handlers pending k) ->
    (forall k, is_Some (handlers !! k) \/ is_Some (pending !! k) ->
               k <= next_signal_id) ->
    (forall k f, pending !! k = Some (Some f) -> handlers !! k = None) ->
    exists pending' outside' next',
      run_calls calls (mkSignalHandlers signo handlers pending true) next_signal_id
        = Some (mkSignalHandlers signo handlers pending' true, next') /\
      run_calls calls (mkSignalHandlers signo outside pending_outside false)
        next_signal_id
        = Some (mkSignalHandlers signo outside' pending_outside false, next') /\
      (forall k, outside' !! k = deferred handlers pending' k) /\
      (forall k f, pending' !! k = Some (Some f) -> handlers !! k = None).
Proof.
  induction 1 as [| call calls Hcall _ IH]; intros handlers pending outside next HR Hb Hf.
  - exists pending, outside, next. auto.
  - destruct call as [[f |] | id]; cbn [well_formed_call] in Hcall.
    + cbn [run_calls add m_calling_handlers m_signo m_handlers m_handlers_pending].
      apply IH.
      * intros k. unfold deferred. destruct (Z.eq_dec k (next + 1)) as [-> | Hne].
        -- rewrite !lookup_insert_eq. reflexivity.
        -- rewrite !lookup_insert_ne by congruence. apply HR.
      * intros k Hk. destruct (Z.eq_dec k (next + 1)) as [-> | Hne]; [lia |].
        rewrite lookup_insert_ne in Hk by congruence. specialize (Hb k Hk). lia.
      * intros k f' Hk. destruct (Z.eq_dec k (next + 1)) as [-> | Hne].
        -- destruct (handlers !! (next + 1)) as [g |] eqn:E; [| reflexivity].
           specialize (Hb (next + 1) (or_introl (ex_intro _ g E))). lia.
        -- rewrite lookup_insert_ne in Hk by congruence. eauto.
    + destruct Hcall as [? [=]].
    + cbn [run_calls]. unfold remove at 1 2.
      cbn [m_calling_handlers m_signo m_handlers m_handlers_pending].
      destruct (Z.eqb_spec id 0) as [E0 | _]; [contradiction |].
      assert (forall k, delete id outside !! k
                        = deferred handlers (<[id := None]> pending) k) as HRmark.
      { intros k. unfold deferred. destruct (Z.eq_dec k id) as [-> | Hne].
        - rewrite lookup_delete_eq, lookup_insert_eq. reflexivity.
        - rewrite lookup_delete_ne, lookup_insert_ne by congruence. apply HR. }
      assert (forall k f, <[id := None]> pending !! k = Some (Some f) ->
                          handlers !! k = None) as Hfmark.
      { intros k f Hk. destruct (Z.eq_dec k id) as [-> | Hne].
        - rewrite lookup_insert_eq in Hk. discriminate Hk.
        - rewrite lookup_insert_ne in Hk by congruence. eauto. }
      assert (handlers !! id = None ->
              pending !! id = Some None \/ pending !! id = None ->
              forall k, delete id outside !! k = deferred handlers pending k) as HRsame.
      { intros Hh Hp k. destruct (Z.eq_dec k id) as [-> | Hne].
        - rewrite lookup_delete_eq. unfold deferred.
          destruct Hp as [-> | ->]; [reflexivity | symmetry; exact Hh].
        - rewrite lookup_delete_ne by congruence. apply HR. }
      destruct (handlers !! id) as [g |] eqn:Eh.
      * apply IH; [exact HRmark | | exact Hfmark].
        intros k Hk. destruct (Z.eq_dec k id) as [-> | Hne].
        -- apply Hb. left. eauto.
        -- rewrite lookup_insert_ne in Hk by congruence. auto.
      * destruct (pending !! id) as [[g |] |] eqn:Ep.
        -- apply IH; [exact HRmark | | exact Hfmark].
           intros k Hk. destruct (Z.eq_dec k id) as [-> | Hne].
           ++ apply Hb. right. eauto.
           ++ rewrite lookup_insert_ne in Hk by congruence. auto.
        -- apply IH; [apply HRsame; auto | exact Hb | exact Hf].
        -- apply IH; [apply HRsame; auto | exact Hb | exact Hf].
Qed.

(** X26. A [dispatch] whose handlers add functions and remove ids ends, for
    every order in which the hash map hands out the pending entries, without
    failing its [VERIFY], and in the very object, and with the very counter,
    that the same additions and removals end in when made outside a
    [dispatch]: deferring them changes nothing. *)
Theorem dispatch_defers_what_calls_do
  (traverse : gmap Z Function -> list (Z * Function))
  (calls : list HandlerCall) (sh : SignalHandlers) (next_signal_id : Z) :
  (forall m, traverse m ≡ₚ map_to_list m) ->
  m_calling_handlers sh = false ->
  m_handlers_pending sh = ∅ ->
  (forall k, is_Some (m_handlers sh !! k) -> k <= next_signal_id) ->
  Forall well_formed_call calls ->
  exists result,
    dispatch traverse calls sh next_signal_id = Some result /\
    run_calls calls sh next_signal_id = Some result.
Proof.
  destruct sh as [signo handlers pending calling].
  cbn [m_calling_handlers m_handlers_pending m_handlers].
  intros Hperm -> -> Hb Hcalls.
  destruct (run_calls_deferred calls signo ∅ Hcalls handlers ∅ handlers next_signal_id)
    as (pending' & outside' & next' & Hd & Ho & HR & Hf).
  { intros k. unfold deferred. rewrite lookup_empty. reflexivity. }
  { intros k [Hk | Hk]; [auto |]. rewrite lookup_empty in Hk. destruct Hk as [? [=]]. }
  { intros k f Hk. rewrite lookup_empty in Hk. discriminate Hk. }
  exists (mkSignalHandlers signo outside' ∅ false, next').
  split; [| exact Ho].
  unfold dispatch. cbn [m_calling_handlers m_handlers_pending m_handlers m_signo].
  rewrite Hd. cbn [m_calling_handlers m_handlers_pending m_handlers m_signo].
  destruct (bool_decide_reflect (pending' = ∅)) as [-> | Hne].
  - do 3 f_equal. apply map_eq. intros k. rewrite HR. unfold deferred.
    rewrite lookup_empty. reflexivity.
  - destruct (apply_pending_spec (traverse pending')) with (handlers := handlers)
      as (handlers' & Hrun & Hin & Hout).
    + rewrite Hperm. apply NoDup_fst_map_to_list.
    + intros k f Hk. rewrite Hperm in Hk. apply elem_of_map_to_list in Hk. eauto.
    + rewrite Hrun. do 3 f_equal. apply map_eq. intros k. rewrite HR. unfold deferred.
      destruct (pending' !! k) as [v |] eqn:Ek.
      * assert ((k, v) ∈ traverse pending') as Hkv
          by (rewrite Hperm; apply elem_of_map_to_list; exact Ek).
        etrans; [apply (Hin k v Hkv) |]. destruct v; reflexivity.
      * apply Hout. intros Hk. apply list_elem_of_fmap in Hk as ([k' v] & E & Hkv).
        cbn in E. subst k'. rewrite Hperm in Hkv.
        apply elem_of_map_to_list in Hkv. congruence.
Qed.

Lemma dispatch_defers_what_calls_do_witness :
  exists result,
    dispatch map_to_list [CallAdd (Some 9); CallRemove 1]
      (mkSignalHandlers 2 {[1 := Some 7]} ∅ false) 1 = Some result /\
    m_handlers result.1 !! 2 = Some (Some 9) /\
    m_handlers result.1 !! 1 = None /\
    m_handlers_pending result.1 = ∅ /\ result.2 = 2.
Proof.
  destruct (dispatch_defers_what_calls_do map_to_list
              [CallAdd (Some 9); CallRemove 1]
              (mkSignalHandlers 2 {[1 := Some 7]} ∅ false) 1)
    as (result & Hd & Hr).
  - reflexivity.
  - reflexivity.
  - reflexivity.
  - intros k [v Hk]. cbn [m_handlers] in Hk.
    apply lookup_singleton_Some in Hk as [<- _]. lia.
  - repeat constructor; cbn; eauto.
  - exists result. split; [exact Hd |].
    cbn in Hr. injection Hr as <-. cbn.
    rewrite lookup_delete_ne, lookup_insert_eq, lookup_delete_eq by lia. auto.
Defined.

(** X27. What a handler sees of its own changes while [dispatch] is calling:
    a function it adds is not reported by [have] before the dispatch ends,
    though [is_empty] already counts it; an id it removes is no longer
    reported by [have], but is still in [m_handlers], and removing it once
    more answers [true] again. *)
Theorem changes_seen_during_dispatch (sh : SignalHandlers) (f : Z)
  (next_signal_id handler_id : Z) :
  m_calling_handlers sh = true ->
  m_handlers sh !! (next_signal_id + 1) = None ->
  is_Some (m_handlers sh !! handler_id) -> handler_id <> 0 ->
  (let '(id, added, _) := add sh (Some f) next_signal_id in
   have added id = false /\ is_empty added = false) /\
  exists removed,
    remove sh handler_id = Some (true, removed) /\
    have removed handler_id = false /\
    m_handlers removed = m_handlers sh /\
    remove removed handler_id = Some (true, removed).
Proof.
  destruct sh as [signo handlers pending calling].
  cbn [m_calling_handlers m_handlers].
  intros -> Hfresh [g Hg] Hne. split.
  - unfold add, have, is_empty.
    cbn [m_calling_handlers m_handlers m_handlers_pending].
    rewrite lookup_insert_eq, Hfresh.
    split; [apply bool_decide_eq_false_2; intros [? [=]] |].
    assert (existsb (fun handler : Z * option Z => bool_decide (is_Some handler.2))
              (map_to_list (<[next_signal_id + 1 := Some f]> pending)) = true) as ->;
      [| reflexivity].
    apply existsb_exists. exists (next_signal_id + 1, Some f). split.
    + apply list_elem_of_In, elem_of_map_to_list, lookup_insert_eq.
    + apply bool_decide_eq_true_2. eauto.
  - unfold remove, have.
    cbn [m_calling_handlers m_handlers m_handlers_pending m_signo].
    destruct (Z.eqb_spec handler_id 0) as [E | _]; [contradiction |].
    rewrite Hg. eexists. split; [reflexivity |].
    cbn [m_calling_handlers m_handlers m_handlers_pending m_signo].
    rewrite lookup_insert_eq, Hg, insert_insert_eq. auto.
Qed.

Lemma changes_seen_during_dispatch_witness :
  exists removed,
    remove (mkSignalHandlers 2 {[1 := Some 7]} ∅ true) 1 = Some (true, removed) /\
    have removed 1 = false /\
    m_handlers removed !! 1 = Some (Some 7) /\
    remove removed 1 = Some (true, removed).
Proof.
  destruct (changes_seen_during_dispatch
              (mkSignalHandlers 2 {[1 := Some 7]} ∅ true) 9 1 1)
    as (_ & removed & H1 & H2 & H3 & H4).
  - reflexivity.
  - reflexivity.
  - eexists. reflexivity.
  - lia.
  - exists removed. rewrite H3. auto.
Defined.

(** ** Instruction buffers *)

(** X28. [can_grow] adds in [size_t]: for a block within its capacity it
    answers [true] when the new size fits, and also whenever the sum leaves
    the range of [size_t], however far the new size is beyond the
    capacity. *)
Theorem can_grow_wraps (arch : Arch) (block : BasicBlock) (additional_size : Z) :
  0 <= m_buffer_size block <= m_buffer_capacity block ->
  is_word arch (m_buffer_capacity block) ->
  is_word arch additional_size ->
  can_grow arch block additional_size = true <->
  m_buffer_size block + additional_size <= m_buffer_capacity block \/
  ptr_modulus arch <= m_buffer_size block + additional_size.
Proof.
  unfold can_grow, is_word, wrap. intros Hs Hc Ha.
  rewrite Z.leb_le.
  assert (0 < ptr_modulus arch) as Hm by (destruct arch; reflexivity).
  destruct (Z.lt_ge_cases (m_buffer_size block + additional_size) (ptr_modulus arch))
    as [Hlt | Hge].
  - rewrite Z.mod_small by lia. lia.
  - replace ((m_buffer_size block + additional_size) mod ptr_modulus arch)
      with (m_buffer_size block + additional_size - ptr_modulus arch).
    + lia.
    + apply Z.mod_unique with (q := 1); lia.
Qed.

Lemma can_grow_wraps_witness :
  can_grow X86_64 (mkBasicBlock 4096 8) (2 ^ 64 - 8) = true /\
  can_grow X86_64 (mkBasicBlock 4096 8) 4089 = false.
Proof.
  split; [| reflexivity].
  apply (can_grow_wraps X86_64 (mkBasicBlock 4096 8) (2 ^ 64 - 8)).
  - simpl. lia.
  - vm_compute. split; congruence.
  - vm_compute. split; congruence.
  - right. vm_compute. congruence.
Defined.

(** ** getopt *)

(** X29. [getopt] never gives a result: [getopt_long] does nothing but call
    itself, with whatever number of nested calls it is allowed. *)
Theorem getopt_never_returns (calls_left : nat) (argc : Z) (argv : list string)
  (optstring : string) :
  getopt calls_left argc argv optstring = None /\
  forall longopts longindex,
    getopt_long calls_left argc argv optstring longopts longindex = None.
Proof.
  unfold getopt.
  assert (forall longopts longindex,
            getopt_long calls_left argc argv optstring longopts longindex = None) as H.
  { induction calls_left as [| n IH]; intros longopts longindex; simpl; auto. }
  auto.
Qed.

(** ** File watcher events *)

(** X30. Formatting a [FileWatcherEvent::Type] succeeds exactly for the five
    single flags, each under its own name; [Invalid] and every combination
    of two different flags, which the enum's bitwise operators allow, fail
    the [VERIFY_NOT_REACHED]. *)
Theorem format_type_single_flags_only (builder : string) (value : Z) :
  let flags := [MetadataModified; ContentModified; Deleted; ChildCreated; ChildDeleted] in
  (is_Some (format_type builder value) <-> In value flags) /\
  format_type builder Invalid = None /\
  (forall a b, In a flags -> In b flags -> a <> b ->
               format_type builder (Z.lor a b) = None) /\
  (forall a b, In a flags -> In b flags ->
               format_type builder a = format_type builder b -> a = b).
Proof.
  intros flags. subst flags. refine (conj _ (conj _ (conj _ _))).
  - unfold format_type. cbn [In].
    repeat match goal with
           | |- context [Z.eqb ?a ?b] => destruct (Z.eqb_spec a b)
           end;
      (split; [intros [s Hs]; try discriminate Hs; subst; auto 10
              | intros H; eauto; exfalso; intuition congruence]).
  - reflexivity.
  - intros a b Ha Hb Hne. cbn [In] in Ha, Hb.
    destruct Ha as [<- | [<- | [<- | [<- | [<- | []]]]]];
      destruct Hb as [<- | [<- | [<- | [<- | [<- | []]]]]];
      try reflexivity; exfalso; apply Hne; reflexivity.
  - intros a b Ha Hb. cbn [In] in Ha, Hb.
    destruct Ha as [<- | [<- | [<- | [<- | [<- | []]]]]];
      destruct Hb as [<- | [<- | [<- | [<- | [<- | []]]]]];
      try reflexivity; unfold format_type; cbn; intros H;
      injection H as H; apply (inj (String.app builder)) in H; discriminate H.
Qed.
